(** * A shallow embedding of the storage engine core

    The development follows the packages of the repository:
    - [Bloom]    : pkg/query/bloom_filter.go (the two-hash membership sketch);
    - [Recovery] : the write-ahead log and the recovery manager;
    - [Pager]    : the buffer pool ([NewPage], [GetPage]);
    - [Hash]     : pkg/hash/table.go (the extendible hash table);
    - [Join]     : pkg/query/hash_join.go (the grace hash join).

    Conventions.  Go's [int64] values are integers of [Z]; keys and values
    are only stored and compared, so they never overflow.  Locks are not
    modelled: every operation is taken atomically, as the table and bucket
    locks make it.  An operation that can fail returns its error next to the
    state it leaves behind, as the Go code does. *)

From Stdlib Require Import ZArith NArith List Lia Bool.
From stdpp Require Import base option list gmap strings.

Import ListNotations.

(** Go's [error]: [None] is [nil]. *)
Definition error := option string.

(* ===================================================================== *)
(** * pkg/query/bloom_filter.go *)
(* ===================================================================== *)

Module Bloom.

Local Open Scope N_scope.

(** The bit set of github.com/bits-and-blooms/bitset: a length and the
    bits.  The words are kept as the binary digits of one number. *)
Record BitSet := mkBitSet { bs_length : N; bs_words : N }.

(** [bitset.New(length)]. *)
Definition New (length : N) : BitSet := mkBitSet length 0.

(** [b.Set(i)]: grows the set when [i] is past its length, then sets the
    bit. *)
Definition Set_ (b : BitSet) (i : N) : BitSet :=
  mkBitSet (if bs_length b <=? i then i + 1 else bs_length b)
           (N.setbit (bs_words b) i).

(** [b.Test(i)]: a bit past the length reads as false. *)
Definition Test (b : BitSet) (i : N) : bool :=
  if bs_length b <=? i then false else N.testbit (bs_words b) i.

Record BloomFilter := mkFilter { size : Z; bits : BitSet }.

(** [uint(size)]: the conversion of an [int64] to a 64-bit unsigned. *)
Definition to_uint (z : Z) : N := Z.to_N (z mod 2 ^ 64).

Definition CreateFilter (size : Z) : BloomFilter :=
  mkFilter size (New (to_uint size)).

(** Two concrete hash functions, for running the filter. *)
Definition demo_xx (k s : Z) : N := Z.to_N (k mod s)%Z.
Definition demo_murmur (k s : Z) : N := Z.to_N ((7 * k + 1) mod s)%Z.

Section Filter.

(** [hash.XxHasher] and [hash.MurmurHasher] are not part of the sources at
    hand; they are any two functions from a key and a size to a [uint]. *)
Variable XxHasher MurmurHasher : Z -> Z -> N.

Definition Insert (filter : BloomFilter) (key : Z) : BloomFilter :=
  let xxhashRes := XxHasher key (size filter) in
  let murmurhashRes := MurmurHasher key (size filter) in
  mkFilter (size filter) (Set_ (Set_ (bits filter) xxhashRes) murmurhashRes).

Definition Contains (filter : BloomFilter) (key : Z) : bool :=
  let xxhashRes := XxHasher key (size filter) in
  let murmurhashRes := MurmurHasher key (size filter) in
  let inXxHash := Test (bits filter) xxhashRes in
  let inMurmurHash := Test (bits filter) murmurhashRes in
  inXxHash && inMurmurHash.

(** Inserting a sequence of keys, first to last. *)
Definition insert_all (filter : BloomFilter) (keys : list Z) : BloomFilter :=
  fold_left Insert keys filter.

Lemma Test_Set_same b i : Test (Set_ b i) i = true.
Proof.
  unfold Test, Set_; simpl.
  destruct (bs_length b <=? i) eqn:E.
  - replace (i + 1 <=? i) with false by (symmetry; apply N.leb_gt; lia).
    apply N.setbit_eq.
  - rewrite E. apply N.setbit_eq.
Qed.

Lemma Test_Set_mono b i j : Test b j = true -> Test (Set_ b i) j = true.
Proof.
  unfold Test, Set_; simpl.
  destruct (bs_length b <=? j) eqn:Ej; [discriminate|].
  apply N.leb_gt in Ej. intros Hj.
  destruct (bs_length b <=? i) eqn:Ei.
  - apply N.leb_le in Ei.
    replace (i + 1 <=? j) with false by (symmetry; apply N.leb_gt; lia).
    rewrite N.setbit_eqb, Hj. apply orb_true_r.
  - replace (bs_length b <=? j) with false by (symmetry; apply N.leb_gt; lia).
    rewrite N.setbit_eqb, Hj. apply orb_true_r.
Qed.

Lemma size_Insert filter key : size (Insert filter key) = size filter.
Proof. reflexivity. Qed.

Lemma size_insert_all keys : forall filter,
  size (insert_all filter keys) = size filter.
Proof.
  induction keys as [|k keys IH]; intros filter; simpl; [reflexivity|].
  unfold insert_all in *; simpl. rewrite IH. apply size_Insert.
Qed.

Lemma Contains_Insert_same filter key : Contains (Insert filter key) key = true.
Proof.
  unfold Contains, Insert; simpl.
  rewrite Test_Set_same, andb_true_r.
  apply Test_Set_mono, Test_Set_same.
Qed.

Lemma Contains_Insert_mono filter key k :
  Contains filter k = true -> Contains (Insert filter key) k = true.
Proof.
  unfold Contains, Insert; simpl.
  intros [H1 H2]%andb_true_iff.
  apply andb_true_iff; split; do 2 apply Test_Set_mono; assumption.
Qed.

Lemma Contains_insert_all_mono keys : forall filter k,
  Contains filter k = true -> Contains (insert_all filter keys) k = true.
Proof.
  induction keys as [|k' keys IH]; intros filter k Hk; simpl; [exact Hk|].
  apply IH, Contains_Insert_mono, Hk.
Qed.

(** C8. Whatever the width of the filter, whatever the two hash functions
    and whatever the sequence of keys inserted, [Contains] answers true for
    every key of the sequence: the filter has no false negatives. *)
Theorem no_false_negatives (width : Z) (keys : list Z) (k : Z) :
  In k keys ->
  Contains (insert_all (CreateFilter width) keys) k = true.
Proof.
  generalize (CreateFilter width) as filter.
  induction keys as [|k' keys IH]; intros filter Hin; simpl in *; [contradiction|].
  destruct Hin as [->|Hin].
  - apply Contains_insert_all_mono, Contains_Insert_same.
  - apply IH, Hin.
Qed.

(** ** What the filter answers, exactly *)

(** No bit is set past the length of the set. *)
Definition tidy (b : BitSet) : Prop :=
  forall j, bs_length b <= j -> N.testbit (bs_words b) j = false.

Lemma tidy_New length : tidy (New length).
Proof. intros j _. apply N.bits_0. Qed.

Lemma tidy_Set b i : tidy b -> tidy (Set_ b i).
Proof.
  intros Hb j. unfold Set_; simpl. intros Hj.
  rewrite N.setbit_eqb.
  destruct (bs_length b <=? i) eqn:E.
  - apply N.leb_le in E. rewrite Hb by lia.
    replace (i =? j) with false by (symmetry; apply N.eqb_neq; lia). done.
  - apply N.leb_gt in E. rewrite Hb by lia.
    replace (i =? j) with false by (symmetry; apply N.eqb_neq; lia). done.
Qed.

Lemma Test_Set b i j : tidy b -> Test (Set_ b i) j = (i =? j) || Test b j.
Proof.
  intros Hb. unfold Test, Set_; simpl. rewrite N.setbit_eqb.
  destruct (bs_length b <=? i) eqn:Ei; destruct (bs_length b <=? j) eqn:Ej;
    try apply N.leb_le in Ei; try apply N.leb_le in Ej;
    try apply N.leb_gt in Ei; try apply N.leb_gt in Ej.
  - rewrite (Hb j) by lia. rewrite !orb_false_r.
    destruct (i + 1 <=? j) eqn:E; [apply N.leb_le in E|apply N.leb_gt in E].
    + symmetry. apply N.eqb_neq. lia.
    + done.
  - replace (i + 1 <=? j) with false by (symmetry; apply N.leb_gt; lia). done.
  - replace (i =? j) with false by (symmetry; apply N.eqb_neq; lia). done.
  - done.
Qed.

(** The bit positions that the insertion of the keys sets. *)
Definition positions (width : Z) (keys : list Z) : list N :=
  flat_map (fun key => [XxHasher key width; MurmurHasher key width]) keys.

Lemma Test_insert_all keys : forall filter i,
  tidy (bits filter) ->
  tidy (bits (insert_all filter keys)) /\
  (Test (bits (insert_all filter keys)) i = true <->
   Test (bits filter) i = true \/ In i (positions (size filter) keys)).
Proof.
  induction keys as [|k keys IH]; intros filter i Hb; simpl.
  { split; [done|]. tauto. }
  unfold insert_all in *; simpl.
  assert (Hb1 : tidy (bits (Insert filter k))) by (simpl; by do 2 apply tidy_Set).
  destruct (IH (Insert filter k) i Hb1) as [Ht Hiff].
  split; [done|]. rewrite Hiff. simpl.
  rewrite !Test_Set by (try apply tidy_Set; done).
  rewrite !orb_true_iff, !N.eqb_eq. tauto.
Qed.

(** X19. The answer of the filter, exactly: after the insertion of a
    sequence of keys into a new filter, [Contains(k)] answers true if and
    only if each of the two bit positions of [k] is a bit position of an
    inserted key.  A new filter contains no key, and a key that was not
    inserted is reported only when both its positions collide with those
    of inserted keys. *)
Theorem Contains_iff_positions (width : Z) (keys : list Z) (k : Z) :
  Contains (insert_all (CreateFilter width) keys) k = true <->
  In (XxHasher k width) (positions width keys) /\
  In (MurmurHasher k width) (positions width keys).
Proof.
  unfold Contains. rewrite size_insert_all. simpl size.
  rewrite andb_true_iff.
  destruct (Test_insert_all keys (CreateFilter width) (XxHasher k width)
              (tidy_New _)) as [_ H1].
  destruct (Test_insert_all keys (CreateFilter width) (MurmurHasher k width)
              (tidy_New _)) as [_ H2].
  rewrite H1, H2. simpl.
  assert (Hnew : forall i, Test (New (to_uint width)) i = true <-> False).
  { intros i. unfold Test, New; cbn [bs_length bs_words]. rewrite N.bits_0.
    by destruct (to_uint width <=? i). }
  rewrite !Hnew. tauto.
Qed.


End Filter.

(** The filter of width 1024 used by the join, after three insertions. *)
Lemma no_false_negatives_witness :
  In 8%Z [3%Z; 8%Z; 1027%Z] /\
  Contains demo_xx demo_murmur
    (insert_all demo_xx demo_murmur (CreateFilter 1024) [3%Z; 8%Z; 1027%Z]) 8%Z
  = true.
Proof.
  split; [simpl; tauto|].
  apply (no_false_negatives demo_xx demo_murmur 1024 [3%Z; 8%Z; 1027%Z] 8%Z).
  simpl; tauto.
Defined.

End Bloom.

(* ===================================================================== *)
(** * The recovery manager (package recovery) *)
(* ===================================================================== *)

Module Recovery.

(** A [uuid.UUID] is 128 bits. *)
Abbreviation UUID := N.

Inductive Action := INSERT_ACTION | UPDATE_ACTION | DELETE_ACTION.

(** The log records, with the fields the recovery code reads. *)
Inductive Log :=
| tableLog (tblType tblName : string)
| editLog (id : UUID) (tablename : string) (action : Action)
          (key oldval newval : Z)
| startLog (id : UUID)
| commitLog (id : UUID)
| checkpointLog (ids : list UUID).

Definition is_startLog (l : Log) : bool :=
  match l with startLog _ => true | _ => false end.

Definition is_editLog (l : Log) : bool :=
  match l with editLog _ _ _ _ _ _ => true | _ => false end.

Definition is_checkpointLog (l : Log) : bool :=
  match l with checkpointLog _ => true | _ => false end.

Section Manager.

(** The database and the transaction manager are collaborators of the
    recovery manager.  Their handlers are not in the sources at hand: the
    manager is modelled over any database, any transaction manager and any
    handlers.  A handler receives the fields that the Go code prints into
    its payload string. *)
Variable Database TransactionManager : Type.

(** The log file [fd] is the list of the records appended to it, oldest
    first; [txStack] is the Go map from transaction to its records. *)
Record RecoveryManager := mkRM {
  d : Database;
  tm : TransactionManager;
  txStack : gmap N (list Log);
  fd : list Log
}.

(** [db.HandleCreateTable], [db.HandleInsert], [db.HandleUpdate] and
    [db.HandleDelete]: the logical operations of the database. *)
Variable db_HandleCreateTable : Database -> string -> string -> Database * error.
Variable db_HandleInsert : Database -> string -> Z -> Z -> Database * error.
Variable db_HandleUpdate : Database -> string -> Z -> Z -> Database * error.
Variable db_HandleDelete : Database -> string -> Z -> Database * error.

(** [HandleInsert], [HandleUpdate] and [HandleDelete] of package recovery:
    they are given the database, the transaction manager and the recovery
    manager itself, so they may change all of the manager's state. *)
Variable HandleInsert : RecoveryManager -> string -> Z -> Z -> UUID -> RecoveryManager * error.
Variable HandleUpdate : RecoveryManager -> string -> Z -> Z -> UUID -> RecoveryManager * error.
Variable HandleDelete : RecoveryManager -> string -> Z -> UUID -> RecoveryManager * error.

(** [tm.Begin] and [tm.Commit]. *)
Variable tm_Begin : TransactionManager -> UUID -> TransactionManager * error.
Variable tm_Commit : TransactionManager -> UUID -> TransactionManager * error.

Definition set_d (rm : RecoveryManager) (x : Database) : RecoveryManager :=
  mkRM x (tm rm) (txStack rm) (fd rm).
Definition set_tm (rm : RecoveryManager) (x : TransactionManager) : RecoveryManager :=
  mkRM (d rm) x (txStack rm) (fd rm).
Definition set_txStack (rm : RecoveryManager) (x : gmap N (list Log)) : RecoveryManager :=
  mkRM (d rm) (tm rm) x (fd rm).

(** [rm.writeToBuffer]: append to the log file and sync. *)
Definition writeToBuffer (rm : RecoveryManager) (s : Log) : RecoveryManager :=
  mkRM (d rm) (tm rm) (txStack rm) (fd rm ++ [s]).

(** [rm.txStack[clientId] = append(rm.txStack[clientId], &log)]: a key that
    is absent reads as the nil slice. *)
Definition push (rm : RecoveryManager) (clientId : UUID) (log : Log) : RecoveryManager :=
  set_txStack rm (<[clientId := default [] (txStack rm !! clientId) ++ [log]]> (txStack rm)).

Definition Table (rm : RecoveryManager) (tblType tblName : string) : RecoveryManager :=
  writeToBuffer rm (tableLog tblType tblName).

Definition Edit (rm : RecoveryManager) (clientId : UUID) (tablename : string)
    (action : Action) (key oldval newval : Z) : RecoveryManager :=
  let log := editLog clientId tablename action key oldval newval in
  push (writeToBuffer rm log) clientId log.

Definition Start (rm : RecoveryManager) (clientId : UUID) : RecoveryManager :=
  let log := startLog clientId in
  push (writeToBuffer rm log) clientId log.

Definition Commit (rm : RecoveryManager) (clientId : UUID) : RecoveryManager :=
  let log := commitLog clientId in
  let rm1 := set_txStack rm (delete clientId (txStack rm)) in
  let rm2 := writeToBuffer rm1 log in
  push rm2 clientId log.

(** The variant of [Commit] that the specification asks for: the same, with
    the trailing append to the transaction stack left out. *)
Definition Commit_elided (rm : RecoveryManager) (clientId : UUID) : RecoveryManager :=
  let log := commitLog clientId in
  let rm1 := set_txStack rm (delete clientId (txStack rm)) in
  writeToBuffer rm1 log.

(** [rm.Checkpoint]: flushing the pagers and the copy of the database
    folder only touch the disk; the record lists the keys of [txStack] (in
    the order of the map's traversal, which Go leaves unspecified). *)
Definition Checkpoint (rm : RecoveryManager) : RecoveryManager :=
  let log := (map_to_list (txStack rm)).*1 in
  writeToBuffer rm (checkpointLog log).

Definition Redo (rm : RecoveryManager) (log : Log) : RecoveryManager * error :=
  match log with
  | tableLog tblType tblName =>
      let '(d1, err) := db_HandleCreateTable (d rm) tblType tblName in
      (set_d rm d1, err)
  | editLog _ tablename action key _ newval =>
      match action with
      | INSERT_ACTION =>
          let '(d1, err) := db_HandleInsert (d rm) tablename key newval in
          match err with
          | None => (set_d rm d1, None)
          | Some _ =>
              let '(d2, err2) := db_HandleUpdate d1 tablename key newval in
              (set_d rm d2, err2)
          end
      | UPDATE_ACTION =>
          let '(d1, err) := db_HandleUpdate (d rm) tablename key newval in
          match err with
          | None => (set_d rm d1, None)
          | Some _ =>
              let '(d2, err2) := db_HandleInsert d1 tablename key newval in
              (set_d rm d2, err2)
          end
      | DELETE_ACTION =>
          let '(d1, err) := db_HandleDelete (d rm) tablename key in
          (set_d rm d1, err)
      end
  | _ => (rm, Some "can only redo edit logs"%string)
  end.

Definition Undo (rm : RecoveryManager) (log : Log) : RecoveryManager * error :=
  match log with
  | editLog id tablename action key oldval _ =>
      match action with
      | INSERT_ACTION => HandleDelete rm tablename key id
      | UPDATE_ACTION => HandleUpdate rm tablename key oldval id
      | DELETE_ACTION => HandleInsert rm tablename key oldval id
      end
  | _ => (rm, Some "can only undo edit logs"%string)
  end.

(** [rm.tm.Begin] and [rm.tm.Commit] on the manager's state. *)
Definition rm_tm_Begin (rm : RecoveryManager) (id : UUID) : RecoveryManager * error :=
  let '(t, err) := tm_Begin (tm rm) id in (set_tm rm t, err).
Definition rm_tm_Commit (rm : RecoveryManager) (id : UUID) : RecoveryManager * error :=
  let '(t, err) := tm_Commit (tm rm) id in (set_tm rm t, err).

(** Modelled from the spec: [rm.readLogs], which is not in the sources at
    hand, returns the records of the log file and the position of the most
    recent checkpoint record (0 when there is none), from which the redo
    phase runs forward. *)
Fixpoint last_checkpoint (log : list Log) (i : nat) (found : nat) : nat :=
  match log with
  | [] => found
  | l :: log' => last_checkpoint log' (S i) (if is_checkpointLog l then i else found)
  end.

(** Modelled from the spec: [rm.readLogs] returns the records of the log
    file, the position of the most recent checkpoint and no error (the
    records are kept parsed). *)
Definition readLogs (rm : RecoveryManager) : list Log * nat * error :=
  (fd rm, last_checkpoint (fd rm) 0 0, None).

(** The body of the redo loop of [Recover], at record [l]: the errors of
    [Redo], [Begin] and [Commit] are dropped there. *)
Definition redo_step (st : RecoveryManager * gset N) (l : Log) : RecoveryManager * gset N :=
  let '(rm, currentActivate) := st in
  match l with
  | tableLog _ _ => ((Redo rm l).1, currentActivate)
  | checkpointLog ids =>
      fold_left (fun (st : RecoveryManager * gset N) txn =>
                   ((rm_tm_Begin st.1 txn).1, {[txn]} ∪ st.2))
                ids (rm, currentActivate)
  | editLog id _ _ _ _ _ => ((Redo rm l).1, {[id]} ∪ currentActivate)
  | startLog id => ((rm_tm_Begin rm id).1, {[id]} ∪ currentActivate)
  | commitLog id => ((rm_tm_Commit rm id).1, currentActivate ∖ {[id]})
  end.

(** [for ptr <= length - 1 { ...; ptr = ptr + 1 }], with [n] the number of
    records still to visit. *)
Fixpoint redo_loop (log : list Log) (n : nat) (ptr : nat)
    (st : RecoveryManager * gset N) : RecoveryManager * gset N :=
  match n with
  | O => st
  | S n' =>
      match log !! ptr with
      | Some l => redo_loop log n' (S ptr) (redo_step st l)
      | None => st
      end
  end.

(** [for undoPtr >= 0 { ...; undoPtr = undoPtr - 1 }], with [n] standing
    for [undoPtr + 1]. *)
Fixpoint undo_loop (log : list Log) (n : nat)
    (st : RecoveryManager * gset N) : RecoveryManager * error :=
  match n with
  | O => (st.1, None)
  | S undoPtr =>
      let '(rm, currentActivate) := st in
      match log !! undoPtr with
      | Some (editLog id _ _ _ _ _ as logFile) =>
          if decide (id ∈ currentActivate) then
            let '(rm1, err) := Undo rm logFile in
            match err with
            | Some e => (rm1, Some e)
            | None => undo_loop log undoPtr (rm1, currentActivate)
            end
          else undo_loop log undoPtr st
      | Some (startLog id) =>
          if decide (id ∈ currentActivate) then
            let rm1 := Commit rm id in
            let '(rm2, err) := rm_tm_Commit rm1 id in
            match err with
            | Some e => (rm2, Some e)
            | None => undo_loop log undoPtr (rm2, currentActivate ∖ {[id]})
            end
          else undo_loop log undoPtr st
      | _ => undo_loop log undoPtr st
      end
  end.

Definition Recover (rm : RecoveryManager) : RecoveryManager * error :=
  let currentActivate : gset N := ∅ in
  let '(log, ptr, err) := readLogs rm in
  match err with
  | Some e => (rm, Some e)
  | None =>
      let length := length log in
      let st := redo_loop log (length - ptr) ptr (rm, currentActivate) in
      undo_loop log length st
  end.

(** [for ptr := len(log) - 1; ptr >= 0; ptr--] of [Rollback], with [n]
    standing for [ptr + 1]. *)
Fixpoint rollback_loop (log : list Log) (n : nat)
    (rm : RecoveryManager) : RecoveryManager * error :=
  match n with
  | O => (rm, None)
  | S ptr =>
      match log !! ptr with
      | Some l =>
          if is_editLog l then
            let '(rm1, err) := Undo rm l in
            match err with
            | Some e => (rm1, Some e)
            | None => rollback_loop log ptr rm1
            end
          else rollback_loop log ptr rm
      | None => rollback_loop log ptr rm
      end
  end.

Definition Rollback (rm : RecoveryManager) (clientId : UUID) : RecoveryManager * error :=
  match txStack rm !! clientId with
  | None => (rm, None)
  | Some log =>
      if (0 <? length log)%nat then
        match log !! 0%nat with
        | Some (startLog _) =>
            let '(rm1, err) := rollback_loop log (length log) rm in
            match err with
            | Some e => (rm1, Some e)
            | None => rm_tm_Commit (Commit rm1 clientId) clientId
            end
        | _ => (rm, Some "incorrect format"%string)
        end
      else rm_tm_Commit (Commit rm clientId) clientId
  end.

(** What the specification says of [Rollback], in its words: the inverse of
    an edit, the replay of a stack from its last record to its first, and
    the closing commit. *)
Definition inverse_of (rm : RecoveryManager) (l : Log) : RecoveryManager * error :=
  match l with
  | editLog id tablename INSERT_ACTION key _ _ => HandleDelete rm tablename key id
  | editLog id tablename UPDATE_ACTION key oldval _ => HandleUpdate rm tablename key oldval id
  | editLog id tablename DELETE_ACTION key oldval _ => HandleInsert rm tablename key oldval id
  | _ => (rm, None)
  end.

Fixpoint replay_lifo (stack : list Log) (rm : RecoveryManager) : RecoveryManager * error :=
  match stack with
  | [] => (rm, None)
  | l :: older =>
      let '(rm1, err) := inverse_of rm l in
      match err with
      | Some e => (rm1, Some e)
      | None => replay_lifo older rm1
      end
  end.

(** ** Facts on the manager *)

Lemma fd_Commit rm id : fd (Commit rm id) = fd rm ++ [commitLog id].
Proof. reflexivity. Qed.

Lemma d_Commit rm id : d (Commit rm id) = d rm.
Proof. reflexivity. Qed.

Lemma txStack_Commit rm id :
  txStack (Commit rm id) = <[id := [commitLog id]]> (delete id (txStack rm)).
Proof.
  unfold Commit, push; simpl. by rewrite lookup_delete_eq.
Qed.

Lemma txStack_Commit_elided rm id :
  txStack (Commit_elided rm id) = delete id (txStack rm).
Proof. reflexivity. Qed.

Lemma fd_rm_tm_Commit rm id : fd (rm_tm_Commit rm id).1 = fd rm.
Proof. unfold rm_tm_Commit. by destruct (tm_Commit (tm rm) id). Qed.

Lemma d_rm_tm_Commit rm id : d (rm_tm_Commit rm id).1 = d rm.
Proof. unfold rm_tm_Commit. by destruct (tm_Commit (tm rm) id). Qed.

Lemma Undo_inverse_of rm l : is_editLog l = true -> Undo rm l = inverse_of rm l.
Proof. destruct l as [| ? ? [] ? ? ?| | |]; simpl; done. Qed.

Lemma inverse_of_other rm l : is_editLog l = false -> inverse_of rm l = (rm, None).
Proof. destruct l as [| ? ? [] ? ? ?| | |]; simpl; done. Qed.

(** The index loop of [Rollback] visits the records last to first. *)
Lemma rollback_loop_take log : forall n rm,
  (n <= length log)%nat ->
  rollback_loop log n rm = replay_lifo (rev (take n log)) rm.
Proof.
  induction n as [|n IH]; intros rm Hn; [by rewrite take_0|].
  destruct (lookup_lt_is_Some_2 log n ltac:(lia)) as [l Hl].
  rewrite (take_S_r _ _ _ Hl), rev_app_distr; simpl. rewrite Hl.
  destruct (is_editLog l) eqn:El.
  - rewrite (Undo_inverse_of _ _ El).
    destruct (inverse_of rm l) as [rm1 [e|]]; [done|]. apply IH; lia.
  - rewrite (inverse_of_other _ _ El). apply IH; lia.
Qed.

Lemma rollback_loop_replay log rm :
  rollback_loop log (length log) rm = replay_lifo (rev log) rm.
Proof.
  rewrite rollback_loop_take by lia. by rewrite firstn_all.
Qed.

(** C7. [Rollback] of a transaction with a non-empty record stack: when the
    first record is not a START it fails with "incorrect format" and leaves
    the manager as it was; otherwise it replays the stack from its last
    record to its first, applying to each edit its inverse (INSERT by the
    delete handler, UPDATE by the update handler with the old value, DELETE
    by the insert handler with the old value, the handlers [Undo] hands to
    recovery); it stops at the first handler error, and else writes a COMMIT
    record to the log and commits the transaction. *)
Theorem Rollback_replays_lifo rm clientId log first rest :
  txStack rm !! clientId = Some log ->
  log = first :: rest ->
  (is_startLog first = false ->
     Rollback rm clientId = (rm, Some "incorrect format"%string)) /\
  (is_startLog first = true ->
     match replay_lifo (rev log) rm with
     | (rm1, Some e) => Rollback rm clientId = (rm1, Some e)
     | (rm1, None) =>
         Rollback rm clientId = rm_tm_Commit (Commit rm1 clientId) clientId /\
         fd (Rollback rm clientId).1 = fd rm1 ++ [commitLog clientId] /\
         d (Rollback rm clientId).1 = d rm1
     end).
Proof.
  intros Hstack ->. unfold Rollback. rewrite Hstack.
  change (0 <? length (first :: rest))%nat with true.
  change ((first :: rest) !! 0%nat) with (Some first).
  cbv iota.
  split; intros Hfirst.
  - destruct first; simpl in Hfirst; done.
  - destruct first; simpl in Hfirst; try done.
    rewrite rollback_loop_replay.
    destruct (replay_lifo (rev (startLog id :: rest)) rm) as [rm1 [e|]]; [done|].
    split; [done|]. by rewrite fd_rm_tm_Commit, d_rm_tm_Commit.
Qed.

(** C10. [Rollback] of a transaction that has no entry in the transaction
    stack returns nil and leaves the manager as it was: no record is written
    to the log, the database is not modified and the transaction is not
    committed in the transaction manager. *)
Theorem Rollback_no_entry rm clientId :
  txStack rm !! clientId = None ->
  Rollback rm clientId = (rm, None).
Proof. intros Hnone. unfold Rollback. by rewrite Hnone. Qed.

(** C9 (the code at work). The append that ends [Commit] is not dead:
    after [Commit] the stack of the transaction holds the COMMIT record, so
    a later [Rollback] of the same transaction fails with "incorrect
    format" and a later [Checkpoint] lists the committed transaction among
    the running ones; with the append left out, [Rollback] returns nil and
    [Checkpoint] does not list the transaction. *)
Theorem Commit_append_observable rm clientId :
  (Rollback (Commit rm clientId) clientId
     = (Commit rm clientId, Some "incorrect format"%string) /\
   Rollback (Commit_elided rm clientId) clientId
     = (Commit_elided rm clientId, None)) /\
  (exists ids ids',
     last (fd (Checkpoint (Commit rm clientId))) = Some (checkpointLog ids) /\
     last (fd (Checkpoint (Commit_elided rm clientId))) = Some (checkpointLog ids') /\
     clientId ∈ ids /\ clientId ∉ ids').
Proof.
  split; [split|].
  - unfold Rollback. rewrite txStack_Commit, lookup_insert_eq. done.
  - unfold Rollback. rewrite txStack_Commit_elided, lookup_delete_eq. done.
  - exists (map_to_list (txStack (Commit rm clientId))).*1,
           (map_to_list (txStack (Commit_elided rm clientId))).*1.
    split; [apply last_snoc|]. split; [apply last_snoc|].
    rewrite txStack_Commit, txStack_Commit_elided. split.
    + apply list_elem_of_fmap. exists (clientId, [commitLog clientId]).
      split; [done|]. apply elem_of_map_to_list, lookup_insert_eq.
    + intros [[i x] [-> Hin]]%list_elem_of_fmap.
      apply elem_of_map_to_list in Hin. simpl in Hin.
      by rewrite lookup_delete_eq in Hin.
Qed.

(** ** A transaction from [Start] to [Rollback] *)

(** An edit, as [Edit] is given it. *)
Record edit := mkEdit {
  e_table : string; e_action : Action; e_key : Z; e_old : Z; e_new : Z
}.

Definition edit_log (clientId : UUID) (e : edit) : Log :=
  editLog clientId (e_table e) (e_action e) (e_key e) (e_old e) (e_new e).

(** The calls of [Edit] for the edits [es] of transaction [clientId],
    first to last. *)
Definition run_edits (rm : RecoveryManager) (clientId : UUID) (es : list edit)
    : RecoveryManager :=
  fold_left (fun rm e => Edit rm clientId (e_table e) (e_action e) (e_key e)
                           (e_old e) (e_new e)) es rm.

(** The transactions that the redo loop of [Recover] holds for active
    after record [l]. *)
Definition activate (currentActivate : gset N) (l : Log) : gset N :=
  match l with
  | tableLog _ _ => currentActivate
  | checkpointLog ids => list_to_set ids ∪ currentActivate
  | editLog id _ _ _ _ _ => {[id]} ∪ currentActivate
  | startLog id => {[id]} ∪ currentActivate
  | commitLog id => currentActivate ∖ {[id]}
  end.

Lemma run_edits_spec clientId es : forall rm stack,
  txStack rm !! clientId = Some stack ->
  txStack (run_edits rm clientId es) !! clientId
    = Some (stack ++ (edit_log clientId <$> es)) /\
  fd (run_edits rm clientId es) = fd rm ++ (edit_log clientId <$> es) /\
  d (run_edits rm clientId es) = d rm /\ tm (run_edits rm clientId es) = tm rm /\
  (forall id, id <> clientId ->
     txStack (run_edits rm clientId es) !! id = txStack rm !! id).
Proof.
  induction es as [|e es IH]; intros rm stack Hst; simpl.
  { by rewrite !app_nil_r. }
  set (rm1 := Edit rm clientId (e_table e) (e_action e) (e_key e) (e_old e) (e_new e)).
  assert (Hst1 : txStack rm1 !! clientId = Some (stack ++ [edit_log clientId e])).
  { unfold rm1, Edit, push; simpl. rewrite lookup_insert_eq, Hst. done. }
  destruct (IH rm1 _ Hst1) as (H1 & H2 & H3 & H4 & H5).
  assert (Hfd1 : fd rm1 = fd rm ++ [edit_log clientId e]) by done.
  assert (Hd1 : d rm1 = d rm) by done.
  assert (Htm1 : tm rm1 = tm rm) by done.
  unfold run_edits in *. rewrite H1, H2, H3, H4, Hfd1, Hd1, Htm1.
  rewrite <- !app_assoc. simpl.
  split; [done|]. split; [done|]. split; [done|]. split; [done|].
  intros id Hne. rewrite H5 by done.
  unfold rm1, Edit, push; simpl. by rewrite lookup_insert_ne.
Qed.

Lemma replay_lifo_start stack clientId : forall rm,
  replay_lifo (stack ++ [startLog clientId]) rm = replay_lifo stack rm.
Proof.
  induction stack as [|l stack IH]; intros rm; simpl; [done|].
  destruct (inverse_of rm l) as [rm1 [e|]]; [done|]. apply IH.
Qed.

(** X20. A transaction from [Start] to [Rollback].  After [Start] for a
    transaction that has no record stack and any calls of [Edit] for it,
    the stack of the transaction is its START record followed by its edits,
    the log file has grown by the same records, and the database, the
    transaction manager and the stacks of the other transactions are
    untouched.  [Rollback] then does not fail on the format: it undoes
    exactly these edits, the last one first, stops at the first handler
    error, and else commits. *)
Theorem Start_Edit_Rollback rm clientId es :
  txStack rm !! clientId = None ->
  let rm' := run_edits (Start rm clientId) clientId es in
  let logs := edit_log clientId <$> es in
  txStack rm' !! clientId = Some (startLog clientId :: logs) /\
  fd rm' = fd rm ++ startLog clientId :: logs /\
  d rm' = d rm /\ tm rm' = tm rm /\
  (forall id, id <> clientId -> txStack rm' !! id = txStack rm !! id) /\
  Rollback rm' clientId =
    match replay_lifo (rev logs) rm' with
    | (rm1, Some e) => (rm1, Some e)
    | (rm1, None) => rm_tm_Commit (Commit rm1 clientId) clientId
    end.
Proof.
  intros Hnone rm' logs.
  assert (Hst : txStack (Start rm clientId) !! clientId = Some [startLog clientId]).
  { unfold Start, push; simpl. by rewrite lookup_insert_eq, Hnone. }
  destruct (run_edits_spec clientId es _ _ Hst) as (H1 & H2 & H3 & H4 & H5).
  fold rm' logs in H1, H2, H3, H4, H5. simpl in H1.
  split; [done|]. split; [rewrite H2; simpl; by rewrite <- app_assoc|].
  split; [done|]. split; [done|]. split.
  { intros id Hne. rewrite H5 by done.
    unfold Start, push; simpl. by rewrite lookup_insert_ne. }
  unfold Rollback. rewrite H1.
  change (0 <? length (startLog clientId :: logs))%nat with true.
  change ((startLog clientId :: logs) !! 0%nat) with (Some (startLog clientId)).
  cbv iota. rewrite rollback_loop_replay.
  change (rev (startLog clientId :: logs)) with (rev logs ++ [startLog clientId]).
  rewrite replay_lifo_start.
  by destruct (replay_lifo (rev logs) rm') as [rm1 [e|]].
Qed.

(** ** Recovery of a log with no transaction in flight *)

Lemma redo_checkpoint_fold ids : forall st,
  let r := fold_left (fun (st : RecoveryManager * gset N) txn =>
                        ((rm_tm_Begin st.1 txn).1, {[txn]} ∪ st.2)) ids st in
  r.2 = list_to_set ids ∪ st.2 /\ fd r.1 = fd st.1 /\ txStack r.1 = txStack st.1.
Proof.
  induction ids as [|txn ids IH]; intros st; cbn [fold_left].
  { split; [|done]. by rewrite list_to_set_nil, (left_id_L ∅ (∪)). }
  destruct (IH ((rm_tm_Begin st.1 txn).1, {[txn]} ∪ st.2)) as (H1 & H2 & H3).
  cbn [fst snd] in *. rewrite H1, H2, H3.
  split.
  - rewrite list_to_set_cons, (comm_L (∪) {[txn]} (list_to_set ids)).
    by rewrite <- (assoc_L (∪)).
  - unfold rm_tm_Begin. by destruct (tm_Begin (tm st.1) txn).
Qed.

Lemma Redo_fd rm l : fd (Redo rm l).1 = fd rm /\ txStack (Redo rm l).1 = txStack rm.
Proof.
  destruct l as [tt tn|id tn [] k o nv|id|id|ids]; simpl; try done.
  - by destruct (db_HandleCreateTable (d rm) tt tn).
  - destruct (db_HandleInsert (d rm) tn k nv) as [d1 [e|]]; [|done].
    by destruct (db_HandleUpdate d1 tn k nv).
  - destruct (db_HandleUpdate (d rm) tn k nv) as [d1 [e|]]; [|done].
    by destruct (db_HandleInsert d1 tn k nv).
  - by destruct (db_HandleDelete (d rm) tn k).
Qed.

Lemma redo_step_spec st l :
  (redo_step st l).2 = activate st.2 l /\
  fd (redo_step st l).1 = fd st.1 /\ txStack (redo_step st l).1 = txStack st.1.
Proof.
  destruct st as [rm ca]. destruct l as [tt tn|id tn a k o nv|id|id|ids];
    unfold redo_step; cbn [fst snd activate].
  - split; [done|]. apply Redo_fd.
  - split; [done|]. apply Redo_fd.
  - split; [done|]. unfold rm_tm_Begin. by destruct (tm_Begin (tm rm) id).
  - split; [done|]. unfold rm_tm_Commit. by destruct (tm_Commit (tm rm) id).
  - apply (redo_checkpoint_fold ids (rm, ca)).
Qed.

Lemma redo_loop_spec log : forall n ptr st,
  (redo_loop log n ptr st).2 = fold_left activate (take n (drop ptr log)) st.2 /\
  fd (redo_loop log n ptr st).1 = fd st.1 /\
  txStack (redo_loop log n ptr st).1 = txStack st.1.
Proof.
  induction n as [|n IH]; intros ptr st; simpl; [done|].
  destruct (log !! ptr) as [l|] eqn:El.
  - destruct (IH (S ptr) (redo_step st l)) as (H1 & H2 & H3).
    destruct (redo_step_spec st l) as (H4 & H5 & H6).
    rewrite H1, H2, H3, H4, H5, H6.
    rewrite (drop_S _ _ _ El). done.
  - rewrite drop_ge by (by apply lookup_ge_None). done.
Qed.

Lemma undo_loop_idle log : forall n rm,
  undo_loop log n (rm, ∅) = (rm, None).
Proof.
  induction n as [|n IH]; intros rm; simpl; [done|].
  destruct (log !! n) as [[tt tn|id tn a k o nv|id|id|ids]|]; apply IH.
Qed.

(** X21. Recovery of a log with no transaction in flight.  When every
    transaction that the records from the most recent checkpoint on start,
    edit or list as running is committed by a later record, [Recover]
    returns nil after the redo phase: it undoes nothing, and it writes
    nothing to the log file and to the record stacks. *)
Theorem Recover_nothing_in_flight rm :
  fold_left activate (drop (readLogs rm).1.2 (readLogs rm).1.1) ∅ = ∅ ->
  (Recover rm).2 = None /\
  fd (Recover rm).1 = fd rm /\ txStack (Recover rm).1 = txStack rm.
Proof.
  unfold Recover, readLogs. simpl. intros Hact.
  set (log := fd rm) in *. set (ptr := last_checkpoint log 0 0) in *.
  destruct (redo_loop_spec log (length log - ptr) ptr (rm, ∅)) as (H1 & H2 & H3).
  rewrite take_ge in H1 by (rewrite length_drop; lia). simpl in H1, H2, H3.
  rewrite Hact in H1.
  destruct (redo_loop log (length log - ptr) ptr (rm, ∅)) as [rm1 ca].
  simpl in *. subst ca. rewrite undo_loop_idle. done.
Qed.


End Manager.

Arguments mkRM {_ _}.
Arguments d {_ _}.
Arguments tm {_ _}.
Arguments txStack {_ _}.
Arguments fd {_ _}.
Arguments set_d {_ _}.
Arguments set_tm {_ _}.
Arguments set_txStack {_ _}.
Arguments writeToBuffer {_ _}.
Arguments push {_ _}.
Arguments Table {_ _}.
Arguments Edit {_ _}.
Arguments Start {_ _}.
Arguments Commit {_ _}.
Arguments Commit_elided {_ _}.
Arguments Checkpoint {_ _}.
Arguments Redo {_ _}.
Arguments Undo {_ _}.
Arguments rm_tm_Begin {_ _}.
Arguments rm_tm_Commit {_ _}.
Arguments readLogs {_ _}.
Arguments Recover {_ _}.
Arguments Rollback {_ _}.
Arguments run_edits {_ _}.

(** ** The scenarios, on a database modelled from the specification *)

(** Modelled from the spec: the Database collaborator, whose handlers are
    not in the sources at hand.  A database maps a table name to an index,
    and an index maps a key to its value.  An insert fails on a key that is
    present, an update and a delete fail on a key that is absent (the cases
    [Redo] falls back on). *)
Definition spec_db_HandleCreateTable (db : gmap string (gmap Z Z))
    (tblType tblName : string) : gmap string (gmap Z Z) * error :=
  match db !! tblName with
  | Some _ => (db, Some "table already exists"%string)
  | None => (<[tblName := ∅]> db, None)
  end.

(** Modelled from the spec: [db.HandleInsert], which fails on a key that
    is present. *)
Definition spec_db_HandleInsert (db : gmap string (gmap Z Z))
    (tblName : string) (key value : Z) : gmap string (gmap Z Z) * error :=
  match db !! tblName with
  | None => (db, Some "table not found"%string)
  | Some index =>
      match index !! key with
      | Some _ => (db, Some "key already exists"%string)
      | None => (<[tblName := <[key := value]> index]> db, None)
      end
  end.

(** Modelled from the spec: [db.HandleUpdate], which fails on a key that
    is absent. *)
Definition spec_db_HandleUpdate (db : gmap string (gmap Z Z))
    (tblName : string) (key value : Z) : gmap string (gmap Z Z) * error :=
  match db !! tblName with
  | None => (db, Some "table not found"%string)
  | Some index =>
      match index !! key with
      | None => (db, Some "key not found"%string)
      | Some _ => (<[tblName := <[key := value]> index]> db, None)
      end
  end.

(** Modelled from the spec: [db.HandleDelete], which fails on a key that
    is absent. *)
Definition spec_db_HandleDelete (db : gmap string (gmap Z Z))
    (tblName : string) (key : Z) : gmap string (gmap Z Z) * error :=
  match db !! tblName with
  | None => (db, Some "table not found"%string)
  | Some index =>
      match index !! key with
      | None => (db, Some "key not found"%string)
      | Some _ => (<[tblName := delete key index]> db, None)
      end
  end.

(** [Find] on a table of the database. *)
Definition db_Find (db : gmap string (gmap Z Z)) (tblName : string) (key : Z) : option Z :=
  db !! tblName ≫= (fun index => index !! key).

(** Modelled from the spec: the TransactionManager collaborator, as the set
    of the running transactions. *)
Definition spec_tm_Begin (t : gset N) (id : UUID) : gset N * error :=
  if decide (id ∈ t) then (t, Some "transaction already began"%string)
  else ({[id]} ∪ t, None).

(** Modelled from the spec: [tm.Commit] removes the transaction from the
    running ones. *)
Definition spec_tm_Commit (t : gset N) (id : UUID) : gset N * error :=
  if decide (id ∈ t) then (t ∖ {[id]}, None)
  else (t, Some "no transactions running"%string).

(** Modelled from the spec: the handlers of package recovery, the entry
    points "with recovery": they write the edit record ahead of the change
    of the database. *)
Definition spec_HandleInsert (rm : RecoveryManager (gmap string (gmap Z Z)) (gset N))
    (tblName : string) (key value : Z) (clientId : UUID)
    : RecoveryManager (gmap string (gmap Z Z)) (gset N) * error :=
  match db_Find (d rm) tblName key with
  | Some _ => (rm, Some "key already exists"%string)
  | None =>
      let rm1 := Edit rm clientId tblName INSERT_ACTION key 0 value in
      let '(d1, err) := spec_db_HandleInsert (d rm1) tblName key value in
      (set_d rm1 d1, err)
  end.

(** Modelled from the spec: [HandleUpdate] of package recovery logs the
    edit with the old value, then updates. *)
Definition spec_HandleUpdate (rm : RecoveryManager (gmap string (gmap Z Z)) (gset N))
    (tblName : string) (key value : Z) (clientId : UUID)
    : RecoveryManager (gmap string (gmap Z Z)) (gset N) * error :=
  match db_Find (d rm) tblName key with
  | None => (rm, Some "key not found"%string)
  | Some oldval =>
      let rm1 := Edit rm clientId tblName UPDATE_ACTION key oldval value in
      let '(d1, err) := spec_db_HandleUpdate (d rm1) tblName key value in
      (set_d rm1 d1, err)
  end.

(** Modelled from the spec: [HandleDelete] of package recovery logs the
    edit with the old value, then deletes. *)
Definition spec_HandleDelete (rm : RecoveryManager (gmap string (gmap Z Z)) (gset N))
    (tblName : string) (key : Z) (clientId : UUID)
    : RecoveryManager (gmap string (gmap Z Z)) (gset N) * error :=
  match db_Find (d rm) tblName key with
  | None => (rm, Some "key not found"%string)
  | Some oldval =>
      let rm1 := Edit rm clientId tblName DELETE_ACTION key oldval 0 in
      let '(d1, err) := spec_db_HandleDelete (d rm1) tblName key in
      (set_d rm1 d1, err)
  end.

(** [Recover] and [Rollback] on this database. *)
Definition spec_Recover :=
  Recover spec_db_HandleCreateTable spec_db_HandleInsert spec_db_HandleUpdate
    spec_db_HandleDelete spec_HandleInsert spec_HandleUpdate spec_HandleDelete
    spec_tm_Begin spec_tm_Commit.

Definition spec_Rollback :=
  Rollback spec_HandleInsert spec_HandleUpdate spec_HandleDelete spec_tm_Commit.

(** A manager that starts on database [db] with the log file [log]: the
    transaction stacks and the running transactions are in memory only, so
    they are empty after a crash. *)
Definition restart (db : gmap string (gmap Z Z)) (log : list Log)
    : RecoveryManager (gmap string (gmap Z Z)) (gset N) :=
  mkRM db ∅ ∅ log.

(** The log of scenario S5, for table [tbl] and the transactions [t1] and
    [t2]: the table is created, [t1] inserts (5,50) and commits, [t2]
    updates key 5 to 99 and does not commit. *)
Definition s5_log (tblType tbl : string) (t1 t2 : UUID) : list Log :=
  [ tableLog tblType tbl;
    startLog t1; editLog t1 tbl INSERT_ACTION 5 0 50; commitLog t1;
    startLog t2; editLog t2 tbl UPDATE_ACTION 5 50 99 ].

(** A transaction in flight: it started, then inserted (1,1) and (2,2) and
    updated key 1 to 9 in table "t". *)
Definition s6_manager : RecoveryManager (gmap string (gmap Z Z)) (gset N) :=
  let rm0 := mkRM {[ "t"%string := ∅ ]} {[ 7%N ]} ∅ [tableLog "hash" "t"] in
  let rm1 := Start rm0 7 in
  let rm2 := (spec_HandleInsert rm1 "t" 1 1 7).1 in
  let rm3 := (spec_HandleInsert rm2 "t" 2 2 7).1 in
  (spec_HandleUpdate rm3 "t" 1 9 7).1.

(** A live run that creates table "t", lets transaction 1 insert (5,50) and
    commit, and takes a checkpoint; [commit] is the commit function in use. *)
Definition checkpointed_run
    (commit : RecoveryManager (gmap string (gmap Z Z)) (gset N) -> UUID ->
              RecoveryManager (gmap string (gmap Z Z)) (gset N))
    : RecoveryManager (gmap string (gmap Z Z)) (gset N) :=
  let rm0 := Table (mkRM {[ "t"%string := ∅ ]} ∅ ∅ []) "hash" "t" in
  let rm1 := Start (rm_tm_Begin spec_tm_Begin rm0 1).1 1 in
  let rm2 := (spec_HandleInsert rm1 "t" 5 50 1).1 in
  let rm3 := (rm_tm_Commit spec_tm_Commit (commit rm2 1%N) 1%N).1 in
  Checkpoint rm3.

(** C5. Scenario S5: the log holds the creation of the table, transaction
    T1 with START, INSERT(5,50), COMMIT and transaction T2 with START,
    UPDATE(5,99) and no COMMIT.  [Recover] on a fresh database returns nil
    and leaves a database in which [Find(5)] is 50. *)
Theorem S5_redo_undo :
  let '(rm, err) := spec_Recover (restart ∅ (s5_log "hash" "t" 1 2)) in
  err = None /\ db_Find (d rm) "t" 5 = Some 50%Z.
Proof. vm_compute. split; reflexivity. Qed.

Lemma Rollback_replays_lifo_witness :
  exists log first rest,
    txStack s6_manager !! 7%N = Some log /\ log = first :: rest /\
    is_startLog first = true /\
    (spec_Rollback s6_manager 7).2 = None /\
    db_Find (d (spec_Rollback s6_manager 7).1) "t" 1 = None /\
    db_Find (d (spec_Rollback s6_manager 7).1) "t" 2 = None /\
    last (fd (spec_Rollback s6_manager 7).1) = Some (commitLog 7).
Proof.
  eexists _, _, _.
  split; [vm_compute; reflexivity|]. split; [reflexivity|].
  split; [reflexivity|].
  pose proof (Rollback_replays_lifo _ _ spec_HandleInsert spec_HandleUpdate
                spec_HandleDelete spec_tm_Commit s6_manager 7 _ _ _
                ltac:(vm_compute; reflexivity) eq_refl)
    as [_ Hstart].
  specialize (Hstart eq_refl).
  vm_compute in Hstart. destruct Hstart as (Hroll & Hfd & Hd).
  vm_compute. repeat split; reflexivity.
Defined.

Lemma Rollback_no_entry_witness :
  txStack s6_manager !! 8%N = None /\
  spec_Rollback s6_manager 8 = (s6_manager, None).
Proof.
  split; [vm_compute; reflexivity|].
  apply (Rollback_no_entry _ _ spec_HandleInsert spec_HandleUpdate
           spec_HandleDelete spec_tm_Commit s6_manager 8).
  vm_compute; reflexivity.
Defined.

(** C9 (the failing run). A transaction inserts (5,50) and commits, a
    checkpoint is taken and the system crashes.  With [Commit] as written
    the checkpoint lists the committed transaction as running and recovery
    undoes its insert; with the append left out the insert survives. *)
Theorem Commit_append_changes_recovery :
  let live := checkpointed_run Commit in
  let elided := checkpointed_run Commit_elided in
  last (fd live) = Some (checkpointLog [1%N]) /\
  last (fd elided) = Some (checkpointLog []) /\
  db_Find (d (spec_Recover (restart (d live) (fd live))).1) "t" 5 = None /\
  db_Find (d (spec_Recover (restart (d elided) (fd elided))).1) "t" 5 = Some 50%Z.
Proof. vm_compute. repeat split; reflexivity. Qed.

(** ** The further properties of the manager, on the database modelled
    from the specification *)

Lemma Start_Edit_Rollback_witness :
  let rm := mkRM ({[ "t"%string := ∅ ]} : gmap string (gmap Z Z))
                 ({[ 7%N ]} : gset N) ∅ [tableLog "hash" "t"] in
  let es := [mkEdit "t" DELETE_ACTION 1 11 0] in
  let rm' := run_edits (Start rm 7) 7 es in
  txStack rm !! 7%N = None /\
  txStack rm' !! 7%N = Some [startLog 7; editLog 7 "t" DELETE_ACTION 1 11 0] /\
  fd rm' = [tableLog "hash" "t"; startLog 7; editLog 7 "t" DELETE_ACTION 1 11 0].
Proof.
  intros rm es rm'.
  assert (Hnone : txStack rm !! 7%N = None) by (vm_compute; reflexivity).
  destruct (Start_Edit_Rollback _ _ spec_HandleInsert spec_HandleUpdate
              spec_HandleDelete spec_tm_Commit rm 7 es Hnone)
    as (Hstack & Hfd & _).
  split; [exact Hnone|]. split; [exact Hstack|exact Hfd].
Defined.

Lemma Recover_nothing_in_flight_witness :
  let rm := restart ∅ [tableLog "hash" "t"; startLog 1;
                       editLog 1 "t" INSERT_ACTION 5 0 50; commitLog 1] in
  fold_left activate (drop (readLogs rm).1.2 (readLogs rm).1.1) ∅ = ∅ /\
  (spec_Recover rm).2 = None /\
  fd (spec_Recover rm).1 = fd rm.
Proof.
  intros rm.
  assert (Hact : fold_left activate (drop (readLogs rm).1.2 (readLogs rm).1.1) ∅ = ∅)
    by (vm_compute; reflexivity).
  destruct (Recover_nothing_in_flight _ _ spec_db_HandleCreateTable
              spec_db_HandleInsert spec_db_HandleUpdate spec_db_HandleDelete
              spec_HandleInsert spec_HandleUpdate spec_HandleDelete
              spec_tm_Begin spec_tm_Commit rm Hact) as (Herr & Hfd & _).
  split; [exact Hact|]. split; [exact Herr|exact Hfd].
Defined.


End Recovery.

(* ===================================================================== *)
(** * The buffer pool (package pager) *)
(* ===================================================================== *)

Module Pager.

Definition NOPAGE : Z := -1.

(** Page size - defaults to 4kb. *)
Definition PAGESIZE : Z := 4096.

(** A [Page], without its payload: the claims on the pool are about the
    residency lists and the pin counts. *)
Record Page := mkPage { pagenum : Z; pinCount : Z; dirty : bool }.

(** The pool allocates its [Page] structs once; a [*Page] is the index of
    the struct among them.  The three residency lists of package list are
    the sequences of their payloads from head to tail: the pager only uses
    [PeekHead], [PushTail] and [PopSelf] on them. *)
Inductive ListId := freeList_id | unpinnedList_id | pinnedList_id.

#[global] Instance ListId_eq_dec : EqDecision ListId.
Proof. solve_decision. Defined.

(** A [*list.Link] of the page table: its list ([GetList]) and its payload
    ([GetKey]). *)
Record Link := mkLink { link_list : ListId; link_key : nat }.

Record Pager := mkPager {
  file : bool;                 (* HasFile: is the pager backed by disk? *)
  maxPageNum : Z;
  freeList : list nat;
  unpinnedList : list nat;
  pinnedList : list nat;
  pageTable : gmap Z Link;
  frames : list Page           (* the Page structs, by index *)
}.

(** [list.PeekHead], [list.PushTail] and [link.PopSelf]. *)
Definition PeekHead (l : list nat) : option nat := head l.
Definition PushTail (l : list nat) (page : nat) : list nat := l ++ [page].
Fixpoint PopSelf (page : nat) (l : list nat) : list nat :=
  match l with
  | [] => []
  | x :: l' => if decide (x = page) then l' else x :: PopSelf page l'
  end.

(** Reading and writing the fields of page struct [page]. *)
Definition page_at (frames : list Page) (page : nat) : Page :=
  default (mkPage NOPAGE 0 false) (frames !! page).

Definition set_frame (frames : list Page) (page : nat) (f : Page -> Page) : list Page :=
  match frames !! page with
  | Some pg => <[page := f pg]> frames
  | None => frames
  end.

Arguments page_at : simpl never.
Arguments set_frame : simpl never.

Definition page_of (pager : Pager) (page : nat) : Page :=
  page_at (frames pager) page.

Definition set_page (pager : Pager) (page : nat) (f : Page -> Page) : Pager :=
  mkPager (file pager) (maxPageNum pager) (freeList pager) (unpinnedList pager)
    (pinnedList pager) (pageTable pager) (set_frame (frames pager) page f).

Section Pool.

(** [config.NumPages], the capacity of the pool. *)
Variable NUMPAGES : nat.

(** [NewPager]: no file yet, all the page structs on the free list. *)
Definition NewPager : Pager :=
  mkPager false 0 (seq 0 NUMPAGES) [] [] ∅
    (replicate NUMPAGES (mkPage NOPAGE 0 false)).

(** [Open] on a file of [len] bytes (the errors of the file system are not
    modelled): a length that is not a multiple of the page size is
    rejected, else the file holds [len / PAGESIZE] pages. *)
Definition Open (pager : Pager) (len : Z) : Pager * error :=
  let opened (n : Z) :=
    mkPager true n (freeList pager) (unpinnedList pager) (pinnedList pager)
      (pageTable pager) (frames pager) in
  if negb (Z.rem len PAGESIZE =? 0)%Z
  then (opened (maxPageNum pager), Some "open: DB file has been corrupted"%string)
  else (opened (Z.quot len PAGESIZE), None).

(** The pagers that the calls start from: a new pager, in memory or opened
    on a file. *)
Definition started (pager : Pager) : Prop :=
  pager = NewPager \/ exists len, pager = (Open NewPager len).1.

Definition HasFile (pager : Pager) : bool := file pager.

(** [FlushPage]: the write to the file is not modelled, the dirty flag is. *)
Definition FlushPage (pager : Pager) (page : nat) : Pager :=
  if dirty (page_of pager page) && HasFile pager
  then set_page pager page (fun pg => mkPage (pagenum pg) (pinCount pg) false)
  else pager.

(** [ReadPageFromDisk]: on a pager without a file, [Seek] on the nil file
    returns an error; reads of an open file are taken to succeed. *)
Definition ReadPageFromDisk (pager : Pager) (page : nat) (pagenum : Z) : error :=
  if HasFile pager then None else Some "invalid argument"%string.

Definition NewPage (pager : Pager) (pagenum : Z) : Pager * (nat + string) :=
  let page_in_freelist := PeekHead (freeList pager) in
  let page_in_unpinnedlist := PeekHead (unpinnedList pager) in
  let bind (pager1 : Pager) (page : nat) :=
    (set_page pager1 page (fun _ => mkPage pagenum 1 false), inl page) in
  match page_in_freelist with
  | Some page =>
      bind (mkPager (file pager) (maxPageNum pager) (PopSelf page (freeList pager))
              (unpinnedList pager) (pinnedList pager) (pageTable pager) (frames pager))
           page
  | None =>
      if negb (HasFile pager) then (pager, inr "pager is not backed by disk"%string)
      else
        match page_in_unpinnedlist with
        | Some page =>
            let pager1 :=
              mkPager (file pager) (maxPageNum pager) (freeList pager)
                (PopSelf page (unpinnedList pager)) (pinnedList pager)
                (pageTable pager) (frames pager) in
            let pager2 := FlushPage pager1 page in
            let pager3 :=
              mkPager (file pager2) (maxPageNum pager2) (freeList pager2)
                (unpinnedList pager2) (pinnedList pager2)
                (delete (Pager.pagenum (page_of pager2 page)) (pageTable pager2))
                (frames pager2) in
            bind pager3 page
        | None => (pager, inr "no page in either list"%string)
        end
  end.

(** Modelled from the spec: [page.Get], of page.go which is not in the
    sources at hand, bumps the pin count. *)
Definition page_Get (pager : Pager) (page : nat) : Pager :=
  set_page pager page (fun pg => mkPage (pagenum pg) (pinCount pg + 1) (dirty pg)).

Definition GetPage (pager : Pager) (pagenum : Z) : Pager * (nat + string) :=
  if (pagenum <? 0)%Z then (pager, inr "invalid page number"%string)
  else
    match pageTable pager !! pagenum with
    | Some node =>
        let page := link_key node in
        let pager1 :=
          if decide (link_list node = unpinnedList_id) then
            mkPager (file pager) (maxPageNum pager) (freeList pager)
              (PopSelf page (unpinnedList pager))
              (PushTail (pinnedList pager) page)
              (<[pagenum := mkLink pinnedList_id page]> (pageTable pager))
              (frames pager)
          else pager in
        (page_Get pager1 page, inl page)
    | None =>
        match NewPage pager pagenum with
        | (pager1, inr err) => (pager1, inr err)
        | (pager1, inl page) =>
            let push (pager2 : Pager) :=
              (mkPager (file pager2) (maxPageNum pager2) (freeList pager2)
                 (unpinnedList pager2) (PushTail (pinnedList pager2) page)
                 (<[pagenum := mkLink pinnedList_id page]> (pageTable pager2))
                 (frames pager2), inl page) in
            if (pagenum <? maxPageNum pager1)%Z then
              match ReadPageFromDisk pager1 page pagenum with
              | Some err => (pager1, inr err)
              | None => push pager1
              end
            else
              let pager2 :=
                set_page pager1 page (fun pg => mkPage (Pager.pagenum pg) (pinCount pg) true) in
              push (mkPager (file pager2) (maxPageNum pager2 + 1) (freeList pager2)
                      (unpinnedList pager2) (pinnedList pager2) (pageTable pager2)
                      (frames pager2))
        end
    end.

(** Modelled from the spec: [page.Put], of page.go which is not in the
    sources at hand: "decrement pin count; if it reaches zero, splice to
    unpinned tail", the page table following the page to its new node. *)
Definition Put (pager : Pager) (page : nat) : Pager :=
  let pager1 :=
    set_page pager page (fun pg => mkPage (pagenum pg) (pinCount pg - 1) (dirty pg)) in
  if (pinCount (page_of pager1 page) =? 0)%Z then
    mkPager (file pager1) (maxPageNum pager1) (freeList pager1)
      (PushTail (unpinnedList pager1) page)
      (PopSelf page (pinnedList pager1))
      (<[pagenum (page_of pager1 page) := mkLink unpinnedList_id page]> (pageTable pager1))
      (frames pager1)
  else pager1.

(** The calls on a pager: [GetPage(pagenum)], and [Put] on a page. *)
Inductive call := CallGetPage (pagenum : Z) | CallPut (page : nat).

Definition run_call (pager : Pager) (c : call) : Pager :=
  match c with
  | CallGetPage pagenum => (GetPage pager pagenum).1
  | CallPut page => Put pager page
  end.

Definition run_calls (pager : Pager) (cs : list call) : Pager :=
  fold_left run_call cs pager.

(** A call is in order when a [Put] releases a page that is pinned, and a
    [GetPage] does not fail on the read of the page from disk. *)
Definition in_order (pager : Pager) (c : call) : Prop :=
  match c with
  | CallGetPage pagenum => (GetPage pager pagenum).2 <> inr "invalid argument"%string
  | CallPut page => page ∈ pinnedList pager
  end.

Fixpoint all_in_order (pager : Pager) (cs : list call) : Prop :=
  match cs with
  | [] => True
  | c :: cs' => in_order pager c /\ all_in_order (run_call pager c) cs'
  end.

(** The pin counts of the resident pages, summed. *)
Definition resident (pager : Pager) : list nat :=
  pinnedList pager ++ unpinnedList pager.

Definition sum_pinCounts (pager : Pager) : Z :=
  foldr (fun page acc => (pinCount (page_of pager page) + acc)%Z) 0%Z (resident pager).

Definition total_frames (pager : Pager) : nat :=
  length (freeList pager) + length (unpinnedList pager) + length (pinnedList pager).

(** Scenario S1 on a pool of three pages backed by a file: pages 0, 1 and 2
    are read and released, then page 3 is read. *)
Definition s1_calls : list call :=
  [CallGetPage 0; CallPut 0; CallGetPage 1; CallPut 1;
   CallGetPage 2; CallPut 2; CallGetPage 3].


Definition all_frames (pager : Pager) : list nat :=
  freeList pager ++ unpinnedList pager ++ pinnedList pager.

(** The invariant of the pool: the three lists share no page and hold the
    [NUMPAGES] pages; a pinned page has a positive pin count, an unpinned or
    free page has pin count zero; the page table maps the number of every
    resident page to its node, and nothing else. *)
Definition Inv (pager : Pager) : Prop :=
  NoDup (all_frames pager) /\
  length (all_frames pager) = NUMPAGES /\
  (forall page, page ∈ all_frames pager -> (page < length (frames pager))%nat) /\
  (forall page, page ∈ pinnedList pager ->
     (1 <= pinCount (page_of pager page))%Z /\
     pageTable pager !! pagenum (page_of pager page) = Some (mkLink pinnedList_id page)) /\
  (forall page, page ∈ unpinnedList pager ->
     pinCount (page_of pager page) = 0%Z /\
     pageTable pager !! pagenum (page_of pager page) = Some (mkLink unpinnedList_id page)) /\
  (forall page, page ∈ freeList pager -> pinCount (page_of pager page) = 0%Z) /\
  (forall n node, pageTable pager !! n = Some node ->
     pagenum (page_of pager (link_key node)) = n /\
     (link_list node = pinnedList_id /\ link_key node ∈ pinnedList pager \/
      link_list node = unpinnedList_id /\ link_key node ∈ unpinnedList pager)).

(** A pager in the middle of [GetPage]: struct [page] has left the lists
    and is bound to number [n], which the page table does not hold yet. *)
Definition Unbound (q : Pager) (page : nat) (n : Z) : Prop :=
  NoDup (page :: all_frames q) /\
  S (length (all_frames q)) = NUMPAGES /\
  (forall x, x ∈ page :: all_frames q -> (x < length (frames q))%nat) /\
  (forall x, x ∈ pinnedList q ->
     (1 <= pinCount (page_of q x))%Z /\
     pageTable q !! pagenum (page_of q x) = Some (mkLink pinnedList_id x)) /\
  (forall x, x ∈ unpinnedList q ->
     pinCount (page_of q x) = 0%Z /\
     pageTable q !! pagenum (page_of q x) = Some (mkLink unpinnedList_id x)) /\
  (forall x, x ∈ freeList q -> pinCount (page_of q x) = 0%Z) /\
  (forall m node, pageTable q !! m = Some node ->
     pagenum (page_of q (link_key node)) = m /\
     (link_list node = pinnedList_id /\ link_key node ∈ pinnedList q \/
      link_list node = unpinnedList_id /\ link_key node ∈ unpinnedList q)) /\
  pageTable q !! n = None /\
  pagenum (page_of q page) = n /\ pinCount (page_of q page) = 1%Z.


(** ** Facts on the lists and the page structs *)

Lemma elem_of_PopSelf page l x :
  NoDup l -> x ∈ PopSelf page l <-> x ∈ l /\ x <> page.
Proof.
  induction 1 as [|y l Hy Hl IH]; simpl.
  - split; [intros []%elem_of_nil | intros [[]%elem_of_nil _]].
  - destruct (decide (y = page)) as [->|Hne].
    + rewrite elem_of_cons. split.
      * intros Hx. split; [by right|]. intros ->. done.
      * intros [[->|Hx] Hxp]; done.
    + rewrite !elem_of_cons, IH. split.
      * intros [->|[Hx Hxp]]; split; auto.
      * intros [[->|Hx] Hxp]; auto.
Qed.

Lemma PopSelf_Permutation page l :
  page ∈ l -> PopSelf page l ++ [page] ≡ₚ l.
Proof.
  induction l as [|x l IH]; intros Hin; [by apply elem_of_nil in Hin|].
  simpl. destruct (decide (x = page)) as [->|Hne].
  - by rewrite Permutation_app_comm.
  - apply elem_of_cons in Hin as [->|Hin]; [done|].
    simpl. by rewrite IH.
Qed.

Lemma head_elem_of (l : list nat) x : head l = Some x -> x ∈ l.
Proof. destruct l; simpl; [done|]. intros [= ->]. apply list_elem_of_here. Qed.

Lemma page_at_set_frame_eq fr page f :
  (page < length fr)%nat ->
  page_at (set_frame fr page f) page = f (page_at fr page).
Proof.
  intros Hlt. unfold page_at, set_frame.
  destruct (lookup_lt_is_Some_2 _ _ Hlt) as [pg Hpg]. rewrite Hpg.
  by rewrite list_lookup_insert_eq.
Qed.

Lemma page_at_set_frame_ne fr page page' f :
  page <> page' -> page_at (set_frame fr page f) page' = page_at fr page'.
Proof.
  intros Hne. unfold page_at, set_frame.
  destruct (fr !! page); [|done].
  by rewrite list_lookup_insert_ne.
Qed.

Lemma length_set_frame fr page f : length (set_frame fr page f) = length fr.
Proof.
  unfold set_frame. destruct (fr !! page); [|done]. apply length_insert.
Qed.

Lemma Inv_Put pager page :
  Inv pager -> page ∈ pinnedList pager -> Inv (Put pager page).
Proof.
  unfold Inv, page_of.
  intros (Hnd & Hlen & Hbound & Hpin & Hunp & Hfree & Htab) Hin.
  assert (Hlt : (page < length (frames pager))%nat).
  { apply Hbound. unfold all_frames. rewrite !elem_of_app. auto. }
  destruct (Hpin _ Hin) as [Hcount Hlink].
  assert (Hnf : (page ∉ freeList pager) /\ (page ∉ unpinnedList pager)).
  { unfold all_frames in Hnd. apply NoDup_app in Hnd as (_ & Hfu & Hnd).
    apply NoDup_app in Hnd as (_ & Hup & _).
    split; intros Hx.
    - apply (Hfu _ Hx). rewrite elem_of_app. auto.
    - by apply (Hup _ Hx). }
  destruct Hnf as [Hnfree Hnunp].
  assert (Hndp : NoDup (pinnedList pager)).
  { unfold all_frames in Hnd. apply NoDup_app in Hnd as (_ & _ & Hnd).
    by apply NoDup_app in Hnd as (_ & _ & Hnd). }
  unfold Put, set_page, page_of; simpl.
  set (dec := fun pg => mkPage (pagenum pg) (pinCount pg - 1) (dirty pg)).
  rewrite (page_at_set_frame_eq _ _ _ Hlt). unfold dec at 1 2; simpl pinCount; simpl pagenum.
  destruct ((pinCount (page_at (frames pager) page) - 1) =? 0)%Z eqn:Ez.
  - apply Z.eqb_eq in Ez.
    unfold all_frames; simpl.
    assert (Hperm : freeList pager ++ PushTail (unpinnedList pager) page ++ PopSelf page (pinnedList pager)
                    ≡ₚ all_frames pager).
    { unfold all_frames, PushTail. rewrite <- (PopSelf_Permutation page (pinnedList pager)) at 2 by done.
      apply Permutation_app_head. rewrite <- app_assoc. apply Permutation_app_head.
      apply Permutation_app_comm. }
    split; [by rewrite Hperm|]. split; [by rewrite Hperm|].
    split; [intros x; rewrite Hperm, length_set_frame; apply Hbound|].
    split; [|split; [|split]].
    + intros x [Hx Hne]%elem_of_PopSelf; [|done].
      rewrite page_at_set_frame_ne by done.
      destruct (Hpin _ Hx) as [Hc Hl]. split; [done|].
      rewrite lookup_insert_ne; [done|].
      intros Heq. rewrite <- Heq, Hlink in Hl. congruence.
    + unfold PushTail. intros x [Hx|Hx]%elem_of_app; [|apply list_elem_of_singleton in Hx as ->].
      * assert (x <> page) by (intros ->; done).
        rewrite page_at_set_frame_ne by done.
        destruct (Hunp _ Hx) as [Hc Hl]. split; [done|].
        rewrite lookup_insert_ne; [done|].
        intros Heq. rewrite <- Heq, Hlink in Hl. congruence.
      * rewrite page_at_set_frame_eq by done. unfold dec; simpl.
        split; [done|]. apply lookup_insert_eq.
    + intros x Hx. assert (x <> page) by (intros ->; done).
      rewrite page_at_set_frame_ne by done. by apply Hfree.
    + intros n node. destruct (decide (pagenum (page_of pager page) = n)) as [<-|Hne].
      * rewrite lookup_insert_eq. intros [= <-]; simpl.
        rewrite page_at_set_frame_eq by done. split; [done|]. right. split; [done|].
        unfold PushTail. rewrite elem_of_app, list_elem_of_singleton. auto.
      * rewrite lookup_insert_ne by done. intros Hn.
        destruct (Htab _ _ Hn) as [Hpn Hwhere].
        assert (link_key node <> page).
        { intros Heq. rewrite Heq in Hpn. done. }
        rewrite page_at_set_frame_ne by done. split; [done|].
        destruct Hwhere as [[? ?]|[? ?]]; [left|right]; split; try done.
        -- apply elem_of_PopSelf; done.
        -- unfold PushTail. rewrite elem_of_app. auto.
  - apply Z.eqb_neq in Ez.
    unfold all_frames; simpl.
    split; [done|]. split; [done|]. split; [by setoid_rewrite length_set_frame|].
    split; [|split; [|split]].
    + intros x Hx. destruct (decide (x = page)) as [->|Hne].
      * rewrite page_at_set_frame_eq by done. unfold dec; simpl. split; [lia|done].
      * rewrite page_at_set_frame_ne by done. by apply Hpin.
    + intros x Hx. assert (x <> page) by (intros ->; done).
      rewrite page_at_set_frame_ne by done. by apply Hunp.
    + intros x Hx. assert (x <> page) by (intros ->; done).
      rewrite page_at_set_frame_ne by done. by apply Hfree.
    + intros n node Hn. destruct (Htab _ _ Hn) as [Hpn Hwhere].
      destruct (decide (link_key node = page)) as [Heq|Hne].
      * rewrite Heq in *. rewrite page_at_set_frame_eq by done. unfold dec; simpl. auto.
      * rewrite page_at_set_frame_ne by done. auto.
Qed.

Lemma Inv_lists pager :
  Inv pager ->
  NoDup (freeList pager) /\ NoDup (unpinnedList pager) /\ NoDup (pinnedList pager) /\
  (forall x, x ∈ freeList pager -> (x ∉ unpinnedList pager) /\ (x ∉ pinnedList pager)) /\
  (forall x, x ∈ unpinnedList pager -> (x ∉ pinnedList pager)).
Proof.
  intros (Hnd & _). unfold all_frames in Hnd.
  apply NoDup_app in Hnd as (Hf & Hfu & Hnd).
  apply NoDup_app in Hnd as (Hu & Hup & Hp).
  split; [done|]. split; [done|]. split; [done|]. split.
  - intros x Hx. split; intros Hx'; apply (Hfu _ Hx); rewrite elem_of_app; auto.
  - intros x Hx. by apply Hup.
Qed.

Lemma NewPage_error pager n q e : NewPage pager n = (q, inr e) -> q = pager.
Proof.
  unfold NewPage.
  destruct (PeekHead (freeList pager)); [intros [= <-]; done|].
  destruct (negb (HasFile pager)); [by intros [= <-]|].
  destruct (PeekHead (unpinnedList pager)); intros [= <-]; done.
Qed.

Lemma page_at_FlushPage pager page x :
  pagenum (page_of (FlushPage pager page) x) = pagenum (page_of pager x) /\
  pinCount (page_of (FlushPage pager page) x) = pinCount (page_of pager x).
Proof.
  unfold FlushPage, page_of.
  destruct (dirty (page_at (frames pager) page) && HasFile pager); [|done].
  unfold set_page; simpl.
  destruct (decide (page = x)) as [->|Hne].
  - destruct (decide (x < length (frames pager))%nat) as [Hlt|Hge].
    + by rewrite page_at_set_frame_eq.
    + unfold set_frame. rewrite (lookup_ge_None_2 (frames pager) x) by lia. done.
  - by rewrite page_at_set_frame_ne.
Qed.

Lemma FlushPage_fields pager page :
  freeList (FlushPage pager page) = freeList pager /\
  unpinnedList (FlushPage pager page) = unpinnedList pager /\
  pinnedList (FlushPage pager page) = pinnedList pager /\
  pageTable (FlushPage pager page) = pageTable pager /\
  length (frames (FlushPage pager page)) = length (frames pager).
Proof.
  unfold FlushPage.
  destruct (dirty (page_of pager page) && HasFile pager); [|done].
  unfold set_page; simpl. by rewrite length_set_frame.
Qed.

Lemma PopSelf_cons_Permutation page l (rest : list nat) :
  page ∈ l -> page :: PopSelf page l ++ rest ≡ₚ l ++ rest.
Proof.
  intros Hin. rewrite <- (PopSelf_Permutation page l) at 2 by done.
  rewrite <- app_assoc. simpl. by rewrite Permutation_middle.
Qed.

Lemma NewPage_Unbound pager n q page :
  Inv pager -> pageTable pager !! n = None ->
  NewPage pager n = (q, inl page) -> Unbound q page n.
Proof.
  intros HInv Hn.
  destruct (Inv_lists _ HInv) as (Hndf & Hndu & Hndp & Hfdis & Hudis).
  destruct HInv as (Hnd & Hlen & Hbound & Hpin & Hunp & Hfree & Htab).
  unfold page_of in *.
  unfold NewPage.
  destruct (PeekHead (freeList pager)) as [f|] eqn:Ef.
  - intros [= <- <-]. apply head_elem_of in Ef.
    assert (Hperm : f :: PopSelf f (freeList pager) ++ unpinnedList pager ++ pinnedList pager
                    ≡ₚ all_frames pager) by (by apply PopSelf_cons_Permutation).
    assert (Hlt : (f < length (frames pager))%nat).
    { apply Hbound. unfold all_frames. rewrite elem_of_app. auto. }
    destruct (Hfdis _ Ef) as [Hfu Hfp].
    unfold Unbound, all_frames, page_of, set_page; simpl.
    split; [by rewrite Hperm|].
    split; [by rewrite <- Hlen, <- Hperm|].
    split; [intros x; rewrite Hperm, length_set_frame; apply Hbound|].
    split; [|split; [|split; [|split]]].
    + intros x Hx. assert (f <> x) by (intros ->; done).
      rewrite page_at_set_frame_ne by done. by apply Hpin.
    + intros x Hx. assert (f <> x) by (intros ->; done).
      rewrite page_at_set_frame_ne by done. by apply Hunp.
    + intros x [Hx Hne]%elem_of_PopSelf; [|done].
      rewrite page_at_set_frame_ne by done. by apply Hfree.
    + intros m node Hm. destruct (Htab _ _ Hm) as [Hpn Hwhere].
      assert (f <> link_key node).
      { intros Heq. rewrite <- Heq in Hwhere. destruct Hwhere as [[_ ?]|[_ ?]]; done. }
      rewrite page_at_set_frame_ne by done. done.
    + rewrite page_at_set_frame_eq by done. done.
  - destruct (negb (HasFile pager)); [intros [=]|].
    destruct (PeekHead (unpinnedList pager)) as [f|] eqn:Eu; [|intros [=]].
    intros [= <- <-]. apply head_elem_of in Eu.
    set (q0 := mkPager (file pager) (maxPageNum pager) (freeList pager)
                 (PopSelf f (unpinnedList pager)) (pinnedList pager)
                 (pageTable pager) (frames pager)).
    destruct (FlushPage_fields q0 f) as (Ef1 & Ef2 & Ef3 & Ef4 & Ef5).
    assert (Hpa : forall x,
      pagenum (page_at (frames (FlushPage q0 f)) x) = pagenum (page_at (frames pager) x) /\
      pinCount (page_at (frames (FlushPage q0 f)) x) = pinCount (page_at (frames pager) x)).
    { intros x. apply (page_at_FlushPage q0 f x). }
    assert (Hperm : f :: freeList pager ++ PopSelf f (unpinnedList pager) ++ pinnedList pager
                    ≡ₚ all_frames pager).
    { unfold all_frames. rewrite Permutation_middle.
      apply Permutation_app_head. by apply PopSelf_cons_Permutation. }
    assert (Hlt : (f < length (frames pager))%nat).
    { apply Hbound. unfold all_frames. rewrite !elem_of_app. auto. }
    destruct (Hunp _ Eu) as [Hcf Hlf].
    unfold Unbound, all_frames, page_of, set_page; simpl.
    rewrite Ef1, Ef2, Ef3, Ef4. simpl.
    destruct (Hpa f) as [Hpf _]. rewrite Hpf.
    split; [by rewrite Hperm|].
    split; [by rewrite <- Hlen, <- Hperm|].
    split; [intros x; rewrite Hperm, length_set_frame, Ef5; apply Hbound|].
    assert (Hother : forall x l, x <> f ->
      pageTable pager !! pagenum (page_at (frames pager) x) = Some (mkLink l x) ->
      delete (pagenum (page_at (frames pager) f)) (pageTable pager)
        !! pagenum (page_at (frames pager) x) = Some (mkLink l x)).
    { intros x l Hne Hl. rewrite lookup_delete_ne; [done|].
      intros Heq. rewrite <- Heq, Hlf in Hl. congruence. }
    split; [|split; [|split; [|split; [|split]]]].
    + intros x Hx. assert (f <> x) by (intros ->; by apply (Hudis _ Eu)).
      rewrite page_at_set_frame_ne by done.
      destruct (Hpa x) as [-> ->]. destruct (Hpin _ Hx). split; [done|].
      apply Hother; done.
    + intros x [Hx Hne]%elem_of_PopSelf; [|done].
      rewrite page_at_set_frame_ne by done.
      destruct (Hpa x) as [-> ->]. destruct (Hunp _ Hx). split; [done|].
      apply Hother; done.
    + intros x Hx. assert (f <> x) by (intros ->; by destruct (Hfdis _ Hx)).
      rewrite page_at_set_frame_ne by done.
      destruct (Hpa x) as [_ ->]. by apply Hfree.
    + intros m node Hm.
      destruct (decide (pagenum (page_at (frames pager) f) = m)) as [<-|Hne];
        [by rewrite lookup_delete_eq in Hm|].
      rewrite lookup_delete_ne in Hm by done.
      destruct (Htab _ _ Hm) as [Hpn Hwhere].
      assert (f <> link_key node) by (intros Heq; rewrite <- Heq in Hpn; done).
      rewrite page_at_set_frame_ne by done.
      destruct (Hpa (link_key node)) as [-> _]. split; [done|].
      destruct Hwhere as [[? ?]|[? ?]]; [by left|right].
      split; [done|]. by apply elem_of_PopSelf.
    + destruct (decide (pagenum (page_at (frames pager) f) = n)) as [<-|Hne];
        [by rewrite lookup_delete_eq|by rewrite lookup_delete_ne].
    + rewrite page_at_set_frame_eq by (by rewrite Ef5). done.
Qed.

Lemma push_Inv q page n fl mx fr' :
  Unbound q page n ->
  length fr' = length (frames q) ->
  (forall x, pagenum (page_at fr' x) = pagenum (page_at (frames q) x) /\
             pinCount (page_at fr' x) = pinCount (page_at (frames q) x)) ->
  Inv (mkPager fl mx (freeList q) (unpinnedList q) (PushTail (pinnedList q) page)
         (<[n := mkLink pinnedList_id page]> (pageTable q)) fr').
Proof.
  unfold Unbound, page_of.
  intros (Hnd & Hlen & Hbound & Hpin & Hunp & Hfree & Htab & Hn & Hpn & Hpc) Hfr Hsame.
  assert (Hperm : freeList q ++ unpinnedList q ++ PushTail (pinnedList q) page
                  ≡ₚ page :: all_frames q).
  { unfold all_frames, PushTail. rewrite !app_assoc.
    by rewrite <- Permutation_cons_append. }
  assert (Hnotin : page ∉ all_frames q) by (by apply NoDup_cons_1_1).
  unfold all_frames in Hnotin. rewrite !elem_of_app in Hnotin.
  unfold Inv, all_frames, page_of; simpl.
  split; [by rewrite Hperm|]. split; [by rewrite Hperm|].
  split; [intros x; rewrite Hperm, Hfr; apply Hbound|].
  split; [|split; [|split]].
  - unfold PushTail. intros x [Hx|Hx]%elem_of_app.
    + destruct (Hsame x) as [-> ->]. destruct (Hpin _ Hx) as [Hc Hl].
      split; [done|]. rewrite lookup_insert_ne; [done|]. intros Heq.
      rewrite <- Heq, Hn in Hl. done.
    + apply list_elem_of_singleton in Hx as ->.
      destruct (Hsame page) as [-> ->]. rewrite Hpn, Hpc.
      split; [lia|]. apply lookup_insert_eq.
  - intros x Hx. destruct (Hsame x) as [-> ->]. destruct (Hunp _ Hx) as [Hc Hl].
    split; [done|]. rewrite lookup_insert_ne; [done|]. intros Heq.
    rewrite <- Heq, Hn in Hl. done.
  - intros x Hx. destruct (Hsame x) as [_ ->]. by apply Hfree.
  - intros m node. destruct (decide (n = m)) as [<-|Hne].
    + rewrite lookup_insert_eq. intros [= <-]; simpl.
      destruct (Hsame page) as [-> _]. split; [done|]. left. split; [done|].
      unfold PushTail. rewrite elem_of_app, list_elem_of_singleton. auto.
    + rewrite lookup_insert_ne by done. intros Hm.
      destruct (Htab _ _ Hm) as [Hpm Hwhere].
      destruct (Hsame (link_key node)) as [-> _]. split; [done|].
      destruct Hwhere as [[? ?]|[? ?]]; [left|right]; split; try done.
      unfold PushTail. rewrite elem_of_app. auto.
Qed.

Lemma Inv_GetPage pager n :
  Inv pager ->
  (GetPage pager n).2 <> inr "invalid argument"%string ->
  Inv (GetPage pager n).1.
Proof.
  intros HInv. unfold GetPage.
  destruct (n <? 0)%Z; [done|].
  destruct (pageTable pager !! n) as [node|] eqn:En.
  - intros _. simpl.
    destruct (Inv_lists _ HInv) as (Hndf & Hndu & Hndp & Hfdis & Hudis).
    destruct HInv as (Hnd & Hlen & Hbound & Hpin & Hunp & Hfree & Htab).
    unfold page_of in *.
    destruct (Htab _ _ En) as [Hpn Hwhere].
    set (page := link_key node) in *.
    set (inc := fun pg => mkPage (pagenum pg) (pinCount pg + 1) (dirty pg)).
    destruct (decide (link_list node = unpinnedList_id)) as [Hu|Hu].
    + destruct Hwhere as [[Hl _]|[_ Hin]]; [congruence|].
      assert (Hlt : (page < length (frames pager))%nat).
      { apply Hbound. unfold all_frames. rewrite !elem_of_app. auto. }
      destruct (Hunp _ Hin) as [Hc Hlk].
      assert (Hnp : page ∉ pinnedList pager) by (by apply Hudis).
      assert (Hperm : freeList pager ++ PopSelf page (unpinnedList pager)
                        ++ PushTail (pinnedList pager) page ≡ₚ all_frames pager).
      { unfold all_frames, PushTail. apply Permutation_app_head.
        rewrite <- (PopSelf_Permutation page (unpinnedList pager)) at 2 by done.
        rewrite <- !app_assoc. apply Permutation_app_head, Permutation_app_comm. }
      unfold page_Get, Inv, all_frames, page_of, set_page; simpl. fold inc.
      split; [by rewrite Hperm|]. split; [by rewrite Hperm|].
      split; [intros x; rewrite Hperm, length_set_frame; apply Hbound|].
      split; [|split; [|split]].
      * unfold PushTail. intros x [Hx|Hx]%elem_of_app.
        -- assert (page <> x) by (intros <-; done).
           rewrite page_at_set_frame_ne by done.
           destruct (Hpin _ Hx) as [? Hl]. split; [done|].
           rewrite lookup_insert_ne; [done|]. intros Heq.
           rewrite <- Heq, En in Hl. injection Hl as Hl. fold page in Hl. congruence.
        -- apply list_elem_of_singleton in Hx as ->.
           rewrite page_at_set_frame_eq by done. unfold inc; simpl.
           split; [lia|]. rewrite Hpn. apply lookup_insert_eq.
      * intros x [Hx Hne]%elem_of_PopSelf; [|done].
        rewrite page_at_set_frame_ne by done.
        destruct (Hunp _ Hx) as [? Hl]. split; [done|].
        rewrite lookup_insert_ne; [done|]. intros Heq.
        rewrite <- Heq, En in Hl. injection Hl as Hl. fold page in Hl. congruence.
      * intros x Hx. assert (page <> x) by (intros <-; by destruct (Hfdis _ Hx)).
        rewrite page_at_set_frame_ne by done. by apply Hfree.
      * intros m node'. destruct (decide (n = m)) as [<-|Hne].
        -- rewrite lookup_insert_eq. intros [= <-]; simpl.
           rewrite page_at_set_frame_eq by done. unfold inc; simpl.
           split; [done|]. left. split; [done|].
           unfold PushTail. rewrite elem_of_app, list_elem_of_singleton. auto.
        -- rewrite lookup_insert_ne by done. intros Hm.
           destruct (Htab _ _ Hm) as [Hpm Hwhere].
           assert (page <> link_key node').
           { intros Heq. rewrite <- Heq in Hpm. congruence. }
           rewrite page_at_set_frame_ne by done. split; [done|].
           destruct Hwhere as [[? ?]|[? ?]]; [left|right]; split; try done.
           ++ unfold PushTail. rewrite elem_of_app. auto.
           ++ by apply elem_of_PopSelf.
    + destruct Hwhere as [[_ Hin]|[Hl _]]; [|congruence].
      assert (Hlt : (page < length (frames pager))%nat).
      { apply Hbound. unfold all_frames. rewrite !elem_of_app. auto. }
      unfold page_Get, Inv, all_frames, page_of, set_page; simpl. fold inc.
      split; [done|]. split; [done|].
      split; [by setoid_rewrite length_set_frame|].
      split; [|split; [|split]].
      * intros x Hx. destruct (Hpin _ Hx) as [? ?].
        destruct (decide (page = x)) as [<-|Hne].
        -- rewrite page_at_set_frame_eq by done. unfold inc; simpl. split; [lia|done].
        -- rewrite page_at_set_frame_ne by done. done.
      * intros x Hx. assert (page <> x) by (intros <-; by apply (Hudis _ Hx)).
        rewrite page_at_set_frame_ne by done. by apply Hunp.
      * intros x Hx. assert (page <> x) by (intros <-; by destruct (Hfdis _ Hx)).
        rewrite page_at_set_frame_ne by done. by apply Hfree.
      * intros m node' Hm. destruct (Htab _ _ Hm) as [Hpm Hwhere].
        destruct (decide (page = link_key node')) as [Heq|Hne].
        -- rewrite <- Heq in *. rewrite page_at_set_frame_eq by done.
           unfold inc; simpl. auto.
        -- rewrite page_at_set_frame_ne by done. auto.
  - destruct (NewPage pager n) as [pager1 [page|err]] eqn:ENew.
    + pose proof (NewPage_Unbound _ _ _ _ HInv En ENew) as HU.
      destruct (n <? maxPageNum pager1)%Z.
      * unfold ReadPageFromDisk. destruct (HasFile pager1); [|done].
        intros _. simpl. apply push_Inv; done.
      * intros _. simpl. unfold set_page; simpl. apply push_Inv; [done| |].
        -- apply length_set_frame.
        -- intros x. destruct (decide (page = x)) as [<-|Hne].
           ++ rewrite page_at_set_frame_eq; [done|].
              destruct HU as (_ & _ & Hb & _). apply Hb, list_elem_of_here.
           ++ by rewrite page_at_set_frame_ne.
    + intros _. simpl. by rewrite (NewPage_error _ _ _ _ ENew).
Qed.

Lemma Inv_started pager : started pager -> Inv pager.
Proof.
  intros Hs.
  assert (Hfields : freeList pager = seq 0 NUMPAGES /\ unpinnedList pager = [] /\
                    pinnedList pager = [] /\ pageTable pager = ∅ /\
                    frames pager = replicate NUMPAGES (mkPage NOPAGE 0 false)).
  { destruct Hs as [->|[len ->]]; [done|].
    unfold Open. by destruct (negb _). }
  destruct Hfields as (Hf & Hu & Hp & Ht & Hfr).
  unfold Inv, all_frames, page_of. rewrite Hf, Hu, Hp, Ht, Hfr. simpl.
  rewrite !app_nil_r.
  split; [apply NoDup_seq|]. split; [apply length_seq|].
  split; [intros x [_ Hx]%elem_of_seq; rewrite length_replicate; lia|].
  split; [intros x []%elem_of_nil|]. split; [intros x []%elem_of_nil|].
  split; [|intros n node; by rewrite lookup_empty].
  intros x [_ Hx]%elem_of_seq. unfold page_at.
  rewrite lookup_replicate_2 by lia. done.
Qed.

Lemma Inv_run_call pager c :
  Inv pager -> in_order pager c -> Inv (run_call pager c).
Proof.
  destruct c as [n|page]; simpl.
  - apply Inv_GetPage.
  - apply Inv_Put.
Qed.

Lemma Inv_run_calls cs : forall pager,
  Inv pager -> all_in_order pager cs -> Inv (run_calls pager cs).
Proof.
  induction cs as [|c cs IH]; intros pager HInv Hord; simpl in *; [done|].
  destruct Hord as [Hc Hcs]. apply IH; [|done]. by apply Inv_run_call.
Qed.

Lemma sum_pins_ge fr (l : list nat) :
  (forall x, x ∈ l -> (1 <= pinCount (page_at fr x))%Z) ->
  (Z.of_nat (length l) <= foldr (fun page acc => (pinCount (page_at fr page) + acc)%Z) 0%Z l)%Z.
Proof.
  induction l as [|x l IH]; intros Hl; simpl; [lia|].
  pose proof (Hl x (list_elem_of_here _ _)).
  assert (forall y, y ∈ l -> (1 <= pinCount (page_at fr y))%Z)
    by (intros y Hy; apply Hl; by right).
  specialize (IH H0). lia.
Qed.

Lemma sum_pins_const fr (l : list nat) c :
  (forall x, x ∈ l -> pinCount (page_at fr x) = c) ->
  foldr (fun page acc => (pinCount (page_at fr page) + acc)%Z) 0%Z l
  = (c * Z.of_nat (length l))%Z.
Proof.
  induction l as [|x l IH]; intros Hl; simpl length; simpl foldr; [lia|].
  rewrite (Hl x (list_elem_of_here _ _)), IH; [lia|].
  intros y Hy; apply Hl; by right.
Qed.

Lemma sum_pinCounts_split pager :
  sum_pinCounts pager =
  (foldr (fun page acc => (pinCount (page_of pager page) + acc)%Z) 0%Z (pinnedList pager)
   + foldr (fun page acc => (pinCount (page_of pager page) + acc)%Z) 0%Z (unpinnedList pager))%Z.
Proof.
  unfold sum_pinCounts, resident. rewrite foldr_app.
  generalize (foldr (fun page acc => (pinCount (page_of pager page) + acc)%Z) 0%Z
                (unpinnedList pager)) as u.
  induction (pinnedList pager) as [|x l IH]; intros u; simpl; [done|].
  rewrite IH. lia.
Qed.

(** C4, as the code has it. After every sequence of [GetPage] and [Put]
    calls on a new pager, in memory or opened on a file (a [Put] releasing a
    pinned page, no [GetPage] failing on the read from disk), the free, unpinned and pinned lists hold [NUMPAGES] pages
    together; every pinned page has a pin count of at least one and every
    unpinned or free page a pin count of zero; hence the pin counts of the
    resident pages sum to at least the length of the pinned list, and to
    exactly that length when every pinned page is pinned once. *)
Theorem pool_invariant pager0 cs :
  started pager0 ->
  all_in_order pager0 cs ->
  let pager := run_calls pager0 cs in
  total_frames pager = NUMPAGES /\
  (forall page, page ∈ pinnedList pager -> (1 <= pinCount (page_of pager page))%Z) /\
  (forall page, page ∈ unpinnedList pager ++ freeList pager ->
     pinCount (page_of pager page) = 0%Z) /\
  (Z.of_nat (length (pinnedList pager)) <= sum_pinCounts pager)%Z /\
  ((forall page, page ∈ pinnedList pager -> pinCount (page_of pager page) = 1%Z) ->
   sum_pinCounts pager = Z.of_nat (length (pinnedList pager))).
Proof.
  intros Hstart Hord pager.
  pose proof (Inv_run_calls cs _ (Inv_started _ Hstart) Hord) as HInv.
  fold pager in HInv.
  destruct HInv as (Hnd & Hlen & Hbound & Hpin & Hunp & Hfree & Htab).
  assert (Hzero : foldr (fun page acc => (pinCount (page_of pager page) + acc)%Z) 0%Z
                    (unpinnedList pager) = 0%Z).
  { unfold page_of. rewrite (sum_pins_const _ _ 0%Z); [lia|].
    intros x Hx. by apply Hunp. }
  split; [|split; [|split; [|split]]].
  - unfold total_frames. unfold all_frames in Hlen. rewrite !length_app in Hlen. lia.
  - intros page Hp. by apply Hpin.
  - intros page [Hp|Hp]%elem_of_app; [by apply Hunp|by apply Hfree].
  - rewrite sum_pinCounts_split, Hzero, Z.add_0_r.
    apply sum_pins_ge. intros x Hx. by apply Hpin.
  - intros Hone. rewrite sum_pinCounts_split, Hzero, Z.add_0_r.
    unfold page_of. rewrite (sum_pins_const _ _ 1%Z); [lia|done].
Qed.

(** ** [FlushAllPages] *)

(** [FlushAllPages]: [FlushPage] on the page of every node of the page
    table.  The order in which Go ranges over the map is not fixed; the
    flushes of different pages commute, and the order of the list of the
    table is taken. *)
Definition FlushAllPages (pager : Pager) : Pager :=
  foldr (fun kv acc => FlushPage acc (link_key kv.2)) pager
    (map_to_list (pageTable pager)).

(** ** The errors of [GetPage] *)



(** ** What [GetPage] returns, and what it leaves alone *)

Lemma GetPage_table pager n pager' page :
  Inv pager ->
  GetPage pager n = (pager', inl page) ->
  (0 <= n)%Z /\
  pageTable pager' !! n = Some (mkLink pinnedList_id page) /\
  pinCount (page_of pager' page) =
    match pageTable pager !! n with
    | Some _ => (pinCount (page_of pager page) + 1)%Z
    | None => 1%Z
    end.
Proof.
  intros HInv. unfold GetPage.
  destruct (n <? 0)%Z eqn:En0; [done|]. apply Z.ltb_ge in En0.
  destruct (pageTable pager !! n) as [node|] eqn:En.
  - destruct HInv as (Hnd & Hlen & Hbound & Hpin & Hunp & Hfree & Htab).
    destruct (Htab _ _ En) as [Hpn Hwhere].
    assert (Hlt : (link_key node < length (frames pager))%nat).
    { apply Hbound. unfold all_frames. rewrite !elem_of_app.
      destruct Hwhere as [[_ ?]|[_ ?]]; auto. }
    intros [= <- <-]. split; [done|].
    unfold page_Get, page_of, set_page. simpl.
    destruct (decide (link_list node = unpinnedList_id)) as [Hu|Hu]; simpl.
    + rewrite lookup_insert_eq, page_at_set_frame_eq by done. done.
    + rewrite page_at_set_frame_eq by done. split; [|done].
      rewrite En. destruct node as [l k]. simpl in *.
      destruct Hwhere as [[-> _]|[-> _]]; done.
  - destruct (NewPage pager n) as [pager1 [pg|err]] eqn:ENew; [|done].
    pose proof (NewPage_Unbound _ _ _ _ HInv En ENew)
      as (_ & _ & Hb & _ & _ & _ & _ & _ & _ & Hpc).
    assert (Hlt : (pg < length (frames pager1))%nat) by apply Hb, list_elem_of_here.
    destruct (n <? maxPageNum pager1)%Z.
    + unfold ReadPageFromDisk. destruct (HasFile pager1); [|done].
      intros [= <- <-]. simpl. split; [done|]. by rewrite lookup_insert_eq.
    + intros [= <- <-]. simpl. split; [done|]. rewrite lookup_insert_eq. split; [done|].
      unfold page_of, set_page; simpl. rewrite page_at_set_frame_eq by done. done.
Qed.

(** X14. What [GetPage] returns on a pager reached from a new one by calls
    in order: the page struct it returns is on the pinned list, it is
    bound to the requested page number, which is not negative, the page
    table maps the number to it, and its pin count is 1 for a page that
    was not resident and one more than before for a resident page. *)
Theorem GetPage_returns_pinned pager0 cs n pager' page :
  started pager0 ->
  all_in_order pager0 cs ->
  let pager := run_calls pager0 cs in
  GetPage pager n = (pager', inl page) ->
  (0 <= n)%Z /\
  page ∈ pinnedList pager' /\
  pagenum (page_of pager' page) = n /\
  pageTable pager' !! n = Some (mkLink pinnedList_id page) /\
  pinCount (page_of pager' page) =
    match pageTable pager !! n with
    | Some _ => (pinCount (page_of pager page) + 1)%Z
    | None => 1%Z
    end.
Proof.
  intros Hs Hord pager HG.
  assert (HInv : Inv pager) by (by apply Inv_run_calls; [apply Inv_started|]).
  destruct (GetPage_table _ _ _ _ HInv HG) as (Hn & Htab & Hpc).
  assert (HInv' : Inv pager').
  { replace pager' with (GetPage pager n).1 by (by rewrite HG).
    apply Inv_GetPage; [done|]. by rewrite HG. }
  destruct HInv' as (_ & _ & _ & _ & _ & _ & Ht).
  destruct (Ht _ _ Htab) as [Hpn Hwhere]. simpl in *.
  split; [done|]. split; [|done].
  destruct Hwhere as [[_ ?]|[? _]]; done.
Qed.


Lemma NewPage_keeps_pinned pager n q r x :
  Inv pager -> NewPage pager n = (q, r) -> x ∈ pinnedList pager ->
  pinnedList q = pinnedList pager /\
  pagenum (page_of q x) = pagenum (page_of pager x) /\
  pinCount (page_of q x) = pinCount (page_of pager x) /\
  pageTable q !! pagenum (page_of pager x) = Some (mkLink pinnedList_id x).
Proof.
  intros HInv HNew Hx.
  destruct (Inv_lists _ HInv) as (Hndf & Hndu & Hndp & Hfdis & Hudis).
  destruct HInv as (Hnd & Hlen & Hbound & Hpin & Hunp & Hfree & Htab).
  destruct (Hpin _ Hx) as [Hc Hl].
  revert HNew. unfold NewPage.
  destruct (PeekHead (freeList pager)) as [f|] eqn:Ef.
  - intros [= <- _]. apply head_elem_of in Ef.
    assert (f <> x) by (intros ->; by destruct (Hfdis _ Ef)).
    unfold page_of, set_page; simpl. by rewrite page_at_set_frame_ne.
  - destruct (negb (HasFile pager)); [by intros [= <- _]|].
    destruct (PeekHead (unpinnedList pager)) as [u|] eqn:Eu; [|by intros [= <- _]].
    intros [= <- _]. apply head_elem_of in Eu.
    assert (u <> x) by (intros ->; by apply (Hudis _ Eu)).
    set (q0 := mkPager (file pager) (maxPageNum pager) (freeList pager)
                 (PopSelf u (unpinnedList pager)) (pinnedList pager)
                 (pageTable pager) (frames pager)).
    destruct (FlushPage_fields q0 u) as (Ef1 & Ef2 & Ef3 & Ef4 & Ef5).
    destruct (page_at_FlushPage q0 u x) as [Hpx Hcx].
    destruct (page_at_FlushPage q0 u u) as [Hpu _].
    unfold page_of, set_page in *; simpl in *.
    rewrite page_at_set_frame_ne by done.
    rewrite Ef3, Ef4, Hpx, Hcx, Hpu. simpl.
    split; [done|]. split; [done|]. split; [done|].
    rewrite lookup_delete_ne; [done|].
    intros Heq. destruct (Hunp _ Eu) as [_ Hlu]. rewrite Heq, Hl in Hlu. congruence.
Qed.

Lemma GetPage_keeps_pinned pager n x :
  Inv pager -> x ∈ pinnedList pager ->
  x ∈ pinnedList (GetPage pager n).1 /\
  pagenum (page_of (GetPage pager n).1 x) = pagenum (page_of pager x) /\
  (pinCount (page_of pager x) <= pinCount (page_of (GetPage pager n).1 x))%Z /\
  pageTable (GetPage pager n).1 !! pagenum (page_of pager x)
    = Some (mkLink pinnedList_id x).
Proof.
  intros HInv Hx.
  pose proof (Inv_lists _ HInv) as (Hndf & Hndu & Hndp & Hfdis & Hudis).
  pose proof HInv as (Hnd & Hlen & Hbound & Hpin & Hunp & Hfree & Htab).
  destruct (Hpin _ Hx) as [Hc Hl].
  assert (Hxlt : (x < length (frames pager))%nat).
  { apply Hbound. unfold all_frames. rewrite !elem_of_app. auto. }
  unfold GetPage.
  destruct (n <? 0)%Z; [simpl; split; [done|]; split; [done|]; split; [lia|done]|].
  destruct (pageTable pager !! n) as [node|] eqn:En.
  - destruct (Htab _ _ En) as [Hpn Hwhere]. simpl.
    unfold page_Get, page_of, set_page in *. simpl.
    destruct (decide (link_list node = unpinnedList_id)) as [Hu|Hu]; simpl.
    + destruct Hwhere as [[? _]|[_ Hin]]; [congruence|].
      assert (link_key node <> x) by (intros Heq; rewrite Heq in Hin; by apply (Hudis _ Hin)).
      rewrite page_at_set_frame_ne by done.
      split; [unfold PushTail; rewrite elem_of_app; auto|].
      split; [done|]. split; [lia|].
      rewrite lookup_insert_ne; [done|].
      intros Heq. rewrite <- Heq, En in Hl. injection Hl as Hl. by rewrite Hl in *.
    + split; [done|].
      destruct (decide (link_key node = x)) as [Heq|Hne].
      * rewrite Heq, page_at_set_frame_eq by done. simpl. split; [done|]. split; [lia|done].
      * rewrite page_at_set_frame_ne by done. split; [done|]. split; [lia|done].
  - destruct (NewPage pager n) as [pager1 r] eqn:ENew.
    destruct (NewPage_keeps_pinned _ _ _ _ _ HInv ENew Hx) as (Hp1 & Hpn1 & Hc1 & Hl1).
    assert (Hnx : n <> pagenum (page_of pager x)).
    { intros Heq. rewrite <- Heq, En in Hl. done. }
    destruct r as [page|err]; [|simpl; rewrite Hp1, Hpn1, Hc1; split; [done|];
                                 split; [done|]; split; [lia|done]].
    pose proof (NewPage_Unbound _ _ _ _ HInv En ENew) as (HndU & _).
    assert (Hpx : page <> x).
    { intros ->. apply NoDup_cons_1_1 in HndU. apply HndU.
      unfold all_frames. rewrite !elem_of_app, Hp1. auto. }
    destruct (n <? maxPageNum pager1)%Z.
    + destruct (ReadPageFromDisk pager1 page n); simpl.
      * rewrite Hp1, Hpn1, Hc1. split; [done|]. split; [done|]. split; [lia|done].
      * rewrite Hp1. unfold page_of in *; simpl. rewrite Hpn1, Hc1.
        split; [unfold PushTail; rewrite elem_of_app; auto|].
        split; [done|]. split; [lia|]. by rewrite lookup_insert_ne.
    + simpl. rewrite Hp1. unfold page_of, set_page in *; simpl.
      rewrite page_at_set_frame_ne by done. rewrite Hpn1, Hc1.
      split; [unfold PushTail; rewrite elem_of_app; auto|].
      split; [done|]. split; [lia|]. by rewrite lookup_insert_ne.
Qed.

(** X15. [GetPage] never evicts a pinned page: on a pager reached from a
    new one by calls in order, a page struct on the pinned list is still
    on it after any [GetPage], a failed one included, it is bound to the
    same page number, which the page table still maps to it, and its pin
    count has not dropped. *)
Theorem GetPage_never_evicts_pinned pager0 cs n x :
  started pager0 ->
  all_in_order pager0 cs ->
  let pager := run_calls pager0 cs in
  x ∈ pinnedList pager ->
  x ∈ pinnedList (GetPage pager n).1 /\
  pagenum (page_of (GetPage pager n).1 x) = pagenum (page_of pager x) /\
  (pinCount (page_of pager x) <= pinCount (page_of (GetPage pager n).1 x))%Z /\
  pageTable (GetPage pager n).1 !! pagenum (page_of pager x)
    = Some (mkLink pinnedList_id x).
Proof.
  intros Hs Hord pager Hx. apply GetPage_keeps_pinned; [|done].
  by apply Inv_run_calls; [apply Inv_started|].
Qed.


(** ** Eviction *)

Lemma GetPage_evicts pager n victim rest :
  Inv pager ->
  file pager = true -> freeList pager = [] -> unpinnedList pager = victim :: rest ->
  (0 <= n)%Z -> pageTable pager !! n = None ->
  (GetPage pager n).2 = inl victim /\
  freeList (GetPage pager n).1 = [] /\
  unpinnedList (GetPage pager n).1 = rest /\
  pinnedList (GetPage pager n).1 = pinnedList pager ++ [victim] /\
  pageTable (GetPage pager n).1
    = <[n := mkLink pinnedList_id victim]>
        (delete (pagenum (page_of pager victim)) (pageTable pager)) /\
  page_of (GetPage pager n).1 victim = mkPage n 1 (negb (n <? maxPageNum pager)%Z) /\
  maxPageNum (GetPage pager n).1
    = (if (n <? maxPageNum pager)%Z then maxPageNum pager else maxPageNum pager + 1)%Z.
Proof.
  intros HInv Hfile Hfree Hunp Hn En.
  destruct HInv as (_ & _ & Hbound & _).
  assert (Hlt : (victim < length (frames pager))%nat).
  { apply Hbound. unfold all_frames. rewrite Hunp, !elem_of_app, elem_of_cons. auto. }
  unfold GetPage. destruct (n <? 0)%Z eqn:En0; [apply Z.ltb_lt in En0; lia|].
  rewrite En. unfold NewPage, HasFile. rewrite Hfree, Hunp, Hfile. simpl.
  destruct (decide (victim = victim)); [|done].
  set (q0 := mkPager true (maxPageNum pager) [] rest (pinnedList pager)
               (pageTable pager) (frames pager)).
  destruct (FlushPage_fields q0 victim) as (Ef1 & Ef2 & Ef3 & Ef4 & Ef5).
  destruct (page_at_FlushPage q0 victim victim) as [Hpv _].
  assert (Hmax : maxPageNum (FlushPage q0 victim) = maxPageNum pager).
  { unfold FlushPage. by destruct (dirty _ && _). }
  assert (Hf : file (FlushPage q0 victim) = true).
  { unfold FlushPage. by destruct (dirty _ && _). }
  unfold page_of in *. simpl in Hpv, Ef1, Ef2, Ef3, Ef4, Ef5.
  rewrite Hmax, Hf, Ef1, Ef2, Ef3, Ef4, Hpv.
  unfold ReadPageFromDisk, HasFile, set_page. simpl.
  destruct (n <? maxPageNum pager)%Z; simpl.
  - rewrite page_at_set_frame_eq by (by rewrite Ef5). done.
  - rewrite !page_at_set_frame_eq by (rewrite ?length_set_frame, Ef5; done). done.
Qed.

(** X16. Eviction takes the head of the unpinned list.  On a pager on a
    file, reached from a new one by calls in order, whose free list is
    empty, [GetPage] of a page that is not resident returns the page
    struct at the head of the unpinned list: the struct leaves that list
    for the tail of the pinned list, the page table forgets the page
    number it held and maps the requested one to it, and it is clean
    with pin count 1 when the page is read from the file, dirty when the
    page is beyond the end of the file, which then grows by one page. *)
Theorem GetPage_evicts_unpinned_head pager0 cs n victim rest :
  started pager0 ->
  all_in_order pager0 cs ->
  let pager := run_calls pager0 cs in
  file pager = true -> freeList pager = [] -> unpinnedList pager = victim :: rest ->
  (0 <= n)%Z -> pageTable pager !! n = None ->
  (GetPage pager n).2 = inl victim /\
  freeList (GetPage pager n).1 = [] /\
  unpinnedList (GetPage pager n).1 = rest /\
  pinnedList (GetPage pager n).1 = pinnedList pager ++ [victim] /\
  pageTable (GetPage pager n).1
    = <[n := mkLink pinnedList_id victim]>
        (delete (pagenum (page_of pager victim)) (pageTable pager)) /\
  page_of (GetPage pager n).1 victim = mkPage n 1 (negb (n <? maxPageNum pager)%Z) /\
  maxPageNum (GetPage pager n).1
    = (if (n <? maxPageNum pager)%Z then maxPageNum pager else maxPageNum pager + 1)%Z.
Proof.
  intros Hs Hord pager. apply GetPage_evicts.
  by apply Inv_run_calls; [apply Inv_started|].
Qed.

(** X17. A failed read loses a page struct: when [GetPage] fails on the
    read of the page, which a pager without a file does for a page that is
    not resident below [maxPageNum], the struct taken from the free list
    is returned to no list, and the three lists hold one struct fewer than
    the pool has. *)
Theorem GetPage_read_error_leaks pager0 cs n :
  started pager0 ->
  all_in_order pager0 cs ->
  let pager := run_calls pager0 cs in
  (GetPage pager n).2 = inr "invalid argument"%string ->
  S (total_frames (GetPage pager n).1) = NUMPAGES /\
  total_frames pager = NUMPAGES.
Proof.
  intros Hs Hord pager.
  assert (HInv : Inv pager) by (by apply Inv_run_calls; [apply Inv_started|]).
  assert (Htot : total_frames pager = NUMPAGES).
  { destruct HInv as (_ & Hlen & _). rewrite <- Hlen.
    unfold total_frames, all_frames. rewrite !length_app. lia. }
  unfold GetPage.
  destruct (n <? 0)%Z; [done|].
  destruct (pageTable pager !! n) as [node|] eqn:En; [done|].
  destruct (NewPage pager n) as [pager1 [page|err]] eqn:ENew.
  - pose proof (NewPage_Unbound _ _ _ _ HInv En ENew) as (_ & HlenU & _).
    destruct (n <? maxPageNum pager1)%Z; [|done].
    destruct (ReadPageFromDisk pager1 page n); [|done].
    simpl. intros _. split; [|done]. rewrite <- HlenU.
    unfold total_frames, all_frames. rewrite !length_app. lia.
  - simpl. intros [= ->]. exfalso. revert ENew. unfold NewPage.
    destruct (PeekHead (freeList pager)); [done|].
    destruct (negb (HasFile pager)); [done|].
    destruct (PeekHead (unpinnedList pager)); done.
Qed.


(** ** Flushing *)

Lemma FlushPage_dirty pager page x :
  file pager = true ->
  dirty (page_of (FlushPage pager page) x)
  = if decide (x = page) then false else dirty (page_of pager x).
Proof.
  intros Hf. unfold FlushPage, HasFile, page_of. rewrite Hf, andb_true_r.
  destruct (dirty (page_at (frames pager) page)) eqn:Ed.
  - unfold set_page; simpl. destruct (decide (x = page)) as [->|Hne].
    + rewrite page_at_set_frame_eq; [done|].
      destruct (decide (page < length (frames pager))%nat) as [?|Hge]; [done|].
      unfold page_at in Ed. rewrite lookup_ge_None_2 in Ed by lia. done.
    + by rewrite page_at_set_frame_ne.
  - destruct (decide (x = page)) as [->|Hne]; done.
Qed.

Lemma FlushPage_no_file pager page : file pager = false -> FlushPage pager page = pager.
Proof. intros Hf. unfold FlushPage, HasFile. by rewrite Hf, andb_false_r. Qed.

Lemma FlushPage_file pager page :
  file (FlushPage pager page) = file pager /\
  maxPageNum (FlushPage pager page) = maxPageNum pager.
Proof. unfold FlushPage. by destruct (dirty _ && _). Qed.

Lemma flush_all_spec pager (l : list (Z * Link)) :
  let r := foldr (fun kv acc => FlushPage acc (link_key kv.2)) pager l in
  file r = file pager /\ maxPageNum r = maxPageNum pager /\
  freeList r = freeList pager /\ unpinnedList r = unpinnedList pager /\
  pinnedList r = pinnedList pager /\ pageTable r = pageTable pager /\
  (forall x, pagenum (page_of r x) = pagenum (page_of pager x) /\
             pinCount (page_of r x) = pinCount (page_of pager x)) /\
  (file pager = false -> r = pager) /\
  (file pager = true -> forall x,
     dirty (page_of r x)
     = if decide (x ∈ (fun kv : Z * Link => link_key kv.2) <$> l) then false
       else dirty (page_of pager x)).
Proof.
  induction l as [|kv l IH]; cbn [foldr].
  { repeat split; try done; intros _ x;
      destruct (decide _) as [[]%elem_of_nil|]; done. }
  destruct IH as (Hf & Hm & Hfl & Hul & Hpl & Hpt & Hpc & Hno & Hd).
  set (r := foldr _ pager l) in *.
  destruct (FlushPage_fields r (link_key kv.2)) as (Ef1 & Ef2 & Ef3 & Ef4 & Ef5).
  destruct (FlushPage_file r (link_key kv.2)) as [Ef6 Ef7].
  rewrite Ef1, Ef2, Ef3, Ef4, Ef6, Ef7.
  split; [done|]. split; [done|]. split; [done|]. split; [done|].
  split; [done|]. split; [done|]. split; [|split].
  - intros x. destruct (page_at_FlushPage r (link_key kv.2) x) as [-> ->]. apply Hpc.
  - intros Hnf. rewrite FlushPage_no_file by congruence. by apply Hno.
  - intros Hfile x. rewrite FlushPage_dirty by congruence. rewrite Hd by done.
    rewrite fmap_cons.
    destruct (decide (x = link_key kv.2)) as [->|Hne].
    + destruct (decide _) as [_|Hn]; [done|].
      exfalso. apply Hn. apply list_elem_of_here.
    + destruct (decide (x ∈ _ <$> l)) as [Hin|Hn1];
        destruct (decide (x ∈ _ :: _)) as [Hin1|Hn2]; try done.
      * exfalso. apply Hn2. by right.
      * exfalso. apply elem_of_cons in Hin1 as [->|Hin1]; done.
Qed.

(** X18. [FlushAllPages] on a pager reached from a new one by calls in
    order.  On a pager on a file no resident page is dirty afterwards; on a
    pager without a file nothing changes.  In both cases the three lists,
    the page table, the page numbers and the pin counts are as before,
    and the page structs of the free list keep their dirty flags. *)
Theorem FlushAllPages_clean pager0 cs :
  started pager0 ->
  all_in_order pager0 cs ->
  let pager := run_calls pager0 cs in
  let pager' := FlushAllPages pager in
  (file pager = false -> pager' = pager) /\
  (file pager = true -> forall x, x ∈ resident pager -> dirty (page_of pager' x) = false) /\
  (forall x, x ∈ freeList pager -> dirty (page_of pager' x) = dirty (page_of pager x)) /\
  freeList pager' = freeList pager /\ unpinnedList pager' = unpinnedList pager /\
  pinnedList pager' = pinnedList pager /\ pageTable pager' = pageTable pager /\
  (forall x, pagenum (page_of pager' x) = pagenum (page_of pager x) /\
             pinCount (page_of pager' x) = pinCount (page_of pager x)).
Proof.
  intros Hs Hord pager pager'.
  assert (HInv : Inv pager) by (by apply Inv_run_calls; [apply Inv_started|]).
  destruct (flush_all_spec pager (map_to_list (pageTable pager)))
    as (Hf & Hm & Hfl & Hul & Hpl & Hpt & Hpc & Hno & Hd).
  fold (FlushAllPages pager) in *. fold pager' in Hf, Hm, Hfl, Hul, Hpl, Hpt, Hpc, Hno, Hd.
  destruct (Inv_lists _ HInv) as (_ & _ & _ & Hfdis & _).
  destruct HInv as (_ & _ & _ & Hpin & Hunp & _ & Htab).
  split; [done|]. split; [|split; [|done]].
  - intros Hfile x Hx. rewrite Hd by done.
    destruct (decide _) as [_|Hn]; [done|]. exfalso. apply Hn.
    unfold resident in Hx. apply elem_of_app in Hx as [Hx|Hx].
    + destruct (Hpin _ Hx) as [_ Hl]. apply list_elem_of_fmap.
      exists (pagenum (page_of pager x), mkLink pinnedList_id x).
      split; [done|by apply elem_of_map_to_list].
    + destruct (Hunp _ Hx) as [_ Hl]. apply list_elem_of_fmap.
      exists (pagenum (page_of pager x), mkLink unpinnedList_id x).
      split; [done|by apply elem_of_map_to_list].
  - intros x Hx. destruct (file pager) eqn:Hfile; [|by rewrite Hno].
    rewrite Hd by done.
    destruct (decide _) as [([m node] & Hk & Hin)%list_elem_of_fmap|Hn]; [|done].
    exfalso. apply elem_of_map_to_list in Hin. simpl in Hk. subst x.
    destruct (Htab _ _ Hin) as [_ Hwhere]. destruct (Hfdis _ Hx) as [? ?].
    destruct Hwhere as [[_ ?]|[_ ?]]; done.
Qed.


End Pool.

(** A pool of three pages opened on an empty file. *)
Definition demo_pager : Pager := (Open (NewPager 3) 0).1.

#[global] Instance in_order_dec pager c : Decision (in_order pager c).
Proof. destruct c; simpl; apply _. Defined.

#[global] Instance all_in_order_dec cs : forall pager, Decision (all_in_order pager cs).
Proof. induction cs as [|c cs IH]; simpl; intros pager; apply _. Defined.

Ltac in_order_by_computation :=
  refine (bool_decide_unpack _ _); vm_compute; exact I.

Lemma pool_invariant_witness :
  started 3 demo_pager /\
  all_in_order demo_pager s1_calls /\
  let pager := run_calls demo_pager s1_calls in
  total_frames pager = 3%nat /\
  (Z.of_nat (length (pinnedList pager)) <= sum_pinCounts pager)%Z.
Proof.
  assert (Hstart : started 3 demo_pager) by (right; by exists 0%Z).
  assert (Hord : all_in_order demo_pager s1_calls).
  { in_order_by_computation. }
  split; [exact Hstart|]. split; [exact Hord|].
  destruct (pool_invariant 3 demo_pager s1_calls Hstart Hord)
    as (Htotal & _ & _ & Hsum & _).
  split; [exact Htotal|exact Hsum].
Defined.

(** C4, as stated, fails: [GetPage] twice on page 0 without a [Put] in
    between pins one page twice. The pinned list then has one page, while
    the pin counts sum to two. *)
Lemma double_GetPage_counterexample :
  let calls := [CallGetPage 0; CallGetPage 0] in
  let pager := run_calls demo_pager calls in
  all_in_order demo_pager calls /\
  length (pinnedList pager) = 1%nat /\
  sum_pinCounts pager = 2%Z /\
  ~ (sum_pinCounts pager = Z.of_nat (length (pinnedList pager)) /\
     total_frames pager = 3%nat).
Proof.
  split; [|split; [|split]].
  - in_order_by_computation.
  - vm_compute; reflexivity.
  - vm_compute; reflexivity.
  - intros [Hsum _]. vm_compute in Hsum. discriminate.
Qed.

(** What the theorem leaves out: on a pager without a file, a [GetPage]
    of a page number below [maxPageNum] that is not resident takes a page
    struct off the free list, fails on the read and returns without putting
    the struct on any list. *)
Lemma GetPage_read_error_loses_frame :
  let pager := run_calls (NewPager 3) [CallGetPage 1] in
  (GetPage pager 0).2 = inr "invalid argument"%string /\
  total_frames pager = 3%nat /\
  total_frames (GetPage pager 0).1 = 2%nat.
Proof. vm_compute. repeat split; reflexivity. Qed.

(** ** The further properties of the pool, on pagers of three pages *)

Lemma started_demo_pager : started 3 demo_pager.
Proof. right. by exists 0%Z. Qed.


Lemma GetPage_returns_pinned_witness :
  let cs := [CallGetPage 0; CallPut 0] in
  started 3 demo_pager /\ all_in_order demo_pager cs /\
  GetPage (run_calls demo_pager cs) 0 = ((GetPage (run_calls demo_pager cs) 0).1, inl 0%nat) /\
  0%nat ∈ pinnedList (GetPage (run_calls demo_pager cs) 0).1 /\
  pagenum (page_of (GetPage (run_calls demo_pager cs) 0).1 0) = 0%Z.
Proof.
  intros cs.
  assert (Hord : all_in_order demo_pager cs) by in_order_by_computation.
  assert (HG : GetPage (run_calls demo_pager cs) 0
               = ((GetPage (run_calls demo_pager cs) 0).1, inl 0%nat))
    by (vm_compute; reflexivity).
  destruct (GetPage_returns_pinned 3 demo_pager cs 0 _ 0%nat started_demo_pager Hord HG)
    as (_ & Hin & Hpn & _).
  split; [exact started_demo_pager|]. split; [exact Hord|]. split; [exact HG|].
  split; [exact Hin|exact Hpn].
Defined.

Lemma GetPage_never_evicts_pinned_witness :
  let cs := [CallGetPage 0; CallGetPage 1; CallPut 1; CallGetPage 2; CallPut 2] in
  let pager := run_calls demo_pager cs in
  started 3 demo_pager /\ all_in_order demo_pager cs /\
  0%nat ∈ pinnedList pager /\
  (GetPage pager 3).2 = inl 1%nat /\
  0%nat ∈ pinnedList (GetPage pager 3).1 /\
  pagenum (page_of (GetPage pager 3).1 0) = pagenum (page_of pager 0).
Proof.
  intros cs pager.
  assert (Hord : all_in_order demo_pager cs) by in_order_by_computation.
  assert (Hin : 0%nat ∈ pinnedList pager).
  { refine (bool_decide_unpack _ _). vm_compute. exact I. }
  destruct (GetPage_never_evicts_pinned 3 demo_pager cs 3 0%nat started_demo_pager Hord Hin)
    as (Hin' & Hpn & _).
  split; [exact started_demo_pager|]. split; [exact Hord|]. split; [exact Hin|].
  split; [vm_compute; reflexivity|]. split; [exact Hin'|exact Hpn].
Defined.

Lemma GetPage_evicts_unpinned_head_witness :
  let cs := [CallGetPage 0; CallPut 0; CallGetPage 1; CallPut 1; CallGetPage 2; CallPut 2] in
  let pager := run_calls demo_pager cs in
  started 3 demo_pager /\ all_in_order demo_pager cs /\
  unpinnedList pager = [0; 1; 2]%nat /\
  (GetPage pager 3).2 = inl 0%nat /\
  unpinnedList (GetPage pager 3).1 = [1; 2]%nat /\
  pinnedList (GetPage pager 3).1 = [0%nat] /\
  pageTable (GetPage pager 3).1 !! 0%Z = None.
Proof.
  intros cs pager.
  assert (Hord : all_in_order demo_pager cs) by in_order_by_computation.
  assert (Hu : unpinnedList pager = [0; 1; 2]%nat) by (vm_compute; reflexivity).
  destruct (GetPage_evicts_unpinned_head 3 demo_pager cs 3 0%nat [1; 2]%nat
              started_demo_pager Hord)
    as (Hr & _ & Hu' & Hp' & Ht' & _).
  - vm_compute; reflexivity.
  - vm_compute; reflexivity.
  - exact Hu.
  - lia.
  - vm_compute; reflexivity.
  - split; [exact started_demo_pager|]. split; [exact Hord|]. split; [exact Hu|].
    split; [exact Hr|]. split; [exact Hu'|].
    split; [unfold pager; rewrite Hp'; vm_compute; reflexivity|].
    unfold pager. rewrite Ht'. vm_compute. reflexivity.
Defined.

Lemma GetPage_read_error_leaks_witness :
  let pager := run_calls (NewPager 3) [CallGetPage 1] in
  started 3 (NewPager 3) /\ all_in_order (NewPager 3) [CallGetPage 1] /\
  (GetPage pager 0).2 = inr "invalid argument"%string /\
  S (total_frames (GetPage pager 0).1) = 3%nat.
Proof.
  intros pager.
  assert (Hs : started 3 (NewPager 3)) by (by left).
  assert (Hord : all_in_order (NewPager 3) [CallGetPage 1]) by in_order_by_computation.
  assert (He : (GetPage pager 0).2 = inr "invalid argument"%string)
    by (vm_compute; reflexivity).
  split; [exact Hs|]. split; [exact Hord|]. split; [exact He|].
  exact (proj1 (GetPage_read_error_leaks 3 (NewPager 3) [CallGetPage 1] 0 Hs Hord He)).
Defined.

Lemma FlushAllPages_clean_witness :
  let cs := [CallGetPage 0; CallPut 0] in
  let pager := run_calls demo_pager cs in
  started 3 demo_pager /\ all_in_order demo_pager cs /\
  dirty (page_of pager 0) = true /\
  dirty (page_of (FlushAllPages pager) 0) = false.
Proof.
  intros cs pager.
  assert (Hord : all_in_order demo_pager cs) by in_order_by_computation.
  destruct (FlushAllPages_clean 3 demo_pager cs started_demo_pager Hord)
    as (_ & Hclean & _).
  split; [exact started_demo_pager|]. split; [exact Hord|].
  split; [vm_compute; reflexivity|].
  apply Hclean; [vm_compute; reflexivity|].
  refine (bool_decide_unpack _ _). vm_compute. exact I.
Defined.


End Pager.

(* ===================================================================== *)
(** * pkg/hash/table.go: the extendible hash table *)
(* ===================================================================== *)

Module Hash.

Local Open Scope Z_scope.

(** A bucket entry: a 64-bit key and a 64-bit value. *)
Record HashEntry := mkEntry { key : Z; value : Z }.

#[global] Instance HashEntry_eq_dec : EqDecision HashEntry.
Proof. solve_decision. Defined.

(** A bucket is one page: its local depth and its entries ([numKeys] is
    their number; the slots of the page past [numKeys] are never read). *)
Record HashBucket := mkBucket { bdepth : Z; entries : list HashEntry }.

Definition numKeys (bucket : HashBucket) : Z := Z.of_nat (length (entries bucket)).

(** The pager, as the hash table uses it: the bucket pages by page number,
    and the number of pages.  Getting a page is taken to succeed: neither
    I/O errors nor the exhaustion of the buffer pool are modelled here. *)
Record Pager := mkPager { pages : gmap Z HashBucket; maxPageNum : Z }.

Record HashTable := mkTable {
  depth : Z;
  buckets : list Z;            (* bucket page numbers *)
  pager : Pager
}.

(** [x^y]; the depths stay far below 63, where [int64] would overflow: a
    directory has [2^depth] slots in memory. *)
Definition powInt (x y : Z) : Z := x ^ y.

(** [table.buckets[i]]. *)
Definition slot (buckets : list Z) (i : Z) : option Z :=
  if i <? 0 then None else buckets !! Z.to_nat i.

Definition set_slot (buckets : list Z) (i : Z) (pn : Z) : list Z :=
  <[Z.to_nat i := pn]> buckets.

(** Writing bucket [bucket] to its page [pn]. *)
Definition write_bucket (table : HashTable) (pn : Z) (bucket : HashBucket) : HashTable :=
  mkTable (depth table) (buckets table)
    (mkPager (<[pn := bucket]> (pages (pager table))) (maxPageNum (pager table))).

(** Modelled from the spec: [NewHashBucket], of bucket.go which is not in
    the sources at hand, allocates the next free page for a bucket of the
    given local depth with zero keys. *)
Definition NewHashBucket (pager : Pager) (depth : Z) : Z * Pager :=
  let pn := maxPageNum pager in
  (pn, mkPager (<[pn := mkBucket depth []]> (pages pager)) (pn + 1)).

(** [NewHashTable]: global depth 2 and four empty buckets of depth 2. *)
Definition NewHashTable (pager : Pager) : HashTable :=
  let depth := 2 in
  let '(buckets, pager1) :=
    fold_left (fun (acc : list Z * Pager) (_ : nat) =>
                 let '(pn, pg) := NewHashBucket acc.2 depth in
                 (acc.1 ++ [pn], pg))
              (seq 0 (Z.to_nat (powInt 2 depth))) ([], pager) in
  mkTable depth buckets pager1.

Definition empty_pager : Pager := mkPager ∅ 0.

(** [GetAndLockBucket(hash)]: the bucket of directory slot [hash], with its
    page number. *)
Definition GetBucket (table : HashTable) (hash : Z) : (Z * HashBucket) + string :=
  match slot (buckets table) hash with
  | None => inr "index out of range"%string
  | Some pn =>
      match pages (pager table) !! pn with
      | Some bucket => inl (pn, bucket)
      | None => inr "page not found"%string
      end
  end.

(** [ExtendTable] increases the global depth of the table by 1. *)
Definition ExtendTable (table : HashTable) : HashTable :=
  mkTable (depth table + 1) (buckets table ++ buckets table) (pager table).

Section Table.

(** The 64-bit hash [H] of a key, and [BUCKETSIZE], the number of entries
    at which a bucket is split; hash.go and the constants are not in the
    sources at hand. *)
Variable H : Z -> Z.
Variable BUCKETSIZE : Z.

(** Modelled from the spec: [hash(key, depth) = H(key) mod 2^depth]. *)
Definition Hasher (key depth : Z) : Z := H key mod powInt 2 depth.

(** Modelled from the spec: the operations of a bucket, of bucket.go which
    is not in the sources at hand.  [Find] is a linear scan; [Insert]
    appends the entry and reports whether the bucket has become full;
    [Update] replaces in place the value of the first entry of the key;
    [Delete] removes the first entry of the key. *)
Definition bucket_Find (bucket : HashBucket) (k : Z) : option HashEntry :=
  head (filter (fun e => key e = k) (entries bucket)).

(** Modelled from the spec: [bucket.Insert] appends the entry and reports
    whether the bucket has become full. *)
Definition bucket_Insert (bucket : HashBucket) (k v : Z) : HashBucket * bool :=
  let bucket1 := mkBucket (bdepth bucket) (entries bucket ++ [mkEntry k v]) in
  (bucket1, BUCKETSIZE <=? numKeys bucket1).

(** Modelled from the spec: the in-place replacement of [bucket.Update],
    on the first entry of the key. *)
Fixpoint update_first (k v : Z) (es : list HashEntry) : option (list HashEntry) :=
  match es with
  | [] => None
  | e :: es' =>
      if decide (key e = k) then Some (mkEntry k v :: es')
      else option_map (cons e) (update_first k v es')
  end.

(** Modelled from the spec: the removal of [bucket.Delete], of the first
    entry of the key. *)
Fixpoint delete_first (k : Z) (es : list HashEntry) : option (list HashEntry) :=
  match es with
  | [] => None
  | e :: es' =>
      if decide (key e = k) then Some es'
      else option_map (cons e) (delete_first k es')
  end.

(** Modelled from the spec: [bucket.Update], which fails when the key is
    not in the bucket. *)
Definition bucket_Update (bucket : HashBucket) (k v : Z) : HashBucket * error :=
  match update_first k v (entries bucket) with
  | Some es => (mkBucket (bdepth bucket) es, None)
  | None => (bucket, Some "key not found"%string)
  end.

(** Modelled from the spec: [bucket.Delete], which fails when the key is
    not in the bucket. *)
Definition bucket_Delete (bucket : HashBucket) (k : Z) : HashBucket * error :=
  match delete_first k (entries bucket) with
  | Some es => (mkBucket (bdepth bucket) es, None)
  | None => (bucket, Some "key not found"%string)
  end.

(** [table.Find]. *)
Definition Find (table : HashTable) (k : Z) : HashEntry + string :=
  let hash := Hasher k (depth table) in
  if (hash <? 0) || (Z.of_nat (length (buckets table)) <=? hash)
  then inr "not found"%string
  else
    match GetBucket table hash with
    | inr err => inr err
    | inl (_, bucket) =>
        match bucket_Find bucket k with
        | Some entry => inl entry
        | None => inr "not found"%string
        end
    end.

(** The loop of [Split] that moves the entries: [old] and [new] are the
    entries written so far to the old and to the new bucket. *)
Fixpoint move_entries (newHash d : Z) (tmpEntries old new : list HashEntry)
    : list HashEntry * list HashEntry :=
  match tmpEntries with
  | [] => (old, new)
  | entry :: rest =>
      if Hasher (key entry) d =? newHash
      then move_entries newHash d rest old (new ++ [entry])
      else move_entries newHash d rest (old ++ [entry]) new
  end.

(** [for i := newHash; i < powInt(2, table.depth); { table.buckets[i] = pn;
    i += powInt(2, power) }]; [n] bounds the number of rounds. *)
Fixpoint redirect (n : nat) (buckets : list Z) (i bound step pn : Z) : list Z :=
  match n with
  | O => buckets
  | S n' =>
      if i <? bound then redirect n' (set_slot buckets i pn) (i + step) bound step pn
      else buckets
  end.

(** One round of [Split], up to the check for a further split: the table
    it leaves, the old bucket, and the page number and the content of the
    new bucket. *)
Record SplitRound := mkRound {
  sr_table : HashTable;
  sr_oldHash : Z;
  sr_newHash : Z;
  sr_old : HashBucket;
  sr_newPN : Z;
  sr_new : HashBucket
}.

Definition split_round (table : HashTable) (pn : Z) (bucket : HashBucket) (hash : Z)
    : SplitRound :=
  let oldHash := Z.rem hash (powInt 2 (bdepth bucket)) in
  let newHash := oldHash + powInt 2 (bdepth bucket) in
  let table1 := if bdepth bucket =? depth table then ExtendTable table else table in
  let bucket1 := mkBucket (bdepth bucket + 1) (entries bucket) in
  let table2 := write_bucket table1 pn bucket1 in
  let '(newPN, pager3) := NewHashBucket (pager table2) (bdepth bucket1) in
  let tmpEntries := entries bucket1 in
  let '(oldEntries, newEntries) :=
    move_entries newHash (bdepth bucket1) tmpEntries [] [] in
  let bucket2 := mkBucket (bdepth bucket1) oldEntries in
  let newBucket := mkBucket (bdepth bucket1) newEntries in
  let power := bdepth bucket2 in
  let buckets4 :=
    redirect (length (buckets table2)) (buckets table2) newHash
      (powInt 2 (depth table2)) (powInt 2 power) newPN in
  let table4 :=
    write_bucket (write_bucket (mkTable (depth table2) buckets4 pager3) pn bucket2)
      newPN newBucket in
  mkRound table4 oldHash newHash bucket2 newPN newBucket.

(** [table.Split], with a bound on the depth of the recursion: [None] when
    the bound is reached. *)
Fixpoint Split (fuel : nat) (table : HashTable) (pn : Z) (bucket : HashBucket)
    (hash : Z) : option (HashTable * error) :=
  match fuel with
  | O => None
  | S fuel' =>
      let r := split_round table pn bucket hash in
      if BUCKETSIZE <=? numKeys (sr_old r)
      then Split fuel' (sr_table r) pn (sr_old r) (sr_oldHash r)
      else if BUCKETSIZE <=? numKeys (sr_new r)
      then Split fuel' (sr_table r) (sr_newPN r) (sr_new r) (sr_newHash r)
      else Some (sr_table r, None)
  end.

(** [table.Insert]. *)
Definition Insert (fuel : nat) (table : HashTable) (k v : Z)
    : option (HashTable * error) :=
  let hash := Hasher k (depth table) in
  match GetBucket table hash with
  | inr err => Some (table, Some err)
  | inl (pn, bucket) =>
      let '(bucket1, split) := bucket_Insert bucket k v in
      let table1 := write_bucket table pn bucket1 in
      if negb split then Some (table1, None)
      else Split fuel table1 pn bucket1 hash
  end.

(** [table.Update] and [table.Delete]. *)
Definition Update (table : HashTable) (k v : Z) : HashTable * error :=
  let hash := Hasher k (depth table) in
  match GetBucket table hash with
  | inr err => (table, Some err)
  | inl (pn, bucket) =>
      let '(bucket1, err2) := bucket_Update bucket k v in
      (write_bucket table pn bucket1, err2)
  end.

Definition Delete (table : HashTable) (k : Z) : HashTable * error :=
  let hash := Hasher k (depth table) in
  match GetBucket table hash with
  | inr err => (table, Some err)
  | inl (pn, bucket) =>
      let '(bucket1, err2) := bucket_Delete bucket k in
      (write_bucket table pn bucket1, err2)
  end.

(** The calls on a table, and the tables reachable from a new one. *)
Inductive call := CallInsert (k v : Z) | CallUpdate (k v : Z) | CallDelete (k : Z).

Definition run_call (fuel : nat) (table : HashTable) (c : call)
    : option (HashTable * error) :=
  match c with
  | CallInsert k v => Insert fuel table k v
  | CallUpdate k v => Some (Update table k v)
  | CallDelete k => Some (Delete table k)
  end.

Inductive reachable : HashTable -> Prop :=
| reachable_new : reachable (NewHashTable empty_pager)
| reachable_call table c fuel table' err :
    reachable table -> run_call fuel table c = Some (table', err) ->
    reachable table'.

(** The table [table'] is reached from [table] by the calls [cs], each of
    which returned. *)
Inductive runs : HashTable -> list call -> HashTable -> Prop :=
| runs_nil table : runs table [] table
| runs_cons table c cs fuel table1 err table' :
    run_call fuel table c = Some (table1, err) ->
    runs table1 cs table' ->
    runs table (c :: cs) table'.

(** Does call [c] override the entry of key [k]? *)
Definition overrides (k : Z) (c : call) : Prop :=
  match c with
  | CallInsert _ _ => False
  | CallUpdate k' _ => k' = k
  | CallDelete k' => k' = k
  end.

(** The bucket that directory slot [i] points to. *)
Definition bucket_at (table : HashTable) (i : Z) : option HashBucket :=
  slot (buckets table) i ≫= fun pn => pages (pager table) !! pn.

(** The entries of key [k] in the bucket that [k] hashes to, in the order
    of the bucket. *)
Definition entries_for (table : HashTable) (k : Z) : list HashEntry :=
  match bucket_at table (Hasher k (depth table)) with
  | Some bucket => filter (fun e => key e = k) (entries bucket)
  | None => []
  end.


(** The invariant that the operations keep: the directory has [2^depth]
    slots; the pages from [maxPageNum] on are not allocated; a slot [i]
    points to a bucket of local depth [d] at most the global depth, the
    slots pointing to that bucket are those that agree with [i] modulo
    [2^d], and its keys hash to [i] modulo [2^d]. *)
Definition WF (table : HashTable) : Prop :=
  0 <= depth table /\
  Z.of_nat (length (buckets table)) = 2 ^ depth table /\
  (forall pn, maxPageNum (pager table) <= pn -> pages (pager table) !! pn = None) /\
  (forall i pn, slot (buckets table) i = Some pn ->
     exists b, pages (pager table) !! pn = Some b /\
       0 <= bdepth b <= depth table /\
       (forall j, 0 <= j < 2 ^ depth table ->
          (slot (buckets table) j = Some pn <->
           j mod 2 ^ bdepth b = i mod 2 ^ bdepth b)) /\
       (forall e, e ∈ entries b -> Hasher (key e) (bdepth b) = i mod 2 ^ bdepth b)).

(** ** Powers of two and directory slots *)

Lemma pow2_pos d : 0 <= d -> 0 < 2 ^ d.
Proof. intros. apply Z.pow_pos_nonneg; lia. Qed.

Lemma pow2_succ d : 0 <= d -> 2 ^ (d + 1) = 2 ^ d * 2.
Proof. intros. rewrite Z.pow_add_r by lia. lia. Qed.

Lemma pow2_le d D : 0 <= d <= D -> 2 ^ d <= 2 ^ D.
Proof. intros. apply Z.pow_le_mono_r; lia. Qed.

Lemma mod_pow2_mod x d D : 0 <= d <= D -> (x mod 2 ^ D) mod 2 ^ d = x mod 2 ^ d.
Proof.
  intros Hd. apply Z.mod_mod_divide.
  exists (2 ^ (D - d)). rewrite <- Z.pow_add_r by lia. f_equal. lia.
Qed.

Lemma mod_pow2_succ x d :
  0 <= d ->
  x mod 2 ^ (d + 1) = x mod 2 ^ d \/ x mod 2 ^ (d + 1) = x mod 2 ^ d + 2 ^ d.
Proof.
  intros Hd. pose proof (pow2_pos d Hd).
  rewrite pow2_succ by done. rewrite Z.rem_mul_r by lia.
  pose proof (Z.mod_pos_bound (x / 2 ^ d) 2 ltac:(lia)).
  assert ((x / 2 ^ d) mod 2 = 0 \/ (x / 2 ^ d) mod 2 = 1) as [->| ->] by lia; lia.
Qed.

Lemma mod_pow2_small x d : 0 <= d -> 0 <= x < 2 ^ d -> x mod 2 ^ d = x.
Proof. intros. by apply Z.mod_small. Qed.

Lemma slot_Some l i pn : slot l i = Some pn -> 0 <= i < Z.of_nat (length l).
Proof.
  unfold slot. destruct (i <? 0) eqn:E; [done|]. apply Z.ltb_ge in E.
  intros Hl%lookup_lt_Some. lia.
Qed.

Lemma slot_is_Some l i : 0 <= i < Z.of_nat (length l) -> is_Some (slot l i).
Proof.
  intros Hi. unfold slot. destruct (i <? 0) eqn:E; [apply Z.ltb_lt in E; lia|].
  apply lookup_lt_is_Some_2. lia.
Qed.

Lemma length_set_slot l i pn : length (set_slot l i pn) = length l.
Proof. apply length_insert. Qed.

Lemma slot_set_slot l i pn j :
  0 <= i < Z.of_nat (length l) ->
  slot (set_slot l i pn) j = if decide (i = j) then Some pn else slot l j.
Proof.
  intros Hi. unfold slot, set_slot. destruct (decide (i = j)) as [<-|Hne].
  - destruct (i <? 0) eqn:E; [apply Z.ltb_lt in E; lia|].
    apply list_lookup_insert_eq. lia.
  - destruct (j <? 0) eqn:E; [done|]. apply Z.ltb_ge in E.
    apply list_lookup_insert_ne. lia.
Qed.

Lemma slot_app_self l j :
  0 <= j < 2 * Z.of_nat (length l) ->
  slot (l ++ l) j = slot l (j mod Z.of_nat (length l)).
Proof.
  intros Hj. unfold slot.
  assert (Hpos : 0 < Z.of_nat (length l)) by lia.
  pose proof (Z.mod_pos_bound j _ Hpos) as Hb.
  destruct (j <? 0) eqn:E; [apply Z.ltb_lt in E; lia|].
  destruct (j mod Z.of_nat (length l) <? 0) eqn:E'; [apply Z.ltb_lt in E'; lia|].
  destruct (decide (j < Z.of_nat (length l))) as [Hlt|Hge].
  - rewrite Z.mod_small by lia. apply lookup_app_l. lia.
  - rewrite lookup_app_r by lia. f_equal.
    replace (j mod Z.of_nat (length l)) with (j - Z.of_nat (length l)); [lia|].
    apply Z.mod_unique with 1; lia.
Qed.

Lemma length_redirect n : forall l i bound step pn,
  length (redirect n l i bound step pn) = length l.
Proof.
  induction n as [|n IH]; intros; simpl; [done|].
  destruct (i <? bound); [|done]. by rewrite IH, length_set_slot.
Qed.

Lemma slot_redirect n bound step pn : forall l i j,
  0 <= i -> 0 < step -> bound <= Z.of_nat (length l) ->
  bound <= i + Z.of_nat n * step ->
  slot (redirect n l i bound step pn) j =
  if decide (i <= j < bound /\ (j - i) mod step = 0) then Some pn else slot l j.
Proof.
  induction n as [|n IH]; intros l i j Hi Hstep Hlen Hfuel; simpl.
  - destruct (decide _) as [[? ?]|]; [lia|done].
  - destruct (i <? bound) eqn:E.
    + apply Z.ltb_lt in E.
      rewrite IH by (rewrite ?length_set_slot; lia).
      rewrite slot_set_slot by lia.
      destruct (decide (i = j)) as [<-|Hne].
      * rewrite Z.sub_diag, Z.mod_0_l by lia.
        destruct (decide (i + step <= i < bound /\ _)) as [[? ?]|]; [lia|].
        destruct (decide (i <= i < bound /\ 0 = 0)) as [|Hn]; [done|]. lia.
      * assert (Hiff : (i + step <= j < bound /\ (j - (i + step)) mod step = 0)
                       <-> (i <= j < bound /\ (j - i) mod step = 0)).
        { replace (j - (i + step)) with (j - i + (-1) * step) by lia.
          rewrite Z.mod_add by lia. split; [intros [? ?]; split; [lia|done]|].
          intros [Hr Hm]. split; [|done].
          apply Z.mod_divide in Hm as [q Hq]; [|lia].
          assert (0 < q) by nia. nia. }
        destruct (decide (i + step <= j < bound /\ _)) as [Ha|Ha];
          destruct (decide (i <= j < bound /\ _)) as [Hb|Hb]; try done.
        -- by apply Hiff in Ha.
        -- by apply Hiff in Hb.
    + apply Z.ltb_ge in E.
      destruct (decide _) as [[? ?]|]; [lia|done].
Qed.

Lemma mod_eq_iff_stride step r j :
  0 < step -> 0 <= r < step -> 0 <= j ->
  (r <= j /\ (j - r) mod step = 0) <-> j mod step = r.
Proof.
  intros Hstep Hr Hj. split.
  - intros [Hle Hm]. apply Z.mod_divide in Hm as [q Hq]; [|lia].
    replace j with (r + q * step) by lia. rewrite Z.mod_add by lia.
    by apply Z.mod_small.
  - intros Hm. pose proof (Z.div_mod j step ltac:(lia)) as Hdm.
    rewrite Hm in Hdm.
    assert (0 <= j / step) by (apply Z.div_pos; lia).
    split; [nia|]. replace (j - r) with (0 + (j / step) * step) by lia.
    rewrite Z.mod_add by lia. apply Z.mod_0_l; lia.
Qed.

(** ** The loop that moves the entries *)

Lemma move_entries_filter newHash d l : forall old new,
  move_entries newHash d l old new =
  (old ++ filter (fun e => Hasher (key e) d <> newHash) l,
   new ++ filter (fun e => Hasher (key e) d = newHash) l).
Proof.
  induction l as [|e l IH]; intros old new; simpl.
  - by rewrite !app_nil_r.
  - destruct (Hasher (key e) d =? newHash) eqn:E.
    + apply Z.eqb_eq in E. rewrite IH.
      rewrite (filter_cons_False (fun e => Hasher (key e) d <> newHash)) by (intros ?; done).
      rewrite (filter_cons_True (fun e => Hasher (key e) d = newHash)) by done.
      by rewrite <- app_assoc.
    + apply Z.eqb_neq in E. rewrite IH.
      rewrite (filter_cons_True (fun e => Hasher (key e) d <> newHash)) by done.
      rewrite (filter_cons_False (fun e => Hasher (key e) d = newHash)) by done.
      by rewrite <- app_assoc.
Qed.

(** ** What one round of [Split] computes *)

Lemma WF_page_lt table i pn :
  WF table -> slot (buckets table) i = Some pn -> pn < maxPageNum (pager table).
Proof.
  intros (_ & _ & Hfresh & Hslots) Hi.
  destruct (Hslots _ _ Hi) as (b & Hb & _).
  destruct (decide (pn < maxPageNum (pager table))); [done|].
  rewrite Hfresh in Hb by lia. done.
Qed.

Lemma split_round_spec table pn bucket hash :
  WF table ->
  pages (pager table) !! pn = Some bucket ->
  slot (buckets table) hash = Some pn ->
  let r := split_round table pn bucket hash in
  let d := bdepth bucket in
  let newHash := hash mod 2 ^ d + 2 ^ d in
  let newPN := maxPageNum (pager table) in
  let D' := if d =? depth table then depth table + 1 else depth table in
  sr_oldHash r = hash mod 2 ^ d /\
  sr_newHash r = newHash /\
  sr_old r = mkBucket (d + 1) (filter (fun e => Hasher (key e) (d + 1) <> newHash) (entries bucket)) /\
  sr_new r = mkBucket (d + 1) (filter (fun e => Hasher (key e) (d + 1) = newHash) (entries bucket)) /\
  sr_newPN r = newPN /\
  depth (sr_table r) = D' /\
  Z.of_nat (length (buckets (sr_table r))) = 2 ^ D' /\
  maxPageNum (pager (sr_table r)) = newPN + 1 /\
  (forall q, pages (pager (sr_table r)) !! q =
     if decide (q = newPN) then Some (sr_new r)
     else if decide (q = pn) then Some (sr_old r)
     else pages (pager table) !! q) /\
  (forall j, 0 <= j < 2 ^ D' ->
     slot (buckets (sr_table r)) j =
     if decide (j mod 2 ^ (d + 1) = newHash) then Some newPN
     else slot (buckets table) (j mod 2 ^ depth table)).
Proof.
  intros HWF Hpn Hslot r d newHash newPN D'.
  pose proof (WF_page_lt _ _ _ HWF Hslot) as Hlt.
  destruct HWF as (HD & Hlen & Hfresh & Hslots).
  destruct (Hslots _ _ Hslot) as (b & Hb & Hd & Hsib & Hkeys).
  rewrite Hpn in Hb. injection Hb as <-. fold d in Hd, Hsib, Hkeys.
  pose proof (slot_Some _ _ _ Hslot) as Hrange.
  pose proof (pow2_pos d ltac:(lia)) as Hpd.
  assert (Hrem : Z.rem hash (2 ^ d) = hash mod 2 ^ d).
  { apply Z.rem_mod_nonneg; lia. }
  subst r. unfold split_round, NewHashBucket, powInt. simpl bdepth. fold d.
  rewrite move_entries_filter. simpl. rewrite Hrem. fold newHash.
  set (table1 := if d =? depth table then ExtendTable table else table).
  assert (Hp1 : pager table1 = pager table).
  { subst table1. by destruct (d =? depth table). }
  assert (HD' : depth table1 = D').
  { subst table1 D'. by destruct (d =? depth table). }
  assert (Hlen' : Z.of_nat (length (buckets table1)) = 2 ^ D').
  { subst table1 D'. destruct (d =? depth table); simpl; [|done].
    rewrite length_app, Nat2Z.inj_add, Hlen, pow2_succ by done. lia. }
  assert (HdD' : d + 1 <= D').
  { subst D'. destruct (d =? depth table) eqn:E; [apply Z.eqb_eq in E|apply Z.eqb_neq in E]; lia. }
  assert (Hslot' : forall j, 0 <= j < 2 ^ D' ->
     slot (buckets table1) j = slot (buckets table) (j mod 2 ^ depth table)).
  { intros j Hj. subst table1 D'. destruct (d =? depth table) eqn:E; simpl.
    - rewrite slot_app_self by (rewrite Hlen; rewrite pow2_succ in Hj by done; lia).
      by rewrite Hlen.
    - by rewrite Z.mod_small. }
  rewrite Hp1. fold newPN.
  split; [done|]. split; [done|]. split; [done|]. split; [done|].
  split; [done|].
  split; [done|].
  split; [by rewrite length_redirect|].
  split; [done|].
  split.
  - intros q.
    destruct (decide (q = newPN)) as [->|Hq]; [by rewrite lookup_insert_eq|].
    rewrite lookup_insert_ne by done.
    destruct (decide (q = pn)) as [->|Hq']; [by rewrite lookup_insert_eq|].
    by rewrite !lookup_insert_ne by done.
  - intros j Hj. rewrite HD'.
    pose proof (pow2_pos (d + 1) ltac:(lia)) as Hpd1.
    pose proof (pow2_le (d + 1) D' ltac:(lia)) as Hle.
    pose proof (pow2_succ d ltac:(lia)) as Hps.
    pose proof (Z.mod_pos_bound hash (2 ^ d) Hpd) as Hob.
    assert (HnH : 0 <= newHash < 2 ^ (d + 1)) by (subst newHash; lia).
    rewrite slot_redirect; [|lia|lia|lia|].
    + rewrite Hslot' by done.
      destruct (decide (newHash <= j < 2 ^ D' /\ _)) as [[Ha Hb]|Hn];
        destruct (decide (j mod 2 ^ (d + 1) = newHash)) as [Hm|Hm]; try done.
      * exfalso. apply Hm. apply mod_eq_iff_stride; [lia|lia|lia|].
        split; [lia|done].
      * exfalso. apply Hn.
        apply mod_eq_iff_stride in Hm; [|lia|lia|lia].
        destruct Hm. split; [lia|done].
    + rewrite Hlen'. assert (0 < 2 ^ D') by (apply pow2_pos; lia). nia.
Qed.

Lemma mod_pow2_succ_low x d r :
  0 <= d -> x mod 2 ^ d = r -> x mod 2 ^ (d + 1) <> r + 2 ^ d ->
  x mod 2 ^ (d + 1) = r.
Proof. intros Hd <- Hne. destruct (mod_pow2_succ x d Hd); [done|lia]. Qed.

Lemma mod_pow2_succ_inv x d r :
  0 <= d -> 0 <= r < 2 ^ d ->
  x mod 2 ^ (d + 1) = r \/ x mod 2 ^ (d + 1) = r + 2 ^ d ->
  x mod 2 ^ d = r.
Proof.
  intros Hd Hr Hx. rewrite <- (mod_pow2_mod x d (d + 1)) by lia.
  destruct Hx as [-> | ->].
  - by apply Z.mod_small.
  - replace (r + 2 ^ d) with (r + 1 * 2 ^ d) by lia.
    rewrite Z.mod_add by lia. by apply Z.mod_small.
Qed.

(** One round of [Split] keeps the invariant, and leaves the old and the
    new bucket at the slots that a further round is given. *)
Lemma split_round_WF table pn bucket hash :
  WF table ->
  pages (pager table) !! pn = Some bucket ->
  slot (buckets table) hash = Some pn ->
  let r := split_round table pn bucket hash in
  WF (sr_table r) /\
  pages (pager (sr_table r)) !! pn = Some (sr_old r) /\
  slot (buckets (sr_table r)) (sr_oldHash r) = Some pn /\
  pages (pager (sr_table r)) !! sr_newPN r = Some (sr_new r) /\
  slot (buckets (sr_table r)) (sr_newHash r) = Some (sr_newPN r).
Proof.
  intros HWF Hpn Hslot r.
  destruct (split_round_spec _ _ _ _ HWF Hpn Hslot)
    as (HoH & HnH & Hold & Hnew & HnPN & HD' & Hlen' & Hmax' & Hpages' & Hslots').
  fold r in HoH, HnH, Hold, Hnew, HnPN, HD', Hlen', Hmax', Hpages', Hslots'.
  pose proof (WF_page_lt _ _ _ HWF Hslot) as Hlt.
  pose proof HWF as (HD & Hlen & Hfresh & Hslots).
  destruct (Hslots _ _ Hslot) as (b & Hb & Hd & Hsib & Hkeys).
  rewrite Hpn in Hb. injection Hb as <-.
  set (d := bdepth bucket) in *. set (D := depth table) in *.
  set (oldHash := hash mod 2 ^ d) in *.
  set (newHash := oldHash + 2 ^ d) in *.
  set (newPN := maxPageNum (pager table)) in *.
  set (D' := if d =? D then D + 1 else D) in *.
  pose proof (pow2_pos d ltac:(lia)) as Hpd.
  pose proof (pow2_succ d ltac:(lia)) as Hps.
  assert (HDD' : D <= D' /\ d + 1 <= D').
  { subst D'. destruct (d =? D) eqn:E; [apply Z.eqb_eq in E|apply Z.eqb_neq in E]; lia. }
  pose proof (pow2_le (d + 1) D' ltac:(lia)) as Hle1.
  pose proof (pow2_le D D' ltac:(lia)) as Hle2.
  pose proof (pow2_pos D ltac:(lia)) as HpD.
  pose proof (Z.mod_pos_bound hash (2 ^ d) Hpd) as Hob. fold oldHash in Hob.
  assert (Hold_slot : slot (buckets (sr_table r)) oldHash = Some pn).
  { rewrite Hslots' by lia.
    rewrite (Z.mod_small oldHash (2 ^ (d + 1))) by lia.
    destruct (decide (oldHash = newHash)) as [?|_]; [lia|].
    pose proof (pow2_le d D ltac:(lia)).
    rewrite (Z.mod_small oldHash (2 ^ D)) by lia.
    apply Hsib; [lia|]. apply Z.mod_small; lia. }
  assert (Hnew_slot : slot (buckets (sr_table r)) newHash = Some newPN).
  { rewrite Hslots' by lia.
    rewrite (Z.mod_small newHash (2 ^ (d + 1))) by lia.
    by destruct (decide (newHash = newHash)). }
  assert (Hpn_ne : pn <> newPN) by lia.
  split; [|split; [|split; [|split]]].
  2:{ rewrite Hpages'. destruct (decide (pn = newPN)); [done|].
      by destruct (decide (pn = pn)). }
  2:{ by rewrite HoH. }
  2:{ rewrite Hpages', HnPN. by destruct (decide (newPN = newPN)). }
  2:{ by rewrite HnH, HnPN. }
  unfold WF. rewrite HD', Hlen', Hmax'.
  split; [lia|]. split; [done|]. split.
  { intros q Hq. rewrite Hpages'.
    destruct (decide (q = newPN)); [lia|]. destruct (decide (q = pn)); [lia|].
    apply Hfresh. lia. }
  intros i q Hi.
  assert (Hri : 0 <= i < 2 ^ D') by (apply slot_Some in Hi; lia).
  rewrite Hslots' in Hi by done.
  assert (Hi0 : 0 <= i mod 2 ^ D < 2 ^ D) by (apply Z.mod_pos_bound; lia).
  destruct (decide (i mod 2 ^ (d + 1) = newHash)) as [HiN|HiN].
  - (* the slot has been redirected to the new bucket *)
    injection Hi as <-. exists (sr_new r).
    split; [rewrite Hpages'; by destruct (decide (newPN = newPN))|].
    rewrite Hnew; simpl. split; [lia|]. split.
    + intros j Hj. rewrite Hslots' by done. rewrite HiN.
      destruct (decide (j mod 2 ^ (d + 1) = newHash)) as [HjN|HjN]; [done|].
      split; [|done]. intros Hj'.
      pose proof (WF_page_lt _ _ _ HWF Hj'). lia.
    + intros e [He _]%list_elem_of_filter. by rewrite HiN.
  - destruct (Hslots _ _ Hi) as (b0 & Hb0 & Hd0 & Hsib0 & Hkeys0).
    pose proof (WF_page_lt _ _ _ HWF Hi) as Hq.
    destruct (decide (q = pn)) as [->|Hqpn].
    + (* the slot stays with the old bucket *)
      rewrite Hpn in Hb0. injection Hb0 as <-.
      assert (Hid : i mod 2 ^ d = oldHash).
      { rewrite <- (mod_pow2_mod i d D) by lia. apply Hsib; [done|done]. }
      assert (HiO : i mod 2 ^ (d + 1) = oldHash)
        by (apply mod_pow2_succ_low; [lia|done|done]).
      exists (sr_old r).
      split; [rewrite Hpages'; destruct (decide (pn = newPN)); [done|];
              by destruct (decide (pn = pn))|].
      rewrite Hold; simpl. split; [lia|]. split.
      * intros j Hj. rewrite Hslots' by done. rewrite HiO.
        assert (Hj0 : 0 <= j mod 2 ^ D < 2 ^ D) by (apply Z.mod_pos_bound; lia).
        destruct (decide (j mod 2 ^ (d + 1) = newHash)) as [HjN|HjN].
        -- split; [intros [= ?]; lia|lia].
        -- rewrite (Hsib _ Hj0). rewrite mod_pow2_mod by lia. fold oldHash.
           split.
           ++ intros Hjd. apply mod_pow2_succ_low; [lia|done|done].
           ++ intros HjO. apply mod_pow2_succ_inv; [lia|lia|by left].
      * intros e [He Hin]%list_elem_of_filter. rewrite HiO.
        apply mod_pow2_succ_low; [lia| |done].
        apply (Hkeys _ Hin).
    + (* the slot points to another bucket *)
      exists b0.
      split; [rewrite Hpages'; destruct (decide (q = newPN)); [lia|];
              by destruct (decide (q = pn))|].
      split; [lia|]. split.
      * intros j Hj. rewrite Hslots' by done.
        assert (Hj0 : 0 <= j mod 2 ^ D < 2 ^ D) by (apply Z.mod_pos_bound; lia).
        rewrite <- (mod_pow2_mod i (bdepth b0) D) by lia.
        rewrite <- (mod_pow2_mod j (bdepth b0) D) by lia.
        destruct (decide (j mod 2 ^ (d + 1) = newHash)) as [HjN|HjN].
        -- split; [intros [= ?]; lia|]. intros Hjq.
           apply (Hsib0 _ Hj0) in Hjq.
           assert (Hjp : slot (buckets table) (j mod 2 ^ D) = Some pn).
           { apply Hsib; [done|]. rewrite mod_pow2_mod by lia. fold oldHash.
             apply mod_pow2_succ_inv; [lia|lia|by right]. }
           congruence.
        -- apply Hsib0. done.
      * intros e He. rewrite <- (mod_pow2_mod i (bdepth b0) D) by lia.
        by apply Hkeys0.
Qed.

(** ** The entries of a key *)

Lemma filter_filter_implied {A} (P Q : A -> Prop)
    `{!forall x, Decision (P x)} `{!forall x, Decision (Q x)} (l : list A) :
  (forall x, x ∈ l -> P x -> Q x) -> filter P (filter Q l) = filter P l.
Proof.
  induction l as [|x l IH]; intros Himp; [done|].
  assert (Hl : forall y, y ∈ l -> P y -> Q y) by (intros y Hy; apply Himp; by right).
  destruct (decide (Q x)) as [HQ|HQ].
  - rewrite (filter_cons_True Q) by done.
    destruct (decide (P x)) as [HP|HP].
    + rewrite !(filter_cons_True P) by done. by rewrite IH.
    + rewrite !(filter_cons_False P) by done. by rewrite IH.
  - rewrite (filter_cons_False Q) by done.
    rewrite (filter_cons_False P); [by rewrite IH|].
    intros HP. apply HQ, Himp; [apply list_elem_of_here|done].
Qed.

Lemma Hasher_range k d : 0 <= d -> 0 <= Hasher k d < 2 ^ d.
Proof. intros Hd. apply Z.mod_pos_bound, pow2_pos, Hd. Qed.

Lemma Hasher_mod k d D : 0 <= d <= D -> Hasher k D mod 2 ^ d = Hasher k d.
Proof. intros Hd. unfold Hasher, powInt. by apply mod_pow2_mod. Qed.

Lemma WF_slot table i :
  WF table -> 0 <= i < 2 ^ depth table ->
  exists pn b, slot (buckets table) i = Some pn /\
               pages (pager table) !! pn = Some b.
Proof.
  intros (HD & Hlen & Hfresh & Hslots) Hi.
  destruct (slot_is_Some (buckets table) i ltac:(lia)) as [pn Hpn].
  destruct (Hslots _ _ Hpn) as (b & Hb & _). eauto.
Qed.

Lemma split_round_entries_for table pn bucket hash k :
  WF table ->
  pages (pager table) !! pn = Some bucket ->
  slot (buckets table) hash = Some pn ->
  entries_for (sr_table (split_round table pn bucket hash)) k = entries_for table k.
Proof.
  intros HWF Hpn Hslot.
  destruct (split_round_spec _ _ _ _ HWF Hpn Hslot)
    as (HoH & HnH & Hold & Hnew & HnPN & HD' & Hlen' & Hmax' & Hpages' & Hslots').
  set (r := split_round table pn bucket hash) in *.
  pose proof (WF_page_lt _ _ _ HWF Hslot) as Hlt.
  pose proof HWF as (HD & Hlen & Hfresh & Hslots).
  destruct (Hslots _ _ Hslot) as (b & Hb & Hd & Hsib & Hkeys).
  rewrite Hpn in Hb. injection Hb as <-.
  set (d := bdepth bucket) in *. set (D := depth table) in *.
  set (oldHash := hash mod 2 ^ d) in *.
  set (newHash := oldHash + 2 ^ d) in *.
  set (newPN := maxPageNum (pager table)) in *.
  set (D' := if d =? D then D + 1 else D) in *.
  pose proof (pow2_pos d ltac:(lia)) as Hpd.
  assert (HDD' : D <= D' /\ d + 1 <= D').
  { subst D'. destruct (d =? D) eqn:E; [apply Z.eqb_eq in E|apply Z.eqb_neq in E]; lia. }
  pose proof (Z.mod_pos_bound hash (2 ^ d) Hpd) as Hob. fold oldHash in Hob.
  pose proof (Hasher_range k D' ltac:(lia)) as Hh'.
  pose proof (Hasher_range k D ltac:(lia)) as Hh.
  unfold entries_for, bucket_at. rewrite HD'. fold D.
  rewrite Hslots' by done.
  rewrite (Hasher_mod k D D') by lia.
  rewrite (Hasher_mod k (d + 1) D') by lia.
  destruct (WF_slot _ _ HWF Hh) as (q & b0 & Hq & Hb0).
  pose proof (WF_page_lt _ _ _ HWF Hq) as Hqlt.
  rewrite Hq. simpl. rewrite Hb0.
  destruct (decide (Hasher k (d + 1) = newHash)) as [HkN|HkN]; simpl.
  - rewrite Hpages'. destruct (decide (newPN = newPN)); [|done].
    assert (q = pn) as ->.
    { assert (Hqp : slot (buckets table) (Hasher k D) = Some pn).
      { apply Hsib; [done|]. rewrite Hasher_mod by lia. fold oldHash.
        unfold Hasher, powInt in *.
        apply mod_pow2_succ_inv; [lia|lia|by right]. }
      congruence. }
    rewrite Hpn in Hb0. injection Hb0 as <-.
    rewrite Hnew; simpl. apply filter_filter_implied.
    intros x _ <-. done.
  - rewrite Hpages'. destruct (decide (q = newPN)); [lia|].
    destruct (decide (q = pn)) as [->|Hqpn]; [|by rewrite Hb0].
    rewrite Hpn in Hb0. injection Hb0 as <-.
    rewrite Hold; simpl. apply filter_filter_implied.
    intros x _ <-. done.
Qed.

(** [Split], when it returns, returns no error, keeps the invariant and
    keeps the entries of every key. *)
Lemma Split_spec fuel : forall table pn bucket hash table' err,
  WF table ->
  pages (pager table) !! pn = Some bucket ->
  slot (buckets table) hash = Some pn ->
  Split fuel table pn bucket hash = Some (table', err) ->
  WF table' /\ err = None /\ forall k, entries_for table' k = entries_for table k.
Proof.
  induction fuel as [|fuel IH]; intros table pn bucket hash table' err HWF Hpn Hslot;
    simpl; [done|].
  destruct (split_round_WF _ _ _ _ HWF Hpn Hslot) as (HWF' & Ho & Hos & Hn & Hns).
  pose proof (fun k => split_round_entries_for _ _ _ _ k HWF Hpn Hslot) as Hent.
  set (r := split_round table pn bucket hash) in *.
  destruct (BUCKETSIZE <=? numKeys (sr_old r)).
  - intros HS. destruct (IH _ _ _ _ _ _ HWF' Ho Hos HS) as (? & ? & He).
    split; [done|]. split; [done|]. intros k. by rewrite He.
  - destruct (BUCKETSIZE <=? numKeys (sr_new r)).
    + intros HS. destruct (IH _ _ _ _ _ _ HWF' Hn Hns HS) as (? & ? & He).
      split; [done|]. split; [done|]. intros k. by rewrite He.
    + intros [= <- <-]. done.
Qed.

(** ** The calls keep the invariant *)

Lemma NewHashTable_eq :
  NewHashTable empty_pager =
  mkTable 2 [0; 1; 2; 3]
    (mkPager (<[3 := mkBucket 2 []]> (<[2 := mkBucket 2 []]>
               (<[1 := mkBucket 2 []]> (<[0 := mkBucket 2 []]> ∅)))) 4).
Proof. reflexivity. Qed.

Lemma WF_NewHashTable : WF (NewHashTable empty_pager).
Proof.
  rewrite NewHashTable_eq. unfold WF; simpl.
  split; [lia|]. split; [done|]. split.
  { intros pn Hpn. rewrite !lookup_insert_ne by lia. done. }
  intros i pn Hi. pose proof (slot_Some _ _ _ Hi) as Hr. simpl in Hr.
  exists (mkBucket 2 []). simpl.
  assert (Hcases : i = 0 \/ i = 1 \/ i = 2 \/ i = 3) by lia.
  assert (Hpn : pn = i).
  { destruct Hcases as [->|[->|[->| ->]]]; vm_compute in Hi; congruence. }
  subst pn.
  split; [destruct Hcases as [->|[->|[->| ->]]]; reflexivity|].
  split; [lia|]. split; [|intros e []%elem_of_nil].
  intros j Hj. assert (Hj' : j = 0 \/ j = 1 \/ j = 2 \/ j = 3) by lia.
  destruct Hcases as [->|[->|[->| ->]]]; destruct Hj' as [->|[->|[->| ->]]];
    vm_compute; split; congruence.
Qed.

Lemma WF_write_bucket table i pn bucket bucket' :
  WF table ->
  slot (buckets table) i = Some pn ->
  pages (pager table) !! pn = Some bucket ->
  bdepth bucket' = bdepth bucket ->
  (forall e, e ∈ entries bucket' ->
     Hasher (key e) (bdepth bucket) = i mod 2 ^ bdepth bucket) ->
  WF (write_bucket table pn bucket').
Proof.
  intros (HD & Hlen & Hfresh & Hslots) Hi Hpn Hdepth Hkeys'.
  pose proof (WF_page_lt table i pn ltac:(done) Hi) as Hlt.
  unfold WF, write_bucket; simpl.
  split; [done|]. split; [done|]. split.
  { intros q Hq. rewrite lookup_insert_ne by lia. by apply Hfresh. }
  intros i' q Hi'. destruct (Hslots _ _ Hi') as (b & Hb & Hd & Hsib & Hkeys).
  destruct (decide (q = pn)) as [->|Hne].
  - exists bucket'. rewrite lookup_insert_eq. split; [done|].
    rewrite Hpn in Hb. injection Hb as <-. rewrite Hdepth.
    split; [done|]. split; [done|].
    intros e He. rewrite (Hkeys' _ He).
    apply Hsib; [|done]. apply slot_Some in Hi. lia.
  - exists b. rewrite lookup_insert_ne by done. done.
Qed.

Lemma entries_for_write_bucket table pn bucket' k :
  entries_for (write_bucket table pn bucket') k =
  if decide (slot (buckets table) (Hasher k (depth table)) = Some pn)
  then filter (fun e => key e = k) (entries bucket')
  else entries_for table k.
Proof.
  unfold entries_for, bucket_at, write_bucket; simpl.
  destruct (slot (buckets table) (Hasher k (depth table))) as [q|]; simpl.
  - destruct (decide (Some q = Some pn)) as [[= ->]|Hne].
    + by rewrite lookup_insert_eq.
    + rewrite lookup_insert_ne; [done|]. congruence.
  - by destruct (decide (None = Some pn)).
Qed.

(** [Find] returns the first entry of the key. *)
Lemma Find_entries_for table k :
  WF table ->
  Find table k = match head (entries_for table k) with
                 | Some entry => inl entry
                 | None => inr "not found"%string
                 end.
Proof.
  intros HWF. pose proof HWF as (HD & Hlen & _).
  pose proof (Hasher_range k (depth table) HD) as Hh.
  destruct (WF_slot _ _ HWF Hh) as (pn & b & Hpn & Hb).
  unfold Find, GetBucket, entries_for, bucket_at, bucket_Find.
  rewrite Hpn; simpl. rewrite Hb.
  destruct (Hasher k (depth table) <? 0) eqn:E1; [apply Z.ltb_lt in E1; lia|].
  destruct (Z.of_nat (length (buckets table)) <=? Hasher k (depth table)) eqn:E2;
    [apply Z.leb_le in E2; lia|].
  done.
Qed.

Lemma WF_GetBucket table k :
  WF table ->
  exists pn bucket,
    GetBucket table (Hasher k (depth table)) = inl (pn, bucket) /\
    slot (buckets table) (Hasher k (depth table)) = Some pn /\
    pages (pager table) !! pn = Some bucket /\
    entries_for table k = filter (fun e => key e = k) (entries bucket) /\
    0 <= bdepth bucket <= depth table /\
    (forall e, e ∈ entries bucket ->
       Hasher (key e) (bdepth bucket) = Hasher k (bdepth bucket)).
Proof.
  intros HWF. pose proof HWF as (HD & Hlen & _ & Hslots).
  pose proof (Hasher_range k (depth table) HD) as Hh.
  destruct (WF_slot _ _ HWF Hh) as (pn & b & Hpn & Hb).
  exists pn, b. unfold GetBucket, entries_for, bucket_at. rewrite Hpn; simpl. rewrite Hb.
  destruct (Hslots _ _ Hpn) as (b' & Hb' & Hd & _ & Hkeys).
  rewrite Hb in Hb'. injection Hb' as <-.
  repeat split; try done; try lia.
  intros e He. rewrite (Hkeys _ He). by apply Hasher_mod.
Qed.

Lemma update_first_spec k v es es' :
  update_first k v es = Some es' ->
  (exists e rest, filter (fun e => key e = k) es = e :: rest /\
                  filter (fun e => key e = k) es' = mkEntry k v :: rest) /\
  (forall k', k' <> k ->
     filter (fun e => key e = k') es' = filter (fun e => key e = k') es) /\
  (forall e', e' ∈ es' -> exists e, e ∈ es /\ key e' = key e).
Proof.
  revert es'. induction es as [|e es IH]; intros es'; simpl; [done|].
  destruct (decide (key e = k)) as [Hk|Hk].
  - intros [= <-]. split; [|split].
    + exists e, (filter (fun e => key e = k) es).
      by rewrite !filter_cons_True.
    + intros k' Hk'. rewrite !filter_cons_False; [done|congruence|simpl; congruence].
    + intros e' [->|He']%elem_of_cons.
      * exists e. split; [apply list_elem_of_here|done].
      * exists e'. split; [by right|done].
  - destruct (update_first k v es) as [es1|]; simpl; [|done].
    intros [= <-]. destruct (IH _ eq_refl) as ((e0 & rest & Hf & Hf') & Hother & Hsub).
    split; [|split].
    + exists e0, rest. by rewrite !filter_cons_False.
    + intros k' Hk'. rewrite !filter_cons. by rewrite Hother.
    + intros e' [->|He']%elem_of_cons.
      * exists e. split; [apply list_elem_of_here|done].
      * destruct (Hsub _ He') as (e1 & ? & ?). exists e1. split; [by right|done].
Qed.

Lemma delete_first_spec k es es' :
  delete_first k es = Some es' ->
  (exists e, filter (fun e => key e = k) es = e :: filter (fun e => key e = k) es') /\
  (forall k', k' <> k ->
     filter (fun e => key e = k') es' = filter (fun e => key e = k') es) /\
  (forall e', e' ∈ es' -> e' ∈ es).
Proof.
  revert es'. induction es as [|e es IH]; intros es'; simpl; [done|].
  destruct (decide (key e = k)) as [Hk|Hk].
  - intros [= <-]. split; [|split].
    + exists e. by rewrite filter_cons_True.
    + intros k' Hk'. rewrite filter_cons_False; [done|congruence].
    + intros e' He'. by right.
  - destruct (delete_first k es) as [es1|]; simpl; [|done].
    intros [= <-]. destruct (IH _ eq_refl) as ((e0 & Hf) & Hother & Hsub).
    split; [|split].
    + exists e0. by rewrite !filter_cons_False.
    + intros k' Hk'. rewrite !filter_cons. by rewrite Hother.
    + intros e' [->|He']%elem_of_cons; [apply list_elem_of_here|right; auto].
Qed.

(** [Insert], when it returns, returns no error, keeps the invariant,
    appends the entry to the entries of its key and leaves the entries of
    the other keys as they were. *)
Lemma Insert_spec fuel table k v table' err :
  WF table ->
  Insert fuel table k v = Some (table', err) ->
  WF table' /\ err = None /\
  entries_for table' k = entries_for table k ++ [mkEntry k v] /\
  (forall k', k' <> k -> entries_for table' k' = entries_for table k').
Proof.
  intros HWF.
  destruct (WF_GetBucket table k HWF) as (pn & bucket & HGet & Hslot & Hpn & Hent & Hd & Hkeys).
  unfold Insert. rewrite HGet. unfold bucket_Insert.
  set (bucket1 := mkBucket (bdepth bucket) (entries bucket ++ [mkEntry k v])).
  set (table1 := write_bucket table pn bucket1).
  assert (HWF1 : WF table1).
  { apply (WF_write_bucket table (Hasher k (depth table)) pn bucket); try done.
    intros e He. rewrite Hasher_mod by done.
    apply elem_of_app in He as [He|He]; [by apply Hkeys|].
    apply list_elem_of_singleton in He as ->. done. }
  assert (Hk1 : entries_for table1 k = entries_for table k ++ [mkEntry k v]).
  { subst table1. rewrite entries_for_write_bucket.
    destruct (decide _) as [_|Hn]; [|done].
    subst bucket1; simpl. rewrite filter_app, Hent.
    by rewrite filter_cons_True. }
  assert (Hk1' : forall k', k' <> k -> entries_for table1 k' = entries_for table k').
  { intros k' Hne. subst table1. rewrite entries_for_write_bucket.
    destruct (decide _) as [Hs|Hn]; [|done].
    subst bucket1; simpl. rewrite filter_app.
    rewrite filter_cons_False by (simpl; congruence).
    rewrite filter_nil, app_nil_r.
    unfold entries_for, bucket_at. rewrite Hs; simpl. by rewrite Hpn. }
  destruct (negb (BUCKETSIZE <=? numKeys bucket1)).
  - intros [= <- <-]. done.
  - intros HS.
    assert (Hpn1 : pages (pager table1) !! pn = Some bucket1).
    { subst table1. unfold write_bucket; simpl. apply lookup_insert_eq. }
    destruct (Split_spec _ _ _ _ _ _ _ HWF1 Hpn1 Hslot HS) as (? & ? & He).
    split; [done|]. split; [done|]. split.
    + by rewrite He.
    + intros k' Hne. rewrite He. by apply Hk1'.
Qed.

(** [Update] and [Delete] keep the invariant and the entries of the other
    keys. *)
Lemma Update_spec table k v table' err :
  WF table ->
  Update table k v = (table', err) ->
  WF table' /\
  (forall k', k' <> k -> entries_for table' k' = entries_for table k') /\
  match err with
  | None => exists e rest, entries_for table k = e :: rest /\
                           entries_for table' k = mkEntry k v :: rest
  | Some _ => entries_for table' k = entries_for table k
  end.
Proof.
  intros HWF.
  destruct (WF_GetBucket table k HWF) as (pn & bucket & HGet & Hslot & Hpn & Hent & Hd & Hkeys).
  unfold Update. rewrite HGet. unfold bucket_Update.
  destruct (update_first k v (entries bucket)) as [es|] eqn:Eu.
  - intros [= <- <-].
    destruct (update_first_spec _ _ _ _ Eu) as ((e0 & rest & Hf & Hf') & Hother & Hsub).
    split; [|split].
    + apply (WF_write_bucket table (Hasher k (depth table)) pn bucket); try done.
      simpl. intros e He. rewrite Hasher_mod by done.
      destruct (Hsub _ He) as (e1 & He1 & ->). by apply Hkeys.
    + intros k' Hne. rewrite entries_for_write_bucket.
      destruct (decide _) as [Hs|Hn]; [|done]. simpl. rewrite Hother by done.
      unfold entries_for, bucket_at. rewrite Hs; simpl. by rewrite Hpn.
    + exists e0, rest. rewrite entries_for_write_bucket.
      destruct (decide _) as [_|Hn]; [|done]. simpl. by rewrite Hent.
  - intros [= <- <-].
    assert (Hsame : forall k', entries_for (write_bucket table pn bucket) k' = entries_for table k').
    { intros k'. rewrite entries_for_write_bucket.
      destruct (decide _) as [Hs|Hn]; [|done].
      unfold entries_for, bucket_at. rewrite Hs; simpl. by rewrite Hpn. }
    split; [|split; [|done]].
    + apply (WF_write_bucket table (Hasher k (depth table)) pn bucket); try done.
      intros e He. rewrite Hasher_mod by done. by apply Hkeys.
    + intros k' _. apply Hsame.
Qed.

Lemma Delete_spec table k table' err :
  WF table ->
  Delete table k = (table', err) ->
  WF table' /\
  (forall k', k' <> k -> entries_for table' k' = entries_for table k') /\
  match err with
  | None => exists e, entries_for table k = e :: entries_for table' k
  | Some _ => entries_for table' k = entries_for table k
  end.
Proof.
  intros HWF.
  destruct (WF_GetBucket table k HWF) as (pn & bucket & HGet & Hslot & Hpn & Hent & Hd & Hkeys).
  unfold Delete. rewrite HGet. unfold bucket_Delete.
  destruct (delete_first k (entries bucket)) as [es|] eqn:Eu.
  - intros [= <- <-].
    destruct (delete_first_spec _ _ _ Eu) as ((e0 & Hf) & Hother & Hsub).
    split; [|split].
    + apply (WF_write_bucket table (Hasher k (depth table)) pn bucket); try done.
      simpl. intros e He. rewrite Hasher_mod by done. by apply Hkeys, Hsub.
    + intros k' Hne. rewrite entries_for_write_bucket.
      destruct (decide _) as [Hs|Hn]; [|done]. simpl. rewrite Hother by done.
      unfold entries_for, bucket_at. rewrite Hs; simpl. by rewrite Hpn.
    + exists e0. rewrite entries_for_write_bucket.
      destruct (decide _) as [_|Hn]; [|done]. simpl. by rewrite Hent.
  - intros [= <- <-].
    assert (Hsame : forall k', entries_for (write_bucket table pn bucket) k' = entries_for table k').
    { intros k'. rewrite entries_for_write_bucket.
      destruct (decide _) as [Hs|Hn]; [|done].
      unfold entries_for, bucket_at. rewrite Hs; simpl. by rewrite Hpn. }
    split; [|split; [|done]].
    + apply (WF_write_bucket table (Hasher k (depth table)) pn bucket); try done.
      intros e He. rewrite Hasher_mod by done. by apply Hkeys.
    + intros k' _. apply Hsame.
Qed.

Lemma WF_run_call fuel table c table' err :
  WF table -> run_call fuel table c = Some (table', err) -> WF table'.
Proof.
  intros HWF. destruct c as [k v|k v|k]; simpl.
  - intros HI. by destruct (Insert_spec _ _ _ _ _ _ HWF HI).
  - intros [= HU]. by destruct (Update_spec _ _ _ _ _ HWF HU).
  - intros [= HU]. by destruct (Delete_spec _ _ _ _ HWF HU).
Qed.

Lemma WF_reachable table : reachable table -> WF table.
Proof.
  induction 1 as [|table c fuel table' err _ IH Hrun].
  - apply WF_NewHashTable.
  - by apply (WF_run_call _ _ _ _ _ IH Hrun).
Qed.

Lemma runs_keep_first k e cs : forall table rest table',
  WF table ->
  entries_for table k = e :: rest ->
  runs table cs table' ->
  Forall (fun c => ~ overrides k c) cs ->
  WF table' /\ exists rest', entries_for table' k = e :: rest'.
Proof.
  induction cs as [|c cs IH]; intros table rest table' HWF Hent Hruns Hcs.
  - inversion Hruns; subst. eauto.
  - inversion Hruns as [|? ? ? fuel table1 err ? Hrun Hruns']; subst.
    apply Forall_cons in Hcs as [Hc Hcs].
    pose proof (WF_run_call _ _ _ _ _ HWF Hrun) as HWF1.
    assert (Hent1 : exists rest1, entries_for table1 k = e :: rest1).
    { destruct c as [k' v'|k' v'|k']; simpl in Hrun, Hc.
      - destruct (Insert_spec _ _ _ _ _ _ HWF Hrun) as (_ & _ & Hsame & Hother).
        destruct (decide (k' = k)) as [->|Hne].
        + rewrite Hsame, Hent. by exists (rest ++ [mkEntry k v']).
        + rewrite Hother by done. eauto.
      - injection Hrun as Hrun.
        destruct (Update_spec _ _ _ _ _ HWF Hrun) as (_ & Hother & _).
        rewrite Hother by (intros ->; done). eauto.
      - injection Hrun as Hrun.
        destruct (Delete_spec _ _ _ _ HWF Hrun) as (_ & Hother & _).
        rewrite Hother by (intros ->; done). eauto. }
    destruct Hent1 as [rest1 Hent1]. by apply (IH table1 rest1).
Qed.

(** ** Extending the directory, and the home slot of an entry *)

Lemma slot_ExtendTable table j :
  WF table -> 0 <= j < 2 ^ (depth table + 1) ->
  slot (buckets (ExtendTable table)) j = slot (buckets table) (j mod 2 ^ depth table).
Proof.
  intros (HD & Hlen & _) Hj. simpl.
  rewrite slot_app_self by (rewrite Hlen; rewrite pow2_succ in Hj by done; lia).
  by rewrite Hlen.
Qed.

Lemma WF_ExtendTable table : WF table -> WF (ExtendTable table).
Proof.
  intros HWF. pose proof HWF as (HD & Hlen & Hfresh & Hslots).
  pose proof (pow2_pos (depth table) HD) as HpD.
  unfold WF. simpl depth. simpl pager.
  split; [lia|]. split.
  { simpl. rewrite length_app, Nat2Z.inj_add, Hlen, pow2_succ by done. lia. }
  split; [done|].
  intros i pn Hi.
  assert (Hri : 0 <= i < 2 ^ (depth table + 1)).
  { apply slot_Some in Hi. simpl in Hi.
    rewrite length_app, Nat2Z.inj_add, Hlen in Hi. rewrite pow2_succ by done. lia. }
  rewrite slot_ExtendTable in Hi by done.
  destruct (Hslots _ _ Hi) as (b & Hb & Hd & Hsib & Hkeys).
  exists b. split; [done|]. split; [lia|]. split.
  - intros j Hj. rewrite slot_ExtendTable by done.
    rewrite Hsib by (apply Z.mod_pos_bound; lia).
    by rewrite !mod_pow2_mod by lia.
  - intros e He. rewrite (Hkeys _ He). by rewrite mod_pow2_mod by lia.
Qed.

Lemma entries_for_ExtendTable table k :
  WF table -> entries_for (ExtendTable table) k = entries_for table k.
Proof.
  intros HWF. pose proof HWF as (HD & _).
  unfold entries_for, bucket_at.
  rewrite slot_ExtendTable by (try done; simpl; apply Hasher_range; lia).
  simpl depth. by rewrite Hasher_mod by lia.
Qed.

(** An entry stored in a bucket of the directory is in the bucket that its
    key hashes to. *)
Lemma WF_home table i pn b e :
  WF table ->
  slot (buckets table) i = Some pn ->
  pages (pager table) !! pn = Some b ->
  e ∈ entries b ->
  slot (buckets table) (Hasher (key e) (depth table)) = Some pn.
Proof.
  intros (HD & Hlen & Hfresh & Hslots) Hi Hb He.
  destruct (Hslots _ _ Hi) as (b' & Hb' & Hd & Hsib & Hkeys).
  rewrite Hb in Hb'. injection Hb' as <-.
  apply Hsib; [by apply Hasher_range|].
  rewrite Hasher_mod by done. by apply Hkeys.
Qed.

Lemma elem_of_entries_for table e :
  e ∈ entries_for table (key e) <->
  exists pn b, slot (buckets table) (Hasher (key e) (depth table)) = Some pn /\
               pages (pager table) !! pn = Some b /\ e ∈ entries b.
Proof.
  unfold entries_for, bucket_at.
  destruct (slot (buckets table) (Hasher (key e) (depth table))) as [pn|]; simpl.
  - destruct (pages (pager table) !! pn) as [b|] eqn:Eb.
    + rewrite list_elem_of_filter. split.
      * intros [_ He]. eauto.
      * intros (pn' & b' & Hpn' & Hb' & He). injection Hpn' as <-.
        rewrite Eb in Hb'. injection Hb' as <-. done.
    + split; [intros []%elem_of_nil|].
      intros (pn' & b' & Hpn' & Hb' & _). injection Hpn' as <-. congruence.
  - split; [intros []%elem_of_nil|]. intros (pn' & b' & [=] & _).
Qed.

(** When no key has two entries, the keys of a bucket are distinct. *)
Lemma NoDup_keys_of_filter (es : list HashEntry) :
  (forall k, (length (filter (fun e => key e = k) es) <= 1)%nat) ->
  NoDup (key <$> es).
Proof.
  induction es as [|e es IH]; intros Hone; simpl; [constructor|].
  constructor.
  - intros [e' [Hk He']]%list_elem_of_fmap.
    specialize (Hone (key e)). rewrite filter_cons_True in Hone by done.
    assert (Hin : e' ∈ filter (fun x => key x = key e) es)
      by (by apply list_elem_of_filter).
    destruct (filter (fun x => key x = key e) es); [by apply elem_of_nil in Hin|].
    simpl in Hone. lia.
  - apply IH. intros k. specialize (Hone k).
    rewrite filter_cons in Hone. destruct (decide (key e = k)); simpl in Hone; lia.
Qed.

Lemma WF_bucket_NoDup_keys table i pn b :
  WF table ->
  (forall k, (length (entries_for table k) <= 1)%nat) ->
  slot (buckets table) i = Some pn ->
  pages (pager table) !! pn = Some b ->
  NoDup (key <$> entries b).
Proof.
  intros HWF Hone Hi Hb. apply NoDup_keys_of_filter. intros k.
  destruct (filter (fun e => key e = k) (entries b)) as [|e rest] eqn:Ef; [simpl; lia|].
  assert (He : e ∈ filter (fun e => key e = k) (entries b)) by (rewrite Ef; apply list_elem_of_here).
  apply list_elem_of_filter in He as [Hk He].
  pose proof (WF_home _ _ _ _ _ HWF Hi Hb He) as Hhome.
  specialize (Hone k). unfold entries_for, bucket_at in Hone.
  rewrite <- Hk in Hone at 1. rewrite Hhome in Hone. simpl in Hone.
  rewrite Hb, Ef in Hone. done.
Qed.

(** C1, as the code has it. On a table reached from a new one, when key
    [k] is not in the table, after an [Insert(k,v)] that returns success
    [Find(k)] returns the entry [(k,v)], and goes on returning it after any
    further calls that return, as long as none of them is an [Update] or a
    [Delete] of [k]. *)
Theorem Insert_then_Find fuel table k v table1 cs table2 :
  reachable table ->
  Find table k = inr "not found"%string ->
  Insert fuel table k v = Some (table1, None) ->
  runs table1 cs table2 ->
  Forall (fun c => ~ overrides k c) cs ->
  Find table2 k = inl (mkEntry k v).
Proof.
  intros Hreach Hfind Hins Hruns Hcs.
  pose proof (WF_reachable _ Hreach) as HWF.
  rewrite Find_entries_for in Hfind by done.
  destruct (entries_for table k) as [|e0 rest0] eqn:Hent; [|done].
  destruct (Insert_spec _ _ _ _ _ _ HWF Hins) as (HWF1 & _ & Hsame & _).
  rewrite Hent in Hsame; simpl in Hsame.
  destruct (runs_keep_first _ _ _ _ _ _ HWF1 Hsame Hruns Hcs) as (HWF2 & rest' & Hent2).
  rewrite Find_entries_for by done. by rewrite Hent2.
Qed.


(** C3, as the code has it. One round of [Split(bucket, hash)], with [d]
    the local depth of the bucket before the split and
    [oldHash = hash mod 2^d]: the new bucket receives exactly the entries
    whose [hash(key, d+1)] is [oldHash + 2^d], in their order, and the
    others stay; the directory slots redirected to the new bucket are
    exactly those congruent to [oldHash + 2^d] modulo [2^(d+1)], and the
    other slots point where they pointed. *)
Theorem split_round_moves_and_redirects table pn bucket hash :
  WF table ->
  pages (pager table) !! pn = Some bucket ->
  slot (buckets table) hash = Some pn ->
  let d := bdepth bucket in
  let oldHash := hash mod 2 ^ d in
  let r := split_round table pn bucket hash in
  entries (sr_new r)
    = filter (fun e => Hasher (key e) (d + 1) = oldHash + 2 ^ d) (entries bucket) /\
  entries (sr_old r)
    = filter (fun e => Hasher (key e) (d + 1) <> oldHash + 2 ^ d) (entries bucket) /\
  (forall j, 0 <= j < 2 ^ depth (sr_table r) ->
     (slot (buckets (sr_table r)) j = Some (sr_newPN r)
      <-> j mod 2 ^ (d + 1) = oldHash + 2 ^ d)) /\
  (forall j, 0 <= j < 2 ^ depth (sr_table r) ->
     j mod 2 ^ (d + 1) <> oldHash + 2 ^ d ->
     slot (buckets (sr_table r)) j = slot (buckets table) (j mod 2 ^ depth table)).
Proof.
  intros HWF Hpn Hslot d oldHash r.
  destruct (split_round_spec _ _ _ _ HWF Hpn Hslot)
    as (HoH & HnH & Hold & Hnew & HnPN & HD' & Hlen' & Hmax' & Hpages' & Hslots').
  fold r d oldHash in HoH, HnH, Hold, Hnew, HnPN, HD', Hlen', Hmax', Hpages', Hslots'.
  split; [by rewrite Hnew|]. split; [by rewrite Hold|].
  rewrite HD', HnPN. split.
  - intros j Hj. rewrite Hslots' by done.
    destruct (decide (j mod 2 ^ (d + 1) = oldHash + 2 ^ d)) as [Hm|Hm]; [done|].
    split; [|done]. intros Hj'.
    assert (H0 : 0 <= j mod 2 ^ depth table < 2 ^ depth table).
    { apply Z.mod_pos_bound, pow2_pos. by destruct HWF. }
    pose proof (WF_page_lt _ _ _ HWF Hj'). lia.
  - intros j Hj Hm. rewrite Hslots' by done.
    by destruct (decide (j mod 2 ^ (d + 1) = oldHash + 2 ^ d)).
Qed.

(** ** Every page is a bucket of the directory *)

(** [GetAndLockBucketByPN(pn)], of a file that is not in the sources at
    hand.  Modelled from the spec: the bucket of page [pn]. *)
Definition GetAndLockBucketByPN (table : HashTable) (pn : Z) : HashBucket + string :=
  match pages (pager table) !! pn with
  | Some bucket => inl bucket
  | None => inr "page not found"%string
  end.

(** The loop of [table.Select], [for i := 0; i < GetNumPages(); i++]: [n]
    is the number of rounds left, [ret] the entries selected so far. *)
Fixpoint select_loop (table : HashTable) (n : nat) (i : Z) (ret : list HashEntry)
    : list HashEntry + string :=
  match n with
  | O => inl ret
  | S n' =>
      match GetAndLockBucketByPN table i with
      | inr err => inr err
      | inl bucket => select_loop table n' (i + 1) (ret ++ entries bucket)
      end
  end.

(** [table.Select]: all the entries of the table, page by page. *)
Definition Select (table : HashTable) : list HashEntry + string :=
  select_loop table (Z.to_nat (maxPageNum (pager table))) 0 [].

(** Every page below [maxPageNum] is the page of a directory slot. *)
Definition Packed (table : HashTable) : Prop :=
  0 <= maxPageNum (pager table) /\
  (forall pn, 0 <= pn < maxPageNum (pager table) ->
     exists i, slot (buckets table) i = Some pn) /\
  (forall i pn, slot (buckets table) i = Some pn -> 0 <= pn).


Lemma Packed_NewHashTable : Packed (NewHashTable empty_pager).
Proof.
  rewrite NewHashTable_eq. split; simpl; [lia|]. split.
  - intros pn Hpn.
    exists pn. assert (Hc : pn = 0 \/ pn = 1 \/ pn = 2 \/ pn = 3) by lia.
    destruct Hc as [->|[->|[->| ->]]]; reflexivity.
  - intros i pn Hi. pose proof (slot_Some _ _ _ Hi) as Hri. simpl in Hri.
    assert (Hc : i = 0 \/ i = 1 \/ i = 2 \/ i = 3) by lia.
    destruct Hc as [->|[->|[->| ->]]]; vm_compute in Hi; injection Hi as <-; lia.
Qed.

Lemma Packed_write_bucket table pn bucket' :
  Packed table -> Packed (write_bucket table pn bucket').
Proof. done. Qed.

Lemma split_round_Packed table pn bucket hash :
  WF table -> Packed table ->
  pages (pager table) !! pn = Some bucket ->
  slot (buckets table) hash = Some pn ->
  Packed (sr_table (split_round table pn bucket hash)).
Proof.
  intros HWF (HP0 & HP & HP1) Hpn Hslot.
  destruct (split_round_spec _ _ _ _ HWF Hpn Hslot)
    as (HoH & HnH & Hold & Hnew & HnPN & HD' & Hlen' & Hmax' & Hpages' & Hslots').
  destruct (split_round_WF _ _ _ _ HWF Hpn Hslot) as (HWF' & Ho & Hos & Hn & Hns).
  set (r := split_round table pn bucket hash) in *.
  split; [lia|]. split.
  2:{ intros i q Hi. pose proof (slot_Some _ _ _ Hi) as Hri. rewrite Hlen' in Hri.
      rewrite Hslots' in Hi by done.
      destruct (decide (i mod 2 ^ (bdepth bucket + 1) = _)); [injection Hi as <-; lia|].
      by apply (HP1 _ _ Hi). }
  intros q Hq. rewrite Hmax' in Hq.
  destruct (decide (q = maxPageNum (pager table))) as [->|Hne].
  { exists (sr_newHash r). by rewrite Hns, HnPN. }
  destruct (decide (q = pn)) as [->|Hqpn]; [by exists (sr_oldHash r)|].
  destruct (HP q ltac:(lia)) as (i & Hi).
  exists i.
  pose proof HWF as (HD & Hlen & Hfresh & Hslots).
  pose proof (slot_Some _ _ _ Hi) as Hri. rewrite Hlen in Hri.
  destruct (Hslots _ _ Hslot) as (b & Hb & Hd & Hsib & Hkeys).
  rewrite Hpn in Hb. injection Hb as <-.
  pose proof (pow2_pos (bdepth bucket) ltac:(lia)) as Hpd.
  pose proof (pow2_succ (depth table) HD) as Hps.
  pose proof (pow2_pos (depth table) HD) as HpD.
  rewrite Hslots'.
  2:{ destruct (bdepth bucket =? depth table); lia. }
  rewrite (Z.mod_small i (2 ^ depth table)) by lia.
  destruct (decide (i mod 2 ^ (bdepth bucket + 1) = _)) as [HiN|]; [|done].
  exfalso. apply Hqpn.
  assert (slot (buckets table) i = Some pn); [|congruence].
  apply Hsib; [done|].
  apply mod_pow2_succ_inv; [lia|apply Z.mod_pos_bound; lia|by right].
Qed.

Lemma Split_Packed fuel : forall table pn bucket hash table' err,
  WF table -> Packed table ->
  pages (pager table) !! pn = Some bucket ->
  slot (buckets table) hash = Some pn ->
  Split fuel table pn bucket hash = Some (table', err) ->
  Packed table'.
Proof.
  induction fuel as [|fuel IH]; intros table pn bucket hash table' err HWF HP Hpn Hslot;
    simpl; [done|].
  destruct (split_round_WF _ _ _ _ HWF Hpn Hslot) as (HWF' & Ho & Hos & Hn & Hns).
  pose proof (split_round_Packed _ _ _ _ HWF HP Hpn Hslot) as HP'.
  set (r := split_round table pn bucket hash) in *.
  destruct (BUCKETSIZE <=? numKeys (sr_old r)); [by apply IH|].
  destruct (BUCKETSIZE <=? numKeys (sr_new r)); [by apply IH|].
  by intros [= <- <-].
Qed.

Lemma Packed_run_call fuel table c table' err :
  WF table -> Packed table -> run_call fuel table c = Some (table', err) -> Packed table'.
Proof.
  intros HWF HP.
  destruct (WF_GetBucket table
              (match c with CallInsert k _ | CallUpdate k _ | CallDelete k => k end) HWF)
    as (pn & bucket & HGet & Hslot & Hpn & Hent & Hd & Hkeys).
  destruct c as [k v|k v|k]; simpl.
  - unfold Insert. rewrite HGet. unfold bucket_Insert.
    set (bucket1 := mkBucket (bdepth bucket) (entries bucket ++ [mkEntry k v])).
    destruct (negb (BUCKETSIZE <=? numKeys bucket1)); [by intros [= <- <-]|].
    apply Split_Packed; [|done|apply lookup_insert_eq|done].
    apply (WF_write_bucket table (Hasher k (depth table)) pn bucket); try done.
    intros e He. rewrite Hasher_mod by done.
    apply elem_of_app in He as [He|He]; [by apply Hkeys|].
    apply list_elem_of_singleton in He as ->. done.
  - unfold Update. rewrite HGet. destruct (bucket_Update bucket k v). by intros [= <- <-].
  - unfold Delete. rewrite HGet. destruct (bucket_Delete bucket k). by intros [= <- <-].
Qed.

Lemma Packed_reachable table : reachable table -> Packed table.
Proof.
  induction 1 as [|table c fuel table' err Hr IH Hrun].
  - apply Packed_NewHashTable.
  - by apply (Packed_run_call _ _ _ _ _ (WF_reachable _ Hr) IH Hrun).
Qed.


(** ** No bucket is full *)











(** ** [Select] *)

(** The entries of the [n] pages from page [i] on. *)
Fixpoint page_entries (table : HashTable) (n : nat) (i : Z) : list HashEntry :=
  match n with
  | O => []
  | S n' =>
      match pages (pager table) !! i with
      | Some bucket => entries bucket
      | None => []
      end ++ page_entries table n' (i + 1)
  end.

Lemma select_loop_spec table n : forall i ret,
  (forall pn, i <= pn < i + Z.of_nat n -> is_Some (pages (pager table) !! pn)) ->
  select_loop table n i ret = inl (ret ++ page_entries table n i).
Proof.
  induction n as [|n IH]; intros i ret Hall; simpl; [by rewrite app_nil_r|].
  unfold GetAndLockBucketByPN.
  destruct (Hall i ltac:(lia)) as [b Hb]. rewrite Hb.
  rewrite IH by (intros pn Hpn; apply Hall; lia).
  by rewrite app_assoc.
Qed.

Lemma filter_none {A} (P : A -> Prop) `{!forall x, Decision (P x)} (l : list A) :
  (forall x, x ∈ l -> ~ P x) -> filter P l = [].
Proof.
  induction l as [|x l IH]; intros Hno; [done|].
  rewrite filter_cons_False by (apply Hno, list_elem_of_here).
  apply IH. intros y Hy. apply Hno. by right.
Qed.

Lemma filter_page_entries table k pn0 b0 n : forall i,
  WF table -> Packed table ->
  slot (buckets table) (Hasher k (depth table)) = Some pn0 ->
  pages (pager table) !! pn0 = Some b0 ->
  0 <= i -> i + Z.of_nat n <= maxPageNum (pager table) ->
  filter (fun e => key e = k) (page_entries table n i) =
  if decide (i <= pn0 < i + Z.of_nat n)
  then filter (fun e => key e = k) (entries b0) else [].
Proof.
  induction n as [|n IH]; intros i HWF HP Hhome Hb0 Hi Hmax; simpl page_entries.
  { destruct (decide _); [lia|done]. }
  rewrite filter_app, IH by (try done; lia).
  destruct HP as (_ & HP & _). destruct (HP i ltac:(lia)) as (j & Hj).
  destruct HWF as (HD & Hlen & Hfresh & Hslots).
  destruct (Hslots _ _ Hj) as (b & Hb & _). rewrite Hb.
  destruct (decide (i = pn0)) as [->|Hne].
  - rewrite Hb0 in Hb. injection Hb as <-.
    destruct (decide (pn0 + 1 <= pn0 < _)); [lia|].
    destruct (decide (pn0 <= pn0 < _)); [|lia]. by rewrite app_nil_r.
  - rewrite (filter_none (fun e => key e = k) (entries b)).
    + simpl. destruct (decide (i + 1 <= pn0 < _)), (decide (i <= pn0 < _)); try done; lia.
    + intros e He Hk.
      pose proof (WF_home table j i b e ltac:(done) Hj Hb He) as Hh.
      rewrite Hk in Hh. congruence.
Qed.

Lemma Select_entries_for table :
  WF table -> Packed table ->
  exists es, Select table = inl es /\
    forall k, filter (fun e => key e = k) es = entries_for table k.
Proof.
  intros HWF HP. exists (page_entries table (Z.to_nat (maxPageNum (pager table))) 0).
  pose proof HP as (HP0 & HP1 & HP2).
  split.
  - unfold Select. rewrite select_loop_spec; [done|].
    intros pn Hpn. destruct (HP1 pn ltac:(lia)) as (j & Hj).
    destruct HWF as (_ & _ & _ & Hslots).
    destruct (Hslots _ _ Hj) as (b & Hb & _). by exists b.
  - intros k.
    destruct (WF_GetBucket table k HWF) as (pn & bucket & _ & Hslot & Hpn & Hent & _).
    rewrite (filter_page_entries table k pn bucket) by (try done; lia).
    pose proof (WF_page_lt _ _ _ HWF Hslot). pose proof (HP2 _ _ Hslot).
    destruct (decide _); [done|lia].
Qed.

(** X4. On a table reached from a new one [Select] returns no error, and
    [Find(k)] returns the first entry of key [k] in the order of [Select]:
    it answers "not found" exactly when [Select] lists no entry of the
    key. *)
Theorem Select_Find table :
  reachable table ->
  exists es, Select table = inl es /\
    forall k, Find table k =
      match head (filter (fun e => key e = k) es) with
      | Some entry => inl entry
      | None => inr "not found"%string
      end.
Proof.
  intros Hr. pose proof (WF_reachable _ Hr) as HWF.
  destruct (Select_entries_for table HWF (Packed_reachable _ Hr)) as (es & HS & Hf).
  exists es. split; [done|]. intros k. by rewrite Hf, Find_entries_for.
Qed.


(** ** The calls, seen through [Select] and [Find] *)

Lemma count_occ_filter_key (l : list HashEntry) (e : HashEntry) :
  count_occ HashEntry_eq_dec l e
  = count_occ HashEntry_eq_dec (filter (fun x => key x = key e) l) e.
Proof.
  induction l as [|x l IH]; [done|].
  rewrite filter_cons. simpl.
  destruct (decide (key x = key e)) as [Hk|Hk]; simpl;
    destruct (HashEntry_eq_dec x e) as [->|Hne]; try done; by rewrite IH.
Qed.

(** Two lists whose entries agree key by key, up to their order, are the
    same up to their order. *)
Lemma Permutation_by_key (l1 l2 : list HashEntry) :
  (forall k, filter (fun e => key e = k) l1 ≡ₚ filter (fun e => key e = k) l2) ->
  l1 ≡ₚ l2.
Proof.
  intros Hk. apply (Permutation_count_occ HashEntry_eq_dec). intros e.
  rewrite (count_occ_filter_key l1), (count_occ_filter_key l2).
  by apply (Permutation_count_occ HashEntry_eq_dec).
Qed.

Lemma update_first_None k v es :
  update_first k v es = None -> filter (fun e => key e = k) es = [].
Proof.
  induction es as [|e es IH]; simpl; [done|].
  destruct (decide (key e = k)); [done|].
  destruct (update_first k v es); simpl; [done|].
  intros _. rewrite filter_cons_False by done. by apply IH.
Qed.

Lemma delete_first_None k es :
  delete_first k es = None -> filter (fun e => key e = k) es = [].
Proof.
  induction es as [|e es IH]; simpl; [done|].
  destruct (decide (key e = k)); [done|].
  destruct (delete_first k es); simpl; [done|].
  intros _. rewrite filter_cons_False by done. by apply IH.
Qed.

Lemma write_bucket_id table pn bucket :
  pages (pager table) !! pn = Some bucket -> write_bucket table pn bucket = table.
Proof.
  intros Hpn. destruct table as [D bs [pg mx]]. unfold write_bucket; simpl in *.
  by rewrite insert_id.
Qed.

Lemma key_of_entries_for table k e :
  e ∈ entries_for table k -> key e = k.
Proof.
  unfold entries_for. destruct (bucket_at _ _); [|by intros ?%elem_of_nil].
  by intros [? _]%list_elem_of_filter.
Qed.


(** X6. [Update(k,v)] on a table reached from a new one.  When it returns
    no error, [Find(k)] found an entry before, [Find(k)] returns [(k,v)]
    after, and [Select] lists the same entries with that one entry
    replaced by [(k,v)], up to the order.  When it returns an error,
    [Find(k)] found nothing and the table is unchanged.  The entries of
    the other keys are found as before. *)
Theorem Update_Select table k v table' err es :
  reachable table ->
  Update table k v = (table', err) ->
  Select table = inl es ->
  (forall k', k' <> k -> Find table' k' = Find table k') /\
  match err with
  | None =>
      exists e es', Find table k = inl e /\ Find table' k = inl (mkEntry k v) /\
        Select table' = inl es' /\ e :: es' ≡ₚ mkEntry k v :: es
  | Some _ => Find table k = inr "not found"%string /\ table' = table
  end.
Proof.
  intros Hr HU HS. pose proof (WF_reachable _ Hr) as HWF.
  destruct (Update_spec _ _ _ _ _ HWF HU) as (HWF' & Hother & Herr).
  split.
  { intros k' Hne. by rewrite !Find_entries_for, Hother. }
  destruct err as [msg|].
  - destruct (WF_GetBucket table k HWF) as (pn & bucket & HGet & Hslot & Hpn & Hent & _).
    unfold Update in HU. rewrite HGet in HU. unfold bucket_Update in HU.
    destruct (update_first k v (entries bucket)) as [es1|] eqn:Eu; [done|].
    injection HU as <-. split; [|by apply write_bucket_id].
    rewrite Find_entries_for, Hent by done. by rewrite (update_first_None _ _ _ Eu).
  - destruct Herr as (e & rest & He & He').
    assert (Hr' : reachable table').
    { apply (reachable_call table (CallUpdate k v) O table' None Hr). simpl. by rewrite HU. }
    destruct (Select_entries_for table HWF (Packed_reachable _ Hr)) as (es0 & HS0 & Hf).
    rewrite HS in HS0. injection HS0 as <-.
    destruct (Select_entries_for table' HWF' (Packed_reachable _ Hr')) as (es' & HS' & Hf').
    exists e, es'.
    split; [by rewrite Find_entries_for, He|].
    split; [by rewrite Find_entries_for, He'|].
    split; [done|].
    assert (Hke : key e = k).
    { apply (key_of_entries_for table). rewrite He. apply list_elem_of_here. }
    apply Permutation_by_key. intros k'. rewrite !filter_cons, Hf, Hf'. simpl.
    destruct (decide (k' = k)) as [->|Hne].
    + rewrite He, He'. destruct (decide (key e = k)); [|done].
      destruct (decide (k = k)); [|done]. apply Permutation_swap.
    + rewrite Hother by done.
      destruct (decide (key e = k')); [congruence|].
      destruct (decide (k = k')); [congruence|]. done.
Qed.

(** X7. [Delete(k)] on a table reached from a new one.  When it returns no
    error, it has removed exactly the entry that [Find(k)] returned, and
    [Select] lists the others, up to the order.  When it returns an error,
    [Find(k)] found nothing and the table is unchanged.  The entries of
    the other keys are found as before. *)
Theorem Delete_Select table k table' err es :
  reachable table ->
  Delete table k = (table', err) ->
  Select table = inl es ->
  (forall k', k' <> k -> Find table' k' = Find table k') /\
  match err with
  | None =>
      exists e es', Find table k = inl e /\
        Select table' = inl es' /\ es ≡ₚ e :: es'
  | Some _ => Find table k = inr "not found"%string /\ table' = table
  end.
Proof.
  intros Hr HU HS. pose proof (WF_reachable _ Hr) as HWF.
  destruct (Delete_spec _ _ _ _ HWF HU) as (HWF' & Hother & Herr).
  split.
  { intros k' Hne. by rewrite !Find_entries_for, Hother. }
  destruct err as [msg|].
  - destruct (WF_GetBucket table k HWF) as (pn & bucket & HGet & Hslot & Hpn & Hent & _).
    unfold Delete in HU. rewrite HGet in HU. unfold bucket_Delete in HU.
    destruct (delete_first k (entries bucket)) as [es1|] eqn:Eu; [done|].
    injection HU as <-. split; [|by apply write_bucket_id].
    rewrite Find_entries_for, Hent by done. by rewrite (delete_first_None _ _ Eu).
  - destruct Herr as (e & He).
    assert (Hr' : reachable table').
    { apply (reachable_call table (CallDelete k) O table' None Hr). simpl. by rewrite HU. }
    destruct (Select_entries_for table HWF (Packed_reachable _ Hr)) as (es0 & HS0 & Hf).
    rewrite HS in HS0. injection HS0 as <-.
    destruct (Select_entries_for table' HWF' (Packed_reachable _ Hr')) as (es' & HS' & Hf').
    exists e, es'.
    split; [by rewrite Find_entries_for, He|].
    split; [done|].
    assert (Hke : key e = k).
    { apply (key_of_entries_for table). rewrite He. apply list_elem_of_here. }
    apply Permutation_by_key. intros k'. rewrite !filter_cons, Hf, Hf'.
    destruct (decide (k' = k)) as [->|Hne].
    + rewrite He. by destruct (decide (key e = k)).
    + rewrite Hother by done. destruct (decide (key e = k')); [congruence|done].
Qed.


(** ** A bucket whose keys all have one hash *)







(** X9. [ExtendTable] on a table that satisfies the invariant of the
    directory: the invariant still holds, the upper half of the doubled
    directory repeats the lower half, which is unchanged, and [Find]
    returns for every key what it returned before. *)
Theorem ExtendTable_Find table :
  WF table ->
  WF (ExtendTable table) /\
  (forall j, 0 <= j < 2 ^ depth table ->
     slot (buckets (ExtendTable table)) j = slot (buckets table) j /\
     slot (buckets (ExtendTable table)) (j + 2 ^ depth table) = slot (buckets table) j) /\
  (forall k, Find (ExtendTable table) k = Find table k).
Proof.
  intros HWF. pose proof (WF_ExtendTable _ HWF) as HWF'.
  pose proof HWF as (HD & Hlen & _).
  pose proof (pow2_pos _ HD) as Hp. pose proof (pow2_succ _ HD) as Hs.
  split; [done|]. split.
  - intros j Hj. split.
    + rewrite slot_ExtendTable by (try done; lia). by rewrite Z.mod_small.
    + rewrite slot_ExtendTable by (try done; lia).
      replace (j + 2 ^ depth table) with (j + 1 * 2 ^ depth table) by lia.
      rewrite Z.mod_add by lia. by rewrite Z.mod_small.
  - intros k. by rewrite !Find_entries_for, entries_for_ExtendTable.
Qed.


End Table.

(** ** The scenarios: the hash is the identity and a bucket splits at four
    entries, as in scenario S2 of the specification *)

Definition demo_H (k : Z) : Z := k.
Definition demo_BUCKETSIZE : Z := 4.

(** The table that a call returns (the table itself when it does not). *)
Definition after (table : HashTable) (c : call) : HashTable :=
  match run_call demo_H demo_BUCKETSIZE 8 table c with
  | Some (table', _) => table'
  | None => table
  end.

Definition demo_new : HashTable := NewHashTable empty_pager.

(** Keys 0, 4 and 8 all hash to slot 0 at depth 2. *)
Definition demo_three : HashTable :=
  after (after (after demo_new (CallInsert 0 10)) (CallInsert 4 14)) (CallInsert 8 18).

(** A fourth key in slot 0 fills the bucket, which splits: the directory
    doubles. *)
Definition demo_four : HashTable := after demo_three (CallInsert 12 22).

(** Key 5 inserted twice, with the values 1 and 2. *)
Definition demo_twice : HashTable :=
  after (after demo_new (CallInsert 5 1)) (CallInsert 5 2).

Lemma reachable_after table c :
  reachable demo_H demo_BUCKETSIZE table ->
  reachable demo_H demo_BUCKETSIZE (after table c).
Proof.
  intros Hr. unfold after.
  destruct (run_call demo_H demo_BUCKETSIZE 8 table c) as [[table' err]|] eqn:E; [|done].
  by eapply reachable_call.
Qed.

Lemma reachable_demo_three : reachable demo_H demo_BUCKETSIZE demo_three.
Proof. repeat apply reachable_after. apply reachable_new. Qed.

Lemma reachable_demo_four : reachable demo_H demo_BUCKETSIZE demo_four.
Proof. apply reachable_after, reachable_demo_three. Qed.

Lemma Insert_then_Find_witness :
  reachable demo_H demo_BUCKETSIZE demo_three /\
  Find demo_H demo_three 5 = inr "not found"%string /\
  Find demo_H
    (after (after (after (after (after demo_three (CallInsert 5 50))
       (CallInsert 12 22)) (CallInsert 5 51)) (CallUpdate 4 44)) (CallDelete 0)) 5
  = inl (mkEntry 5 50).
Proof.
  split; [apply reachable_demo_three|]. split; [reflexivity|].
  apply (Insert_then_Find demo_H demo_BUCKETSIZE 8 demo_three 5 50
           (after demo_three (CallInsert 5 50))
           [CallInsert 12 22; CallInsert 5 51; CallUpdate 4 44; CallDelete 0]).
  - apply reachable_demo_three.
  - reflexivity.
  - reflexivity.
  - repeat (eapply (runs_cons _ _ _ _ _ 8%nat); [reflexivity|]). apply runs_nil.
  - repeat constructor; simpl; lia.
Defined.

(** C1, as stated, fails when the key had been inserted before: the
    second [Insert(5,2)] returns success, and [Find(5)] still returns the
    value 1 of the first. *)
Lemma Insert_twice_counterexample :
  Insert demo_H demo_BUCKETSIZE 8 (after demo_new (CallInsert 5 1)) 5 2
    = Some (demo_twice, None) /\
  Find demo_H demo_twice 5 = inl (mkEntry 5 1) /\
  Find demo_H demo_twice 5 <> inl (mkEntry 5 2).
Proof. split; [reflexivity|]. split; [reflexivity|]. vm_compute. discriminate. Qed.


(** The bucket of slot 0 of [demo_three], before it splits. *)
Definition demo_bucket : HashBucket :=
  mkBucket 2 [mkEntry 0 10; mkEntry 4 14; mkEntry 8 18].

Lemma split_round_moves_and_redirects_witness :
  let r := split_round demo_H demo_three 0 demo_bucket 0 in
  pages (pager demo_three) !! 0 = Some demo_bucket /\
  slot (buckets demo_three) 0 = Some 0 /\
  entries (sr_new r) = [mkEntry 4 14] /\
  entries (sr_old r) = [mkEntry 0 10; mkEntry 8 18] /\
  (forall j, 0 <= j < 2 ^ depth (sr_table r) ->
     (slot (buckets (sr_table r)) j = Some (sr_newPN r) <-> j mod 2 ^ (2 + 1) = 0 + 2 ^ 2)).
Proof.
  intros r.
  assert (Hpn : pages (pager demo_three) !! 0 = Some demo_bucket) by reflexivity.
  assert (Hslot : slot (buckets demo_three) 0 = Some 0) by reflexivity.
  destruct (split_round_moves_and_redirects demo_H demo_three 0 demo_bucket 0
              (WF_reachable demo_H demo_BUCKETSIZE _ reachable_demo_three) Hpn Hslot)
    as (Hnew & Hold & Hredirect & _).
  split; [exact Hpn|]. split; [exact Hslot|].
  split; [exact Hnew|]. split; [exact Hold|]. exact Hredirect.
Defined.

(** C3, as stated, fails on the slots: in the split of the bucket of slot
    0 ([d = 2], [oldHash = 0]), slot 0 is congruent to [oldHash + 2^d = 4]
    modulo [2^d = 4], and it is not redirected to the new bucket; only slot
    4 is. *)
Lemma split_round_slots_counterexample :
  let r := split_round demo_H demo_three 0 demo_bucket 0 in
  pages (pager demo_three) !! 0 = Some demo_bucket /\
  slot (buckets demo_three) 0 = Some 0 /\
  depth (sr_table r) = 3 /\
  0 mod 2 ^ 2 = (0 mod 2 ^ 2 + 2 ^ 2) mod 2 ^ 2 /\
  slot (buckets (sr_table r)) 0 = Some 0 /\
  slot (buckets (sr_table r)) 4 = Some (sr_newPN r) /\
  slot (buckets (sr_table r)) 0 <> Some (sr_newPN r).
Proof. vm_compute. repeat split; try reflexivity. discriminate. Qed.


(** ** The further properties, on the scenarios *)


Lemma Select_Find_witness :
  reachable demo_H demo_BUCKETSIZE demo_four /\
  exists es, Select demo_four = inl es /\
    forall k, Find demo_H demo_four k =
      match head (filter (fun e => key e = k) es) with
      | Some entry => inl entry
      | None => inr "not found"%string
      end.
Proof.
  split; [exact reachable_demo_four|].
  exact (Select_Find demo_H demo_BUCKETSIZE demo_four reachable_demo_four).
Defined.


Lemma Update_Select_witness :
  reachable demo_H demo_BUCKETSIZE demo_three /\
  (Update demo_H demo_three 4 44).2 = None /\
  Select demo_three = inl [mkEntry 0 10; mkEntry 4 14; mkEntry 8 18] /\
  Find demo_H (Update demo_H demo_three 4 44).1 4 = inl (mkEntry 4 44) /\
  (Update demo_H demo_three 5 55).2 = Some "key not found"%string /\
  (Update demo_H demo_three 5 55).1 = demo_three.
Proof.
  assert (HS : Select demo_three = inl [mkEntry 0 10; mkEntry 4 14; mkEntry 8 18])
    by (vm_compute; reflexivity).
  assert (HU : Update demo_H demo_three 4 44 = ((Update demo_H demo_three 4 44).1, None))
    by (vm_compute; reflexivity).
  assert (HU' : Update demo_H demo_three 5 55
                = ((Update demo_H demo_three 5 55).1, Some "key not found"%string))
    by (vm_compute; reflexivity).
  split; [exact reachable_demo_three|].
  split; [vm_compute; reflexivity|]. split; [exact HS|].
  destruct (Update_Select demo_H demo_BUCKETSIZE demo_three 4 44 _ None _
              reachable_demo_three HU HS) as (_ & e & es' & _ & HF & _).
  split; [exact HF|]. split; [vm_compute; reflexivity|].
  exact (proj2 (proj2 (Update_Select demo_H demo_BUCKETSIZE demo_three 5 55 _ _ _
                         reachable_demo_three HU' HS))).
Defined.

Lemma Delete_Select_witness :
  reachable demo_H demo_BUCKETSIZE demo_three /\
  (Delete demo_H demo_three 4).2 = None /\
  Select demo_three = inl [mkEntry 0 10; mkEntry 4 14; mkEntry 8 18] /\
  exists e es', Find demo_H demo_three 4 = inl e /\
    Select (Delete demo_H demo_three 4).1 = inl es' /\
    [mkEntry 0 10; mkEntry 4 14; mkEntry 8 18] ≡ₚ e :: es'.
Proof.
  assert (HS : Select demo_three = inl [mkEntry 0 10; mkEntry 4 14; mkEntry 8 18])
    by (vm_compute; reflexivity).
  assert (HU : Delete demo_H demo_three 4 = ((Delete demo_H demo_three 4).1, None))
    by (vm_compute; reflexivity).
  split; [exact reachable_demo_three|].
  split; [vm_compute; reflexivity|]. split; [exact HS|].
  exact (proj2 (Delete_Select demo_H demo_BUCKETSIZE demo_three 4 _ None _
                  reachable_demo_three HU HS)).
Defined.




Lemma ExtendTable_Find_witness :
  WF demo_H demo_three /\
  Find demo_H (ExtendTable demo_three) 8 = inl (mkEntry 8 18) /\
  slot (buckets (ExtendTable demo_three)) (1 + 2 ^ depth demo_three)
    = slot (buckets demo_three) 1.
Proof.
  pose proof (WF_reachable demo_H demo_BUCKETSIZE demo_three reachable_demo_three) as HWF.
  destruct (ExtendTable_Find demo_H demo_three HWF) as (_ & Hslots & HFind).
  split; [exact HWF|]. split.
  - rewrite HFind. vm_compute. reflexivity.
  - apply Hslots. vm_compute. split; [discriminate|reflexivity].
Defined.


End Hash.

(* ===================================================================== *)
(** * pkg/query/hash_join.go: the grace hash join *)
(* ===================================================================== *)

Module Join.

Import Hash.

Local Open Scope Z_scope.

Definition DEFAULT_FILTER_SIZE : Z := 1024.

(** Entry pair struct - output of a join. *)
Record EntryPair := mkPair { pair_l : HashEntry; pair_r : HashEntry }.

#[global] Instance EntryPair_eq_dec : EqDecision EntryPair.
Proof. solve_decision. Defined.

(** Modelled from the spec: the cursor of a source table, of package db
    which is not in the sources at hand.  A cursor is the list of the
    entries from its position on: [IsEnd] holds when no entry is left,
    [StepForward] moves to the next entry and answers true when there is
    none to move to. *)
Definition Cursor := list HashEntry.

(** Modelled from the spec: [TableStart], the cursor on the first entry. *)
Definition TableStart (sourceTable : list HashEntry) : Cursor := sourceTable.

(** Modelled from the spec: [cur.IsEnd]. *)
Definition IsEnd (cur : Cursor) : bool :=
  match cur with [] => true | _ => false end.

(** Modelled from the spec: [cur.GetEntry], which fails at the end. *)
Definition GetEntry (cur : Cursor) : HashEntry + string :=
  match cur with
  | entry :: _ => inl entry
  | [] => inr "cursor is at the end"%string
  end.

(** Modelled from the spec: [cur.StepForward]. *)
Definition StepForward (cur : Cursor) : bool * Cursor :=
  match cur with
  | _ :: (e :: rest) => (false, e :: rest)
  | _ => (true, cur)
  end.

(** The side of an entry that the join is on, and the entry as the
    temporary index holds it: as it is when the join is on its key,
    transposed when the join is on its value.  Transposing twice gives the
    entry back, which is how [probeBuckets] restores the pairs it emits. *)
Definition keySide (useKey : bool) (e : HashEntry) : Z :=
  if useKey then key e else value e.

Definition orient (useKey : bool) (e : HashEntry) : HashEntry :=
  if useKey then mkEntry (key e) (value e) else mkEntry (value e) (key e).

(** [GetBucketByPN]. *)
Definition GetBucketByPN (table : HashTable) (pn : Z) : HashBucket + string :=
  match pages (pager table) !! pn with
  | Some bucket => inl bucket
  | None => inr "page not found"%string
  end.

(** The loop of [Join] that makes both hash indices the same global size;
    [n] bounds the number of rounds. *)
Fixpoint align (n : nat) (leftHashTable rightHashTable : HashTable)
    : HashTable * HashTable :=
  match n with
  | O => (leftHashTable, rightHashTable)
  | S n' =>
      if depth leftHashTable =? depth rightHashTable
      then (leftHashTable, rightHashTable)
      else if depth leftHashTable <? depth rightHashTable
      then align n' (ExtendTable leftHashTable) rightHashTable
      else align n' leftHashTable (ExtendTable rightHashTable)
  end.

(** The bucket pairs that [Join] probes: the pairs of the two directories,
    slot by slot, without those seen before. *)
Fixpoint bucket_pairs (leftBuckets rightBuckets : list Z) (seenList : gset (Z * Z))
    : list (Z * Z) :=
  match leftBuckets, rightBuckets with
  | lBucketPN :: ls, rBucketPN :: rs =>
      if decide ((lBucketPN, rBucketPN) ∈ seenList)
      then bucket_pairs ls rs seenList
      else (lBucketPN, rBucketPN)
             :: bucket_pairs ls rs ({[ (lBucketPN, rBucketPN) ]} ∪ seenList)
  | _, _ => []
  end.

(** The buckets of the pairs; the first page that cannot be got ends
    [Join] with its error. *)
Fixpoint get_buckets (leftHashTable rightHashTable : HashTable) (pairs : list (Z * Z))
    : list (HashBucket * HashBucket) + string :=
  match pairs with
  | [] => inl []
  | (lBucketPN, rBucketPN) :: rest =>
      match GetBucketByPN leftHashTable lBucketPN with
      | inr err => inr err
      | inl lBucket =>
          match GetBucketByPN rightHashTable rBucketPN with
          | inr err => inr err
          | inl rBucket =>
              match get_buckets leftHashTable rightHashTable rest with
              | inr err => inr err
              | inl bs => inl ((lBucket, rBucket) :: bs)
              end
          end
      end
  end.

Section Operator.

Variable H : Z -> Z.
Variable BUCKETSIZE : Z.
Variable XxHasher MurmurHasher : Z -> Z -> N.

(** The loop of [buildHashIndex]; [n] bounds the number of rounds: [None]
    when the bound is reached or an insertion does not return.  The error
    of [tempIndex.Insert] is dropped, as in the source; the error of
    [GetEntry] ends the build. *)
Fixpoint build_loop (fuel n : nat) (cur : Cursor) (useKey : bool)
    (tempIndex : HashTable) : option (HashTable + string) :=
  match n with
  | O => None
  | S n' =>
      let '(stop, cur1) := if IsEnd cur then StepForward cur else (false, cur) in
      if stop then Some (inl tempIndex)
      else
        let inserted : option (HashTable + string) :=
          if negb (IsEnd cur1) then
            match GetEntry cur1 with
            | inr e2 => Some (inr e2)
            | inl entry =>
                let ins :=
                  if negb useKey
                  then Insert H BUCKETSIZE fuel tempIndex (value entry) (key entry)
                  else Insert H BUCKETSIZE fuel tempIndex (key entry) (value entry) in
                option_map (fun res => inl res.1) ins
            end
          else Some (inl tempIndex) in
        match inserted with
        | None => None
        | Some (inr e2) => Some (inr e2)
        | Some (inl tempIndex1) =>
            let '(atEnd, cur2) := StepForward cur1 in
            if atEnd then Some (inl tempIndex1)
            else build_loop fuel n' cur2 useKey tempIndex1
        end
  end.

(** [buildHashIndex]: the temporary index starts as a new hash table. *)
Definition buildHashIndex (fuel : nat) (sourceTable : list HashEntry) (useKey : bool)
    : option (HashTable + string) :=
  build_loop fuel (S (length sourceTable)) (TableStart sourceTable) useKey
    (NewHashTable empty_pager).

(** [probeBuckets]: the entry pairs sent to the results channel, and the
    error.  A send fails only on cancellation, which is not modelled. *)
Definition probeBuckets (lBucket rBucket : HashBucket)
    (joinOnLeftKey joinOnRightKey : bool) : list EntryPair * error :=
  let entriesInL := entries lBucket in
  let entriesInR := entries rBucket in
  if negb (bdepth lBucket =? bdepth rBucket)
  then ([], Some "the size of lBucket is not equal with the size of rBucket"%string)
  else
    let bf :=
      fold_left (fun bf e => Bloom.Insert XxHasher MurmurHasher bf (key e))
        entriesInL (Bloom.CreateFilter DEFAULT_FILTER_SIZE) in
    (entriesInR ≫= (fun er =>
       if Bloom.Contains XxHasher MurmurHasher bf (key er) then
         entriesInL ≫= (fun el =>
           if key el =? key er
           then [mkPair (orient joinOnLeftKey el) (orient joinOnRightKey er)]
           else [])
       else []),
     None).

(** The probes of all the bucket pairs: the pairs they send, and the
    first error among them.  The probes run concurrently and the order of
    the pairs on the channel is not fixed; they are listed here probe by
    probe.  When a probe fails, the cancellation may stop the others before
    they have sent all their pairs: the pairs sent are then among those
    listed. *)
Fixpoint probe_all (bs : list (HashBucket * HashBucket))
    (joinOnLeftKey joinOnRightKey : bool) : list EntryPair * error :=
  match bs with
  | [] => ([], None)
  | (lBucket, rBucket) :: rest =>
      let '(out, err) := probeBuckets lBucket rBucket joinOnLeftKey joinOnRightKey in
      let '(outs, errs) := probe_all rest joinOnLeftKey joinOnRightKey in
      (out ++ outs, match err with Some e => Some e | None => errs end)
  end.

(** [Join]: the entry pairs on the results channel and the error that the
    caller gets from [Join] or from the group; [None] when the build of a
    temporary index does not return.  When [Join] itself returns an error
    the caller gets no channel, hence no pair. *)
Definition Join (fuel : nat) (leftTable rightTable : list HashEntry)
    (joinOnLeftKey joinOnRightKey : bool) : option (list EntryPair * error) :=
  match buildHashIndex fuel leftTable joinOnLeftKey with
  | None => None
  | Some (inr err) => Some ([], Some err)
  | Some (inl leftHashIndex) =>
      match buildHashIndex fuel rightTable joinOnRightKey with
      | None => None
      | Some (inr err) => Some ([], Some err)
      | Some (inl rightHashIndex) =>
          let '(leftHashTable, rightHashTable) :=
            align (Z.to_nat (Z.abs (depth leftHashIndex - depth rightHashIndex)))
              leftHashIndex rightHashIndex in
          let leftBuckets := buckets leftHashTable in
          let rightBuckets := buckets rightHashTable in
          match get_buckets leftHashTable rightHashTable
                  (bucket_pairs leftBuckets rightBuckets ∅) with
          | inr err => Some ([], Some err)
          | inl bs => Some (probe_all bs joinOnLeftKey joinOnRightKey)
          end
      end
  end.

(** Inserting a list of entries into a table, first to last, the errors
    dropped: what [buildHashIndex] comes to. *)
Fixpoint insert_all (fuel : nat) (table : HashTable) (es : list HashEntry)
    : option HashTable :=
  match es with
  | [] => Some table
  | e :: es' =>
      match Insert H BUCKETSIZE fuel table (key e) (value e) with
      | None => None
      | Some (table1, _) => insert_all fuel table1 es'
      end
  end.

(** The pairs that the probe of the bucket pages [(lpn, rpn)] sends. *)
Definition probe_pages (leftHashTable rightHashTable : HashTable)
    (joinOnLeftKey joinOnRightKey : bool) (pns : Z * Z) : list EntryPair :=
  match pages (pager leftHashTable) !! pns.1, pages (pager rightHashTable) !! pns.2 with
  | Some lBucket, Some rBucket =>
      (probeBuckets lBucket rBucket joinOnLeftKey joinOnRightKey).1
  | _, _ => []
  end.

(** ** The build *)

Lemma orient_involutive useKey e : orient useKey (orient useKey e) = e.
Proof. by destruct useKey, e. Qed.

Lemma key_orient useKey e : key (orient useKey e) = keySide useKey e.
Proof. by destruct useKey. Qed.

#[local] Instance orient_inj useKey : Inj (=) (=) (orient useKey).
Proof.
  intros e1 e2 Heq. rewrite <- (orient_involutive useKey e1), Heq.
  apply orient_involutive.
Qed.

Lemma build_loop_insert_all fuel useKey : forall sourceTable n tempIndex,
  (length sourceTable < n)%nat ->
  build_loop fuel n sourceTable useKey tempIndex
  = option_map inl (insert_all fuel tempIndex (orient useKey <$> sourceTable)).
Proof.
  induction sourceTable as [|e [|e2 rest] IH]; intros n tempIndex Hn;
    (destruct n as [|n]; [simpl in Hn; lia|]).
  - reflexivity.
  - simpl. destruct useKey; simpl;
      (destruct (Insert H BUCKETSIZE fuel tempIndex _ _) as [[t1 err]|]; reflexivity).
  - assert (Hn' : (length (e2 :: rest) < n)%nat) by (simpl in *; lia).
    specialize (IH n).
    rewrite fmap_cons.
    cbn [build_loop IsEnd StepForward GetEntry negb insert_all].
    destruct useKey; cbn [negb orient key value];
      (destruct (Insert H BUCKETSIZE fuel tempIndex _ _) as [[t1 err]|];
       cbn [option_map fst]; [apply IH, Hn'|reflexivity]).
Qed.

Lemma entries_for_NewHashTable k :
  entries_for H (NewHashTable empty_pager) k = [].
Proof.
  destruct (WF_GetBucket H _ k (WF_NewHashTable H))
    as (pn & bucket & _ & Hslot & Hpn & -> & _).
  rewrite NewHashTable_eq in Hpn. simpl in Hpn.
  destruct (decide (pn = 3)) as [->|]; [rewrite lookup_insert_eq in Hpn|rewrite lookup_insert_ne in Hpn by done].
  { by injection Hpn as <-. }
  destruct (decide (pn = 2)) as [->|]; [rewrite lookup_insert_eq in Hpn|rewrite lookup_insert_ne in Hpn by done].
  { by injection Hpn as <-. }
  destruct (decide (pn = 1)) as [->|]; [rewrite lookup_insert_eq in Hpn|rewrite lookup_insert_ne in Hpn by done].
  { by injection Hpn as <-. }
  destruct (decide (pn = 0)) as [->|]; [rewrite lookup_insert_eq in Hpn|rewrite lookup_insert_ne in Hpn by done].
  { by injection Hpn as <-. }
  by rewrite lookup_empty in Hpn.
Qed.

Lemma insert_all_spec fuel : forall es table table',
  WF H table ->
  insert_all fuel table es = Some table' ->
  WF H table' /\
  forall k, entries_for H table' k
            = entries_for H table k ++ filter (fun e => key e = k) es.
Proof.
  induction es as [|e es IH]; intros table table' HWF; simpl.
  - intros [= <-]. split; [done|]. intros k. by rewrite app_nil_r.
  - destruct (Insert H BUCKETSIZE fuel table (key e) (value e)) as [[table1 err]|] eqn:EI; [|done].
    intros Hall.
    destruct (Insert_spec _ _ _ _ _ _ _ _ HWF EI) as (HWF1 & _ & Hsame & Hother).
    destruct (IH _ _ HWF1 Hall) as (HWF' & Hent).
    split; [done|]. intros k. rewrite Hent, filter_cons.
    destruct (decide (key e = k)) as [<-|Hne].
    + rewrite Hsame. rewrite <- app_assoc. by destruct e.
    + by rewrite Hother by done.
Qed.

Lemma buildHashIndex_spec fuel sourceTable useKey tempIndex :
  buildHashIndex fuel sourceTable useKey = Some (inl tempIndex) ->
  WF H tempIndex /\
  forall k, entries_for H tempIndex k
            = filter (fun e => key e = k) (orient useKey <$> sourceTable).
Proof.
  unfold buildHashIndex, TableStart. rewrite build_loop_insert_all by lia.
  destruct (insert_all fuel _ _) as [t|] eqn:Hall; [|done]. intros [= ->].
  destruct (insert_all_spec _ _ _ _ (WF_NewHashTable H) Hall) as (HWF & Hent).
  split; [done|]. intros k. by rewrite Hent, entries_for_NewHashTable.
Qed.

(** ** The alignment of the two directories *)

Lemma align_spec n : forall lt rt,
  WF H lt -> WF H rt ->
  Z.abs (depth lt - depth rt) <= Z.of_nat n ->
  WF H (align n lt rt).1 /\ WF H (align n lt rt).2 /\
  depth (align n lt rt).1 = depth (align n lt rt).2 /\
  (forall k, entries_for H (align n lt rt).1 k = entries_for H lt k) /\
  (forall k, entries_for H (align n lt rt).2 k = entries_for H rt k).
Proof.
  induction n as [|n IH]; intros lt rt HL HR Hn; simpl.
  - split; [done|]. split; [done|]. split; [lia|]. split; done.
  - destruct (depth lt =? depth rt) eqn:E;
      [apply Z.eqb_eq in E; simpl; split; [done|]; split; [done|]; split; [done|]; split; done|].
    apply Z.eqb_neq in E.
    destruct (depth lt <? depth rt) eqn:E'.
    + apply Z.ltb_lt in E'.
      destruct (IH (ExtendTable lt) rt) as (? & ? & ? & HeL & HeR);
        [by apply WF_ExtendTable|done|simpl; lia|].
      split; [done|]. split; [done|]. split; [done|]. split; [|done].
      intros k. rewrite HeL. by apply entries_for_ExtendTable.
    + apply Z.ltb_ge in E'.
      destruct (IH lt (ExtendTable rt)) as (? & ? & ? & HeL & HeR);
        [done|by apply WF_ExtendTable|simpl; lia|].
      split; [done|]. split; [done|]. split; [done|]. split; [done|].
      intros k. rewrite HeR. by apply entries_for_ExtendTable.
Qed.

(** ** The bucket pairs *)

Lemma bucket_pairs_sub : forall ls rs seen p,
  p ∈ bucket_pairs ls rs seen -> p ∈ zip ls rs /\ p ∉ seen.
Proof.
  induction ls as [|lpn ls IH]; intros [|rpn rs] seen p; simpl;
    try (by intros []%elem_of_nil).
  destruct (decide ((lpn, rpn) ∈ seen)) as [Hs|Hs].
  - intros Hp. destruct (IH _ _ _ Hp) as [? ?]. split; [by right|done].
  - intros [->|Hp]%elem_of_cons; [split; [by left|done]|].
    destruct (IH _ _ _ Hp) as [? Hn]. split; [by right|].
    intros Hin. apply Hn, elem_of_union. by right.
Qed.

Lemma bucket_pairs_complete : forall ls rs seen p,
  p ∈ zip ls rs -> p ∈ seen \/ p ∈ bucket_pairs ls rs seen.
Proof.
  induction ls as [|lpn ls IH]; intros [|rpn rs] seen p; simpl;
    try (by intros []%elem_of_nil).
  intros [->|Hp]%elem_of_cons.
  - destruct (decide ((lpn, rpn) ∈ seen)); [by left|right; by left].
  - destruct (decide ((lpn, rpn) ∈ seen)) as [Hs|Hs]; [by apply IH|].
    destruct (IH rs ({[(lpn, rpn)]} ∪ seen) p Hp) as [Hin|Hin].
    + apply elem_of_union in Hin as [->%elem_of_singleton|Hin]; [right; by left|by left].
    + right. by right.
Qed.

Lemma NoDup_bucket_pairs : forall ls rs seen, NoDup (bucket_pairs ls rs seen).
Proof.
  induction ls as [|lpn ls IH]; intros [|rpn rs] seen; simpl; try constructor.
  destruct (decide ((lpn, rpn) ∈ seen)); [apply IH|].
  constructor; [|apply IH].
  intros [_ Hn]%bucket_pairs_sub. set_solver.
Qed.

Lemma slots_zip (ls rs : list Z) i lpn rpn :
  slot ls i = Some lpn -> slot rs i = Some rpn -> (lpn, rpn) ∈ zip ls rs.
Proof.
  unfold slot. destruct (i <? 0); [done|]. intros Hl Hr.
  apply list_elem_of_lookup. exists (Z.to_nat i).
  apply lookup_zip_with_Some. eauto.
Qed.

Lemma zip_slots (ls rs : list Z) lpn rpn :
  (lpn, rpn) ∈ zip ls rs ->
  exists i, slot ls i = Some lpn /\ slot rs i = Some rpn.
Proof.
  intros [i Hi]%list_elem_of_lookup.
  apply lookup_zip_with_Some in Hi as (x & y & [= -> ->] & Hl & Hr).
  exists (Z.of_nat i). unfold slot.
  destruct (Z.of_nat i <? 0) eqn:E; [apply Z.ltb_lt in E; lia|].
  by rewrite Nat2Z.id.
Qed.

(** ** The probes *)

Lemma probe_all_pages lt rt jl jr : forall pairs bs,
  get_buckets lt rt pairs = inl bs ->
  (probe_all bs jl jr).1 = pairs ≫= probe_pages lt rt jl jr.
Proof.
  induction pairs as [|[lpn rpn] pairs IH]; intros bs; simpl.
  - by intros [= <-].
  - unfold GetBucketByPN, probe_pages at 1; simpl.
    destruct (pages (pager lt) !! lpn) as [bl|]; [|done].
    destruct (pages (pager rt) !! rpn) as [br|]; [|done].
    destruct (get_buckets lt rt pairs) as [bs'|]; [|done].
    intros [= <-]. simpl.
    destruct (probeBuckets bl br jl jr) as [out err].
    specialize (IH _ eq_refl).
    destruct (probe_all bs' jl jr) as [outs errs]. simpl in *. by rewrite IH.
Qed.

Lemma probe_all_no_error jl jr : forall bs,
  (probe_all bs jl jr).2 = None ->
  forall bl br, (bl, br) ∈ bs -> (probeBuckets bl br jl jr).2 = None.
Proof.
  induction bs as [|[bl0 br0] bs IH]; simpl; [by intros _ ? ? []%elem_of_nil|].
  destruct (probeBuckets bl0 br0 jl jr) as [out err] eqn:E0.
  destruct (probe_all bs jl jr) as [outs errs]. simpl in *.
  intros Herr bl br [[= -> ->]|Hin]%elem_of_cons.
  - rewrite E0. simpl. by destruct err.
  - apply IH; [|done]. by destruct err.
Qed.

Lemma get_buckets_elem lt rt : forall pairs bs lpn rpn,
  get_buckets lt rt pairs = inl bs ->
  (lpn, rpn) ∈ pairs ->
  exists bl br, pages (pager lt) !! lpn = Some bl /\
                pages (pager rt) !! rpn = Some br /\ (bl, br) ∈ bs.
Proof.
  induction pairs as [|[lpn0 rpn0] pairs IH]; intros bs lpn rpn; simpl;
    [by intros _ []%elem_of_nil|].
  unfold GetBucketByPN.
  destruct (pages (pager lt) !! lpn0) as [bl|] eqn:El; [|done].
  destruct (pages (pager rt) !! rpn0) as [br|] eqn:Er; [|done].
  destruct (get_buckets lt rt pairs) as [bs'|]; [|done].
  intros [= <-] [[= -> ->]|Hin]%elem_of_cons.
  - exists bl, br. split; [done|]. split; [done|]. by left.
  - destruct (IH _ _ _ eq_refl Hin) as (bl' & br' & ? & ? & ?).
    exists bl', br'. split; [done|]. split; [done|]. by right.
Qed.

Lemma Contains_fold_mono (es : list HashEntry) k : forall bf,
  Bloom.Contains XxHasher MurmurHasher bf k = true ->
  Bloom.Contains XxHasher MurmurHasher
    (fold_left (fun bf e => Bloom.Insert XxHasher MurmurHasher bf (key e)) es bf) k
  = true.
Proof.
  induction es as [|e es IH]; intros bf Hc; simpl; [done|].
  by apply IH, Bloom.Contains_Insert_mono.
Qed.

Lemma Contains_fold_Insert (es : list HashEntry) e : forall bf,
  e ∈ es ->
  Bloom.Contains XxHasher MurmurHasher
    (fold_left (fun bf e => Bloom.Insert XxHasher MurmurHasher bf (key e)) es bf)
    (key e) = true.
Proof.
  induction es as [|e0 es IH]; intros bf; [by intros []%elem_of_nil|].
  simpl. intros [->|Hin]%elem_of_cons; [|by apply IH].
  apply Contains_fold_mono, Bloom.Contains_Insert_same.
Qed.

(** What a probe sends: when the two buckets have the same local depth,
    the pairs of a left and a right entry with equal keys, restored. *)
Lemma elem_of_probeBuckets bl br jl jr p :
  p ∈ (probeBuckets bl br jl jr).1 <->
  bdepth bl = bdepth br /\
  exists el er, el ∈ entries bl /\ er ∈ entries br /\ key el = key er /\
                p = mkPair (orient jl el) (orient jr er).
Proof.
  unfold probeBuckets.
  destruct (bdepth bl =? bdepth br) eqn:E; simpl.
  - apply Z.eqb_eq in E. rewrite list_elem_of_bind. split.
    + intros (er & Hp & Her).
      destruct (Bloom.Contains _ _ _ _); [|by apply elem_of_nil in Hp].
      apply list_elem_of_bind in Hp as (el & Hp & Hel).
      destruct (key el =? key er) eqn:Ek; [|by apply elem_of_nil in Hp].
      apply Z.eqb_eq in Ek. apply list_elem_of_singleton in Hp.
      split; [done|]. by exists el, er.
    + intros (_ & el & er & Hel & Her & Hk & ->).
      exists er. split; [|done].
      rewrite <- Hk, Contains_fold_Insert by done.
      apply list_elem_of_bind. exists el. split; [|done].
      rewrite Hk, Z.eqb_refl. apply list_elem_of_singleton. done.
  - apply Z.eqb_neq in E. split; [intros []%elem_of_nil|]. by intros [? _].
Qed.

Lemma probeBuckets_no_error bl br jl jr :
  (probeBuckets bl br jl jr).2 = None -> bdepth bl = bdepth br.
Proof.
  unfold probeBuckets. destruct (bdepth bl =? bdepth br) eqn:E; simpl; [|done].
  by apply Z.eqb_eq in E.
Qed.

Lemma NoDup_probeBuckets bl br jl jr :
  NoDup (key <$> entries bl) -> NoDup (key <$> entries br) ->
  NoDup (probeBuckets bl br jl jr).1.
Proof.
  intros HL%NoDup_fmap_1 HR%NoDup_fmap_1. unfold probeBuckets.
  destruct (bdepth bl =? bdepth br); simpl; [|constructor].
  apply NoDup_bind; [| |done].
  - intros er1 er2 p _ _ Hp1 Hp2.
    destruct (Bloom.Contains _ _ _ (key er1)); [|by apply elem_of_nil in Hp1].
    destruct (Bloom.Contains _ _ _ (key er2)); [|by apply elem_of_nil in Hp2].
    apply list_elem_of_bind in Hp1 as (el1 & Hp1 & _).
    apply list_elem_of_bind in Hp2 as (el2 & Hp2 & _).
    destruct (key el1 =? key er1); [|by apply elem_of_nil in Hp1].
    destruct (key el2 =? key er2); [|by apply elem_of_nil in Hp2].
    apply list_elem_of_singleton in Hp1, Hp2. subst p.
    injection Hp2 as _ Hr. by apply (inj (orient jr)) in Hr.
  - intros er _. destruct (Bloom.Contains _ _ _ _); [|constructor].
    apply NoDup_bind; [| |done].
    + intros el1 el2 p _ _ Hp1 Hp2.
      destruct (key el1 =? key er); [|by apply elem_of_nil in Hp1].
      destruct (key el2 =? key er); [|by apply elem_of_nil in Hp2].
      apply list_elem_of_singleton in Hp1, Hp2. subst p.
      injection Hp2 as Hl. by apply (inj (orient jl)) in Hl.
    + intros el _. destruct (key el =? key er); [apply NoDup_singleton|constructor].
Qed.

Lemma filter_key_NoDup_le (es : list HashEntry) k :
  NoDup (key <$> es) -> (length (filter (fun e => key e = k) es) <= 1)%nat.
Proof.
  induction es as [|e es IH]; simpl; [lia|].
  intros [Hnotin Hnd]%NoDup_cons. rewrite filter_cons.
  destruct (decide (key e = k)) as [Hk|Hk]; [|by apply IH].
  simpl. destruct (filter (fun e => key e = k) es) as [|e' rest] eqn:Ef; [simpl; lia|].
  exfalso. apply Hnotin.
  assert (He' : e' ∈ filter (fun e => key e = k) es) by (rewrite Ef; apply list_elem_of_here).
  apply list_elem_of_filter in He' as [Hk' He'].
  apply list_elem_of_fmap. exists e'. split; [congruence|done].
Qed.

Lemma keys_orient useKey (es : list HashEntry) :
  key <$> (orient useKey <$> es) = keySide useKey <$> es.
Proof.
  rewrite <- list_fmap_compose. apply list_fmap_ext. intros _ e _. apply key_orient.
Qed.

(** An entry pair sent by the probe of a bucket pair of the directories:
    its two entries come from the buckets that their keys hash to, and
    from the two source tables. *)
Lemma probe_pages_elem lt rt jl jr leftTable rightTable lpn rpn p :
  WF H lt -> WF H rt ->
  (forall k, entries_for H lt k = filter (fun e => key e = k) (orient jl <$> leftTable)) ->
  (forall k, entries_for H rt k = filter (fun e => key e = k) (orient jr <$> rightTable)) ->
  (lpn, rpn) ∈ zip (buckets lt) (buckets rt) ->
  p ∈ probe_pages lt rt jl jr (lpn, rpn) ->
  exists el er,
    p = mkPair (orient jl el) (orient jr er) /\ key el = key er /\
    slot (buckets lt) (Hasher H (key el) (depth lt)) = Some lpn /\
    slot (buckets rt) (Hasher H (key er) (depth rt)) = Some rpn /\
    orient jl el ∈ leftTable /\ orient jr er ∈ rightTable.
Proof.
  intros HL HR HeL HeR Hzip. unfold probe_pages; simpl.
  destruct (pages (pager lt) !! lpn) as [bl|] eqn:El; [|by intros []%elem_of_nil].
  destruct (pages (pager rt) !! rpn) as [br|] eqn:Er; [|by intros []%elem_of_nil].
  intros (_ & el & er & Hel & Her & Hk & ->)%elem_of_probeBuckets.
  destruct (zip_slots _ _ _ _ Hzip) as (i & Hil & Hir).
  pose proof (WF_home H _ _ _ _ _ HL Hil El Hel) as HhL.
  pose proof (WF_home H _ _ _ _ _ HR Hir Er Her) as HhR.
  exists el, er. split; [done|]. split; [done|]. split; [done|]. split; [done|].
  split.
  - assert (Hin : el ∈ entries_for H lt (key el)) by (apply elem_of_entries_for; eauto).
    rewrite HeL in Hin. apply list_elem_of_filter in Hin as [_ Hin].
    apply list_elem_of_fmap in Hin as (e0 & -> & He0). by rewrite orient_involutive.
  - assert (Hin : er ∈ entries_for H rt (key er)) by (apply elem_of_entries_for; eauto).
    rewrite HeR in Hin. apply list_elem_of_filter in Hin as [_ Hin].
    apply list_elem_of_fmap in Hin as (e0 & -> & He0). by rewrite orient_involutive.
Qed.

(** C6, as the code has it. The pairs that the join emits have their
    entries in the two input tables and equal keys on the join side; when
    the join ends without error, every pair of input entries with equal
    join-side keys is emitted; when the join-side keys of each input are
    distinct, no pair is emitted twice. *)
Theorem Join_pairs fuel leftTable rightTable joinOnLeftKey joinOnRightKey out err :
  Join fuel leftTable rightTable joinOnLeftKey joinOnRightKey = Some (out, err) ->
  (forall p, p ∈ out ->
     pair_l p ∈ leftTable /\ pair_r p ∈ rightTable /\
     keySide joinOnLeftKey (pair_l p) = keySide joinOnRightKey (pair_r p)) /\
  (err = None ->
   forall el er, el ∈ leftTable -> er ∈ rightTable ->
     keySide joinOnLeftKey el = keySide joinOnRightKey er ->
     mkPair el er ∈ out) /\
  (NoDup (keySide joinOnLeftKey <$> leftTable) ->
   NoDup (keySide joinOnRightKey <$> rightTable) ->
   NoDup out).
Proof.
  unfold Join.
  assert (Hnone : forall e : string,
    Some (([] : list EntryPair), Some e) = Some (out, err) ->
    (forall p, p ∈ out ->
       pair_l p ∈ leftTable /\ pair_r p ∈ rightTable /\
       keySide joinOnLeftKey (pair_l p) = keySide joinOnRightKey (pair_r p)) /\
    (err = None ->
     forall el er, el ∈ leftTable -> er ∈ rightTable ->
       keySide joinOnLeftKey el = keySide joinOnRightKey er ->
       mkPair el er ∈ out) /\
    (NoDup (keySide joinOnLeftKey <$> leftTable) ->
     NoDup (keySide joinOnRightKey <$> rightTable) ->
     NoDup out)).
  { intros e [= <- <-]. split; [by intros p []%elem_of_nil|].
    split; [done|]. intros _ _. constructor. }
  destruct (buildHashIndex fuel leftTable joinOnLeftKey) as [[lt0|e]|] eqn:EL;
    [|apply Hnone|done].
  destruct (buildHashIndex fuel rightTable joinOnRightKey) as [[rt0|e]|] eqn:ER;
    [|apply Hnone|done].
  destruct (buildHashIndex_spec _ _ _ _ EL) as (HL0 & HeL0).
  destruct (buildHashIndex_spec _ _ _ _ ER) as (HR0 & HeR0).
  destruct (align_spec (Z.to_nat (Z.abs (depth lt0 - depth rt0))) lt0 rt0 HL0 HR0 ltac:(lia))
    as (HL & HR & HD & HeL & HeR).
  destruct (align _ lt0 rt0) as [lt rt]. simpl in HL, HR, HD, HeL, HeR.
  assert (HeL' : forall k, entries_for H lt k
                           = filter (fun e => key e = k) (orient joinOnLeftKey <$> leftTable))
    by (intros k; by rewrite HeL, HeL0).
  assert (HeR' : forall k, entries_for H rt k
                           = filter (fun e => key e = k) (orient joinOnRightKey <$> rightTable))
    by (intros k; by rewrite HeR, HeR0).
  set (pairs := bucket_pairs (buckets lt) (buckets rt) ∅).
  destruct (get_buckets lt rt pairs) as [bs|e] eqn:EG.
  2:{ apply Hnone. }
  clear Hnone. intros [= Hprobe].
  pose proof (probe_all_pages lt rt joinOnLeftKey joinOnRightKey _ _ EG) as Hout.
  rewrite Hprobe in Hout. simpl in Hout. subst out.
  assert (Hpairs : forall pns, pns ∈ pairs -> pns ∈ zip (buckets lt) (buckets rt)).
  { intros pns Hin. by apply bucket_pairs_sub in Hin as [? _]. }
  split; [|split].
  - intros p (pns & Hp & Hpns)%list_elem_of_bind. destruct pns as [lpn rpn].
    destruct (probe_pages_elem _ _ _ _ _ _ _ _ _ HL HR HeL' HeR' (Hpairs _ Hpns) Hp)
      as (el & er & -> & Hk & _ & _ & HinL & HinR).
    simpl. split; [done|]. split; [done|].
    by rewrite <- !key_orient, !orient_involutive.
  - intros -> el0 er0 Hel0 Her0 Hk.
    set (el := orient joinOnLeftKey el0). set (er := orient joinOnRightKey er0).
    assert (Hkey : key el = key er) by (subst el er; by rewrite !key_orient).
    assert (HinL : el ∈ entries_for H lt (key el)).
    { rewrite HeL'. apply list_elem_of_filter. split; [done|].
      apply list_elem_of_fmap. by exists el0. }
    assert (HinR : er ∈ entries_for H rt (key er)).
    { rewrite HeR'. apply list_elem_of_filter. split; [done|].
      apply list_elem_of_fmap. by exists er0. }
    apply elem_of_entries_for in HinL as (lpn & bl & HsL & HbL & HelL).
    apply elem_of_entries_for in HinR as (rpn & br & HsR & HbR & HelR).
    rewrite <- Hkey, <- HD in HsR.
    pose proof (slots_zip _ _ _ _ _ HsL HsR) as Hzip.
    destruct (bucket_pairs_complete _ _ ∅ _ Hzip) as [Hin|Hin]; [by apply elem_of_empty in Hin|].
    fold pairs in Hin.
    destruct (get_buckets_elem _ _ _ _ _ _ EG Hin) as (bl' & br' & HbL' & HbR' & Hbs).
    rewrite HbL in HbL'. injection HbL' as <-. rewrite HbR in HbR'. injection HbR' as <-.
    pose proof (probe_all_no_error joinOnLeftKey joinOnRightKey bs) as Hnoerr.
    rewrite Hprobe in Hnoerr. specialize (Hnoerr eq_refl _ _ Hbs).
    apply probeBuckets_no_error in Hnoerr.
    apply list_elem_of_bind. exists (lpn, rpn). split; [|done].
    unfold probe_pages; simpl. rewrite HbL, HbR.
    apply elem_of_probeBuckets. split; [done|].
    exists el, er. split; [done|]. split; [done|]. split; [done|].
    subst el er. by rewrite !orient_involutive.
  - intros HndL HndR.
    rewrite <- keys_orient in HndL, HndR.
    assert (HoneL : forall k, (length (entries_for H lt k) <= 1)%nat).
    { intros k. rewrite HeL'. by apply filter_key_NoDup_le. }
    assert (HoneR : forall k, (length (entries_for H rt k) <= 1)%nat).
    { intros k. rewrite HeR'. by apply filter_key_NoDup_le. }
    apply NoDup_bind; [| |apply NoDup_bucket_pairs].
    + intros [lpn1 rpn1] [lpn2 rpn2] p Hin1 Hin2 Hp1 Hp2.
      destruct (probe_pages_elem _ _ _ _ _ _ _ _ _ HL HR HeL' HeR' (Hpairs _ Hin1) Hp1)
        as (el1 & er1 & -> & _ & HsL1 & HsR1 & _).
      destruct (probe_pages_elem _ _ _ _ _ _ _ _ _ HL HR HeL' HeR' (Hpairs _ Hin2) Hp2)
        as (el2 & er2 & Heq & _ & HsL2 & HsR2 & _).
      injection Heq as Hl Hr.
      apply (inj (orient joinOnLeftKey)) in Hl.
      apply (inj (orient joinOnRightKey)) in Hr. subst el2 er2. congruence.
    + intros [lpn rpn] Hin. unfold probe_pages; simpl.
      destruct (pages (pager lt) !! lpn) as [bl|] eqn:El; [|constructor].
      destruct (pages (pager rt) !! rpn) as [br|] eqn:Er; [|constructor].
      destruct (zip_slots _ _ _ _ (Hpairs _ Hin)) as (i & Hil & Hir).
      apply NoDup_probeBuckets.
      * by apply (WF_bucket_NoDup_keys H lt i lpn).
      * by apply (WF_bucket_NoDup_keys H rt i rpn).
Qed.

(** ** Further properties of the join *)

Lemma bind_no_match (L : list HashEntry) (er : HashEntry) jl jr :
  (forall el, el ∈ L -> key el <> key er) ->
  L ≫= (fun el => if key el =? key er
                  then [mkPair (orient jl el) (orient jr er)] else []) = [].
Proof.
  induction L as [|el L IH]; intros Hno; [done|].
  rewrite bind_cons.
  destruct (key el =? key er) eqn:E.
  - apply Z.eqb_eq in E. exfalso. apply (Hno el); [apply list_elem_of_here|done].
  - rewrite IH; [done|]. intros el' Hel'. apply Hno. by right.
Qed.

(** The Bloom filter of [probeBuckets] never hides a match. *)
Lemma probeBuckets_unfiltered lBucket rBucket joinOnLeftKey joinOnRightKey :
  probeBuckets lBucket rBucket joinOnLeftKey joinOnRightKey =
  if bdepth lBucket =? bdepth rBucket
  then (entries rBucket ≫= (fun er =>
          entries lBucket ≫= (fun el =>
            if key el =? key er
            then [mkPair (orient joinOnLeftKey el) (orient joinOnRightKey er)]
            else [])),
        None)
  else ([], Some "the size of lBucket is not equal with the size of rBucket"%string).
Proof.
  unfold probeBuckets. destruct (bdepth lBucket =? bdepth rBucket); simpl; [|done].
  f_equal. induction (entries rBucket) as [|er R IH]; [done|].
  rewrite !bind_cons, IH. f_equal.
  destruct (Bloom.Contains _ _ _ (key er)) eqn:EC; [done|].
  symmetry. apply bind_no_match. intros el Hel Hk.
  rewrite <- Hk, Contains_fold_Insert in EC by done. done.
Qed.

(** X1. The Bloom filter of [probeBuckets] is a pure optimisation: for two
    buckets of equal local depth the probe sends exactly the pairs of the
    nested loop over the right and the left entries with equal keys, in
    that order, every match of a duplicated key included; for two buckets
    of different local depths it sends nothing and returns its error. *)
Theorem probeBuckets_nested_loop lBucket rBucket joinOnLeftKey joinOnRightKey :
  probeBuckets lBucket rBucket joinOnLeftKey joinOnRightKey =
  if bdepth lBucket =? bdepth rBucket
  then (entries rBucket ≫= (fun er =>
          entries lBucket ≫= (fun el =>
            if key el =? key er
            then [mkPair (orient joinOnLeftKey el) (orient joinOnRightKey er)]
            else [])),
        None)
  else ([], Some "the size of lBucket is not equal with the size of rBucket"%string).
Proof. apply probeBuckets_unfiltered. Qed.



(** ** The errors of the join *)


Lemma get_buckets_total lt rt : forall pairs,
  (forall lpn rpn, (lpn, rpn) ∈ pairs ->
     is_Some (pages (pager lt) !! lpn) /\ is_Some (pages (pager rt) !! rpn)) ->
  exists bs, get_buckets lt rt pairs = inl bs.
Proof.
  induction pairs as [|[lpn rpn] pairs IH]; intros Hall; simpl; [eauto|].
  destruct (Hall lpn rpn ltac:(apply list_elem_of_here)) as [[bl Hl] [br Hr]].
  unfold GetBucketByPN. rewrite Hl, Hr.
  destruct IH as [bs ->]; [|eauto].
  intros l r Hin. apply Hall. by right.
Qed.

Lemma get_buckets_inv lt rt : forall pairs bs bl br,
  get_buckets lt rt pairs = inl bs -> (bl, br) ∈ bs ->
  exists lpn rpn, (lpn, rpn) ∈ pairs /\
    pages (pager lt) !! lpn = Some bl /\ pages (pager rt) !! rpn = Some br.
Proof.
  induction pairs as [|[lpn rpn] pairs IH]; intros bs bl br; simpl.
  { intros [= <-] []%elem_of_nil. }
  unfold GetBucketByPN.
  destruct (pages (pager lt) !! lpn) as [bl0|] eqn:El; [|done].
  destruct (pages (pager rt) !! rpn) as [br0|] eqn:Er; [|done].
  destruct (get_buckets lt rt pairs) as [bs0|]; [|done].
  intros [= <-] [[= -> ->]|Hin]%elem_of_cons.
  - exists lpn, rpn. split; [apply list_elem_of_here|done].
  - destruct (IH _ _ _ eq_refl Hin) as (l & r & ? & ? & ?).
    exists l, r. split; [by right|done].
Qed.

Lemma probe_all_error jl jr : forall bs e,
  (probe_all bs jl jr).2 = Some e ->
  e = "the size of lBucket is not equal with the size of rBucket"%string /\
  exists bl br, (bl, br) ∈ bs /\ bdepth bl <> bdepth br.
Proof.
  induction bs as [|[bl br] bs IH]; intros e; simpl; [done|].
  destruct (probeBuckets bl br jl jr) as [out err] eqn:Ep.
  destruct (probe_all bs jl jr) as [outs errs]. simpl in *.
  destruct err as [e0|].
  - intros [= <-]. unfold probeBuckets in Ep.
    destruct (bdepth bl =? bdepth br) eqn:E; simpl in Ep; [done|].
    injection Ep as _ <-. split; [done|].
    exists bl, br. split; [apply list_elem_of_here|]. by apply Z.eqb_neq.
  - intros ->. destruct (IH _ eq_refl) as (? & bl' & br' & ? & ?).
    split; [done|]. exists bl', br'. split; [by right|done].
Qed.

Lemma probe_all_ok jl jr : forall bs,
  (forall bl br, (bl, br) ∈ bs -> bdepth bl = bdepth br) ->
  (probe_all bs jl jr).2 = None.
Proof.
  intros bs Hall. destruct ((probe_all bs jl jr).2) as [e|] eqn:E; [|done].
  destruct (probe_all_error _ _ _ _ E) as (_ & bl & br & Hin & Hne).
  by specialize (Hall _ _ Hin).
Qed.

Lemma get_buckets_WF lt rt :
  WF H lt -> WF H rt ->
  exists bs, get_buckets lt rt (bucket_pairs (buckets lt) (buckets rt) ∅) = inl bs.
Proof.
  intros HL HR. apply get_buckets_total. intros lpn rpn [Hin _]%bucket_pairs_sub.
  destruct (zip_slots _ _ _ _ Hin) as (i & Hil & Hir).
  destruct HL as (_ & _ & _ & HsL). destruct HR as (_ & _ & _ & HsR).
  destruct (HsL _ _ Hil) as (bl & -> & _). destruct (HsR _ _ Hir) as (br & -> & _). eauto.
Qed.


(** ** Tables smaller than a bucket *)

(** A table that no [Insert] has split yet, with at most [n] entries in
    every bucket. *)
Definition Small (n : Z) (table : HashTable) : Prop :=
  WF H table /\ depth table = 2 /\
  forall pn b, pages (pager table) !! pn = Some b -> bdepth b = 2 /\ numKeys b <= n.

Lemma Small_NewHashTable : Small 0 (NewHashTable empty_pager).
Proof.
  split; [apply WF_NewHashTable|]. split; [done|].
  rewrite NewHashTable_eq. simpl. intros pn b.
  destruct (decide (pn = 3)) as [->|]; [rewrite lookup_insert_eq; by intros [= <-]|].
  rewrite lookup_insert_ne by done.
  destruct (decide (pn = 2)) as [->|]; [rewrite lookup_insert_eq; by intros [= <-]|].
  rewrite lookup_insert_ne by done.
  destruct (decide (pn = 1)) as [->|]; [rewrite lookup_insert_eq; by intros [= <-]|].
  rewrite lookup_insert_ne by done.
  destruct (decide (pn = 0)) as [->|]; [rewrite lookup_insert_eq; by intros [= <-]|].
  rewrite lookup_insert_ne by done. done.
Qed.

Lemma insert_all_Small fuel : forall es table n,
  Small n table -> 0 <= n -> n + Z.of_nat (length es) < BUCKETSIZE ->
  exists table', insert_all fuel table es = Some table' /\
                 Small (n + Z.of_nat (length es)) table'.
Proof.
  induction es as [|e es IH]; intros table n HS Hn Hlt.
  { exists table. split; [done|]. simpl. by rewrite Z.add_0_r. }
  simpl insert_all. rewrite length_cons, Nat2Z.inj_succ in Hlt |- *.
  destruct HS as (HWF & HD & Hpages).
  destruct (WF_GetBucket H table (key e) HWF)
    as (pn & bucket & HGet & Hslot & Hpn & Hent & Hd & Hkeys).
  destruct (Hpages _ _ Hpn) as [Hbd Hnk].
  unfold Insert at 1. rewrite HGet. unfold bucket_Insert.
  set (bucket1 := mkBucket (bdepth bucket) (entries bucket ++ [mkEntry (key e) (value e)])).
  assert (Hn1 : numKeys bucket1 = numKeys bucket + 1).
  { unfold numKeys, bucket1; simpl. rewrite length_app; simpl. lia. }
  destruct (BUCKETSIZE <=? numKeys bucket1) eqn:E; [apply Z.leb_le in E; lia|].
  simpl.
  destruct (IH (write_bucket table pn bucket1) (n + 1)) as (table' & -> & HS'); [|lia|lia|].
  - split; [|split; [done|]].
    + apply (WF_write_bucket H table (Hasher H (key e) (depth table)) pn bucket); try done.
      intros x Hx. rewrite Hasher_mod by done.
      apply elem_of_app in Hx as [Hx|Hx]; [by apply Hkeys|].
      apply list_elem_of_singleton in Hx as ->. done.
    + intros q b. simpl. destruct (decide (q = pn)) as [->|Hne].
      * rewrite lookup_insert_eq. intros [= <-]. split; [done|lia].
      * rewrite lookup_insert_ne by done. intros Hb.
        destruct (Hpages _ _ Hb). split; [done|lia].
  - exists table'. split; [done|].
    replace (n + Z.succ (Z.of_nat (length es))) with (n + 1 + Z.of_nat (length es)) by lia.
    done.
Qed.

Lemma buildHashIndex_Small fuel sourceTable useKey :
  Z.of_nat (length sourceTable) < BUCKETSIZE ->
  exists tempIndex, buildHashIndex fuel sourceTable useKey = Some (inl tempIndex) /\
                    Small (Z.of_nat (length sourceTable)) tempIndex.
Proof.
  intros Hlt. unfold buildHashIndex, TableStart. rewrite build_loop_insert_all by lia.
  destruct (insert_all_Small fuel (orient useKey <$> sourceTable) _ 0 Small_NewHashTable)
    as (t & -> & HS); [lia|rewrite length_fmap; lia|].
  exists t. split; [done|]. by rewrite length_fmap in HS.
Qed.

(** X11. A join of two tables that each have fewer entries than a bucket
    holds succeeds: no bucket is split while the temporary indexes are
    built, whatever the keys, so that every probe is of two buckets of
    local depth 2 and [Join] returns with no error, for any bound on the
    rounds of [Split]. *)
Theorem Join_small_tables fuel leftTable rightTable joinOnLeftKey joinOnRightKey :
  Z.of_nat (length leftTable) < BUCKETSIZE ->
  Z.of_nat (length rightTable) < BUCKETSIZE ->
  exists out,
    Join fuel leftTable rightTable joinOnLeftKey joinOnRightKey = Some (out, None).
Proof.
  intros HlL HlR. unfold Join.
  destruct (buildHashIndex_Small fuel leftTable joinOnLeftKey HlL)
    as (lt & -> & HWL & HDL & HpL).
  destruct (buildHashIndex_Small fuel rightTable joinOnRightKey HlR)
    as (rt & -> & HWR & HDR & HpR).
  rewrite HDL, HDR. simpl align.
  destruct (get_buckets_WF lt rt HWL HWR) as [bs Hbs]. rewrite Hbs.
  exists (probe_all bs joinOnLeftKey joinOnRightKey).1. f_equal.
  rewrite (surjective_pairing (probe_all bs joinOnLeftKey joinOnRightKey)). f_equal.
  apply probe_all_ok. intros bl br Hin.
  destruct (get_buckets_inv _ _ _ _ _ _ Hbs Hin) as (lpn & rpn & _ & Hl & Hr).
  destruct (HpL _ _ Hl) as [-> _]. destruct (HpR _ _ Hr) as [-> _]. done.
Qed.


End Operator.

(** ** The scenarios, with the hash and the bucket size of [Hash.demo_H]
    and [Hash.demo_BUCKETSIZE] and the filter hashes of [Bloom] *)

Definition demo_Join :=
  Join demo_H demo_BUCKETSIZE Bloom.demo_xx Bloom.demo_murmur 8.

(** Scenario S3: the values [a], [b], [c] and [x], [y], [z] are written as
    their character codes. *)
Definition s3_left : list HashEntry := [mkEntry 1 97; mkEntry 2 98; mkEntry 3 99].
Definition s3_right : list HashEntry := [mkEntry 2 120; mkEntry 3 121; mkEntry 4 122].
Definition s3_out : list EntryPair :=
  [mkPair (mkEntry 2 98) (mkEntry 2 120); mkPair (mkEntry 3 99) (mkEntry 3 121)].

(** Four left keys fill the bucket of slot 0, which splits to local depth
    3; the bucket of the one right key stays at local depth 2. *)
Definition uneven_left : list HashEntry :=
  [mkEntry 0 10; mkEntry 4 14; mkEntry 8 18; mkEntry 12 22].
Definition uneven_right : list HashEntry := [mkEntry 0 100].

Lemma Join_pairs_witness :
  demo_Join s3_left s3_right true true = Some (s3_out, None) /\
  (forall p, p ∈ s3_out ->
     pair_l p ∈ s3_left /\ pair_r p ∈ s3_right /\
     keySide true (pair_l p) = keySide true (pair_r p)) /\
  mkPair (mkEntry 3 99) (mkEntry 3 121) ∈ s3_out /\
  NoDup s3_out.
Proof.
  assert (HJ : demo_Join s3_left s3_right true true = Some (s3_out, None))
    by (vm_compute; reflexivity).
  destruct (Join_pairs demo_H demo_BUCKETSIZE Bloom.demo_xx Bloom.demo_murmur 8
              s3_left s3_right true true s3_out None HJ)
    as (Hsound & Hcomplete & Hnodup).
  split; [exact HJ|]. split; [exact Hsound|]. split.
  - apply (Hcomplete eq_refl (mkEntry 3 99) (mkEntry 3 121)).
    + refine (bool_decide_unpack _ _); vm_compute; exact I.
    + refine (bool_decide_unpack _ _); vm_compute; exact I.
    + reflexivity.
  - apply Hnodup; refine (bool_decide_unpack _ _); vm_compute; exact I.
Defined.

(** C6, as stated, fails on completeness: the left entry (0,10) and the
    right entry (0,100) have equal keys, their buckets have local depths 3
    and 2, the probe of the two buckets returns an error and the pair is
    not emitted. *)
Lemma Join_uneven_depths_counterexample :
  demo_Join uneven_left uneven_right true true
    = Some ([], Some "the size of lBucket is not equal with the size of rBucket"%string) /\
  mkEntry 0 10 ∈ uneven_left /\ mkEntry 0 100 ∈ uneven_right /\
  keySide true (mkEntry 0 10) = keySide true (mkEntry 0 100) /\
  ~ (exists out err,
       demo_Join uneven_left uneven_right true true = Some (out, err) /\
       mkPair (mkEntry 0 10) (mkEntry 0 100) ∈ out).
Proof.
  assert (HJ : demo_Join uneven_left uneven_right true true
    = Some ([], Some "the size of lBucket is not equal with the size of rBucket"%string))
    by (vm_compute; reflexivity).
  split; [exact HJ|].
  split; [refine (bool_decide_unpack _ _); vm_compute; exact I|].
  split; [refine (bool_decide_unpack _ _); vm_compute; exact I|].
  split; [reflexivity|].
  intros (out & err & HJ' & Hin). rewrite HJ in HJ'. injection HJ' as <- <-.
  by apply elem_of_nil in Hin.
Qed.




Lemma probe_all_filter_independent xx mm xx' mm' jl jr bs :
  probe_all xx mm bs jl jr = probe_all xx' mm' bs jl jr.
Proof.
  induction bs as [|[bl br] bs IH]; [done|]. simpl.
  by rewrite IH, !probeBuckets_unfiltered.
Qed.

(** X12. The pairs and the error of [Join] do not depend on the two hash
    functions of the Bloom filter: the filter only saves comparisons. *)
Theorem Join_filter_independent H BUCKETSIZE xx mm xx' mm' fuel
    leftTable rightTable joinOnLeftKey joinOnRightKey :
  Join H BUCKETSIZE xx mm fuel leftTable rightTable joinOnLeftKey joinOnRightKey
  = Join H BUCKETSIZE xx' mm' fuel leftTable rightTable joinOnLeftKey joinOnRightKey.
Proof.
  unfold Join.
  destruct (buildHashIndex _ _ fuel leftTable joinOnLeftKey) as [[lt0|e]|]; try done.
  destruct (buildHashIndex _ _ fuel rightTable joinOnRightKey) as [[rt0|e]|]; try done.
  destruct (align _ lt0 rt0) as [lt rt].
  destruct (get_buckets lt rt _) as [bs|e]; [|done].
  f_equal. apply probe_all_filter_independent.
Qed.


Lemma Join_small_tables_witness :
  Z.of_nat (length s3_left) < demo_BUCKETSIZE /\
  Z.of_nat (length s3_right) < demo_BUCKETSIZE /\
  exists out, demo_Join s3_left s3_right true true = Some (out, None).
Proof.
  assert (HL : Z.of_nat (length s3_left) < demo_BUCKETSIZE) by (vm_compute; reflexivity).
  assert (HR : Z.of_nat (length s3_right) < demo_BUCKETSIZE) by (vm_compute; reflexivity).
  split; [exact HL|]. split; [exact HR|].
  exact (Join_small_tables demo_H demo_BUCKETSIZE Bloom.demo_xx Bloom.demo_murmur 8
           s3_left s3_right true true HL HR).
Defined.


End Join.

(* ===================================================================== *)
(** * Package repl: the table of commands *)
(* ===================================================================== *)

Module Repl.

Section Commands.

(** An action, [func(string, *REPLConfig) error]: the table of commands
    only stores it. *)
Variable Action : Type.

(** REPL struct. *)
Record REPL := mkREPL {
  commands : gmap string Action;
  help : gmap string string
}.

(** Construct an empty REPL. *)
Definition NewRepl : REPL := mkREPL ∅ ∅.

Definition GetCommands (r : REPL) : gmap string Action := commands r.
Definition GetHelp (r : REPL) : gmap string string := help r.

(** Add a command, along with its help string, to the set of commands. *)
Definition AddCommand (r : REPL) (trigger : string) (action : Action) (help_ : string)
    : REPL :=
  mkREPL (<[trigger := action]> (commands r)) (<[trigger := help_]> (help r)).

(** [for str, f := range m { if _, check := acc[str]; check { return
    error }; acc[str] = f }]: the entries of the map are visited in the
    order of their list; Go leaves the order unspecified. *)
Fixpoint add_all {A} (entries : list (string * A)) (acc : gmap string A)
    : gmap string A + string :=
  match entries with
  | [] => inl acc
  | (str, f) :: rest =>
      match acc !! str with
      | Some _ => inr ("Having overlapping triggers: " +:+ str)
      | None => add_all rest (<[str := f]> acc)
      end
  end.

(** The loop of [CombineRepls] over the REPLs. *)
Fixpoint combine_loop (repls : list REPL) (commandsMap : gmap string Action)
    (helpsMap : gmap string string) : REPL + string :=
  match repls with
  | [] => inl (mkREPL commandsMap helpsMap)
  | repl :: rest =>
      match add_all (map_to_list (GetCommands repl)) commandsMap with
      | inr err => inr err
      | inl commandsMap1 =>
          match add_all (map_to_list (GetHelp repl)) helpsMap with
          | inr err => inr err
          | inl helpsMap1 => combine_loop rest commandsMap1 helpsMap1
          end
      end
  end.

(** Combine a slice of REPLs. *)
Definition CombineRepls (repls : list REPL) : REPL + string :=
  if decide (length repls = 0%nat) then inl NewRepl
  else combine_loop repls ∅ ∅.

(** Trigger [t] is a trigger of both REPLs, in their commands or in their
    help. *)
Definition clash (t : string) (r r' : REPL) : Prop :=
  (is_Some (commands r !! t) /\ is_Some (commands r' !! t)) \/
  (is_Some (help r !! t) /\ is_Some (help r' !! t)).

(** Two REPLs of the slice clash on trigger [t]. *)
Fixpoint clashes (t : string) (repls : list REPL) : Prop :=
  match repls with
  | [] => False
  | r :: rest => (exists r', r' ∈ rest /\ clash t r r') \/ clashes t rest
  end.

(** No two REPLs of the slice have a trigger in common. *)
Definition no_clash (repls : list REPL) : Prop := forall t, ~ clashes t repls.

Lemma add_all_spec {A} (entries : list (string * A)) : forall acc,
  NoDup entries.*1 ->
  match add_all entries acc with
  | inl m =>
      (forall k, k ∈ entries.*1 -> acc !! k = None) /\
      (forall k, m !! k = match (list_to_map entries : gmap string A) !! k with
                          | Some v => Some v
                          | None => acc !! k
                          end)
  | inr err =>
      exists k, err = ("Having overlapping triggers: " +:+ k)%string /\
                k ∈ entries.*1 /\ is_Some (acc !! k)
  end.
Proof.
  induction entries as [|[str f] rest IH]; intros acc Hnd; simpl.
  { split; [by intros k ?%elem_of_nil|done]. }
  apply NoDup_cons in Hnd as [Hstr Hnd].
  destruct (acc !! str) as [x|] eqn:Es.
  { exists str. split; [done|]. split; [apply list_elem_of_here|by rewrite Es]. }
  specialize (IH (<[str := f]> acc) Hnd).
  destruct (add_all rest (<[str := f]> acc)) as [m|err].
  - destruct IH as [Hfree Hm]. split.
    + intros k [->|Hk]%elem_of_cons; [done|].
      specialize (Hfree k Hk). rewrite lookup_insert_ne in Hfree; [done|].
      intros ->. done.
    + intros k. rewrite Hm.
      destruct (decide (k = str)) as [->|Hne].
      * rewrite lookup_insert_eq.
        rewrite (not_elem_of_list_to_map_1 rest str) by done.
        by rewrite lookup_insert_eq.
      * rewrite (lookup_insert_ne (list_to_map rest)) by done.
        by rewrite (lookup_insert_ne acc) by done.
  - destruct IH as (k & -> & Hk & Hs). exists k. split; [done|].
    split; [by right|].
    rewrite lookup_insert_ne in Hs; [done|]. intros ->. done.
Qed.

Lemma add_map_spec {A} (m acc : gmap string A) :
  match add_all (map_to_list m) acc with
  | inl m' =>
      (forall k, is_Some (m !! k) -> acc !! k = None) /\
      (forall k, m' !! k = match m !! k with Some v => Some v | None => acc !! k end)
  | inr err =>
      exists k, err = ("Having overlapping triggers: " +:+ k)%string /\
                is_Some (m !! k) /\ is_Some (acc !! k)
  end.
Proof.
  pose proof (add_all_spec (map_to_list m) acc (NoDup_fst_map_to_list m)) as Hs.
  assert (Hkeys : forall k, k ∈ (map_to_list m).*1 <-> is_Some (m !! k)).
  { intros k. rewrite list_elem_of_fmap. split.
    - intros ([k' v] & -> & Hin). apply elem_of_map_to_list in Hin. by exists v.
    - intros [v Hv]. exists (k, v). split; [done|]. by apply elem_of_map_to_list. }
  destruct (add_all (map_to_list m) acc) as [m'|err].
  - destruct Hs as [Hfree Hm]. split.
    + intros k Hk. by apply Hfree, Hkeys.
    + intros k. rewrite Hm. by rewrite list_to_map_to_list.
  - destruct Hs as (k & -> & Hk & Hacc). exists k. split; [done|].
    split; [by apply Hkeys|done].
Qed.


Lemma combine_loop_spec repls : forall c h,
  match combine_loop repls c h with
  | inl r =>
      no_clash repls /\
      (forall repl t, repl ∈ repls ->
         (is_Some (commands repl !! t) -> c !! t = None) /\
         (is_Some (help repl !! t) -> h !! t = None)) /\
      (forall t a, commands r !! t = Some a <->
         (exists repl, repl ∈ repls /\ commands repl !! t = Some a) \/ c !! t = Some a) /\
      (forall t s, help r !! t = Some s <->
         (exists repl, repl ∈ repls /\ help repl !! t = Some s) \/ h !! t = Some s)
  | inr err =>
      exists t, err = ("Having overlapping triggers: " +:+ t)%string /\
        (clashes t repls \/
         exists repl, repl ∈ repls /\
           (is_Some (commands repl !! t) /\ is_Some (c !! t) \/
            is_Some (help repl !! t) /\ is_Some (h !! t)))
  end.
Proof.
  induction repls as [|r rest IH]; intros c h; simpl.
  { split; [intros t Hc0; exact Hc0|]. split; [by intros repl t ?%elem_of_nil|].
    split; intros t x; (split; [by right|]);
      (intros [(repl & []%elem_of_nil & _)|?]; done). }
  unfold GetCommands, GetHelp.
  pose proof (add_map_spec (commands r) c) as Hc.
  destruct (add_all (map_to_list (commands r)) c) as [c1|err].
  2:{ destruct Hc as (k & -> & Hk & Hck). exists k. split; [done|]. right.
      exists r. split; [apply list_elem_of_here|by left]. }
  destruct Hc as [Hfc Hc1].
  pose proof (add_map_spec (help r) h) as Hh.
  destruct (add_all (map_to_list (help r)) h) as [h1|err].
  2:{ destruct Hh as (k & -> & Hk & Hhk). exists k. split; [done|]. right.
      exists r. split; [apply list_elem_of_here|by right]. }
  destruct Hh as [Hfh Hh1].
  specialize (IH c1 h1).
  destruct (combine_loop rest c1 h1) as [res|err].
  - destruct IH as (Hnc & Hfree & Hcm & Hhm).
    split; [|split; [|split]].
    + intros t [(r' & Hr' & [[Hr Hc']|[Hr Hh']])|Hcl]; [| |by apply (Hnc t)].
      * destruct (Hfree r' t Hr') as [Hf _]. specialize (Hf Hc').
        rewrite Hc1 in Hf. destruct Hr as [x Hx]. by rewrite Hx in Hf.
      * destruct (Hfree r' t Hr') as [_ Hf]. specialize (Hf Hh').
        rewrite Hh1 in Hf. destruct Hr as [x Hx]. by rewrite Hx in Hf.
    + intros repl t [->|Hin]%elem_of_cons; [split; [apply Hfc|apply Hfh]|].
      destruct (Hfree repl t Hin) as [Hf1 Hf2]. split.
      * intros Hs. specialize (Hf1 Hs). rewrite Hc1 in Hf1.
        by destruct (commands r !! t).
      * intros Hs. specialize (Hf2 Hs). rewrite Hh1 in Hf2.
        by destruct (help r !! t).
    + intros t a. rewrite Hcm, Hc1. split.
      * intros [(repl & Hin & Hl)|Hl].
        -- left. exists repl. split; [by right|done].
        -- destruct (commands r !! t) as [b|] eqn:Eb; [|by right].
           left. exists r. split; [apply list_elem_of_here|]. by rewrite Eb.
      * intros [(repl & [->|Hin]%elem_of_cons & Hl)|Hl].
        -- right. by rewrite Hl.
        -- left. by exists repl.
        -- right. destruct (commands r !! t) as [b|] eqn:Eb; [|done].
           rewrite Hfc in Hl by (by rewrite Eb). done.
    + intros t a. rewrite Hhm, Hh1. split.
      * intros [(repl & Hin & Hl)|Hl].
        -- left. exists repl. split; [by right|done].
        -- destruct (help r !! t) as [b|] eqn:Eb; [|by right].
           left. exists r. split; [apply list_elem_of_here|]. by rewrite Eb.
      * intros [(repl & [->|Hin]%elem_of_cons & Hl)|Hl].
        -- right. by rewrite Hl.
        -- left. by exists repl.
        -- right. destruct (help r !! t) as [b|] eqn:Eb; [|done].
           rewrite Hfh in Hl by (by rewrite Eb). done.
  - destruct IH as (t & -> & [Hcl|(repl & Hin & [[Hs Hc1s]|[Hs Hh1s]])]).
    + exists t. split; [done|]. left. by right.
    + exists t. split; [done|]. rewrite Hc1 in Hc1s.
      destruct (commands r !! t) as [b|] eqn:Eb.
      * left. left. exists repl. split; [done|]. left. split; [by rewrite Eb|done].
      * right. exists repl. split; [by right|by left].
    + exists t. split; [done|]. rewrite Hh1 in Hh1s.
      destruct (help r !! t) as [b|] eqn:Eb.
      * left. left. exists repl. split; [done|]. right. split; [by rewrite Eb|done].
      * right. exists repl. split; [by right|by right].
Qed.

(** X22. [CombineRepls] returns an error exactly when two REPLs of the
    slice have a trigger in common, in their commands or in their help,
    and the error names such a trigger; otherwise it returns a REPL whose
    commands and whose help are the union of those of the slice: a trigger
    has an action, or a help string, in the result exactly when it has
    that one in a REPL of the slice.  The empty slice gives the empty
    REPL. *)
Theorem CombineRepls_union repls :
  match CombineRepls repls with
  | inl r =>
      no_clash repls /\
      (forall t a, commands r !! t = Some a <->
         exists repl, repl ∈ repls /\ commands repl !! t = Some a) /\
      (forall t s, help r !! t = Some s <->
         exists repl, repl ∈ repls /\ help repl !! t = Some s)
  | inr err =>
      exists t, err = ("Having overlapping triggers: " +:+ t)%string /\
                clashes t repls
  end.
Proof.
  unfold CombineRepls. destruct (decide (length repls = 0%nat)) as [Hlen|Hlen].
  { destruct repls; [|done]. split; [intros t Hc0; exact Hc0|].
    split; intros t x; simpl; rewrite lookup_empty;
      (split; [done|intros (repl & []%elem_of_nil & _)]). }
  pose proof (combine_loop_spec repls ∅ ∅) as Hs.
  destruct (combine_loop repls ∅ ∅) as [r|err].
  - destruct Hs as (Hnc & _ & Hcm & Hhm). split; [done|].
    split; intros t x; [rewrite Hcm|rewrite Hhm]; rewrite lookup_empty;
      (split; [intros [?|?]; done|by left]).
  - destruct Hs as (t & -> & [Hcl|(repl & _ & [[_ Hs]|[_ Hs]])]).
    + by exists t.
    + rewrite lookup_empty in Hs. by destruct Hs.
    + rewrite lookup_empty in Hs. by destruct Hs.
Qed.


End Commands.

End Repl.

(* ===================================================================== *)
(** * Package list: the doubly linked list *)
(* ===================================================================== *)

Module LinkedList.

Section Links.

(** The values of the links, [interface{}] values that [==] compares. *)
Variable V : Type.
Context `{!EqDecision V}.

(** Link struct.  A [*Link] is the address of the struct in the store of
    the list, [None] is nil; the [list] field of every link of the store
    is the list itself. *)
Record Link := mkLink {
  prev : option nat;
  next : option nat;
  value : V
}.

(** List struct, with the store of the links allocated for it. *)
Record List := mkList {
  head : option nat;
  tail : option nat;
  store : list Link
}.

(** Create a new list. *)
Definition NewList : List := mkList None None [].

Definition PeekHead (list : List) : option nat := head list.
Definition PeekTail (list : List) : option nat := tail list.

(** [p.prev = x] and [p.next = x] through pointer [a]: [None] is the
    run-time panic of a nil dereference (an address outside the store does
    not arise). *)
Definition set_prev (st : list Link) (a : nat) (x : option nat) : option (list Link) :=
  c ← st !! a; Some (<[a := mkLink x (next c) (value c)]> st).

Definition set_next (st : list Link) (a : nat) (x : option nat) : option (list Link) :=
  c ← st !! a; Some (<[a := mkLink (prev c) x (value c)]> st).

(** Add an element to the start of the list. Returns the added link. *)
Definition PushHead (list : List) (v : V) : option (List * nat) :=
  let node := length (store list) in
  let st := store list ++ [mkLink None (head list) v] in
  st1 ← match head list with
        | Some h => set_prev st h (Some node)
        | None => Some st
        end;
  let tail1 := match tail list with None => Some node | Some t => Some t end in
  Some (mkList (Some node) tail1 st1, node).

(** Add an element to the end of the list. Returns the added link. *)
Definition PushTail (list : List) (v : V) : option (List * nat) :=
  let node := length (store list) in
  let st := store list ++ [mkLink (tail list) None v] in
  st1 ← match tail list with
        | Some t => set_next st t (Some node)
        | None => Some st
        end;
  let head1 := match head list with None => Some node | Some h => Some h end in
  Some (mkList head1 (Some node) st1, node).

(** The loop of [Find], from link [cur]; [fuel] bounds the number of
    rounds: [None] when the bound is reached. *)
Fixpoint find_loop (st : list Link) (f : Link -> bool) (fuel : nat) (cur : option nat)
    : option (option nat) :=
  match fuel with
  | O => None
  | S fuel' =>
      match cur with
      | None => Some None
      | Some a =>
          c ← st !! a;
          if f c then Some (Some a) else find_loop st f fuel' (next c)
      end
  end.

(** [Find]: a walk that has not ended after as many rounds as the store
    has links is in a cycle, and does not end. *)
Definition Find (list : List) (f : Link -> bool) : option (option nat) :=
  find_loop (store list) f (S (length (store list))) (head list).

(** Remove this link from its list. *)
Definition PopSelf (list : List) (link : nat) : option List :=
  c ← store list !! link;
  let head1 := if decide (head list = Some link) then next c else head list in
  '(tail1, st1) ←
    (if decide (tail list = Some link) then
       st' ← match prev c with
             | Some p => set_next (store list) p None
             | None => Some (store list)
             end;
       Some (prev c, st')
     else Some (tail list, store list));
  let l1 := mkList head1 tail1 st1 in
  c1 ← st1 !! link;
  b ← Find l1 (fun node => bool_decide (value node = value c1));
  match b with
  | None => Some l1
  | Some _ =>
      p ← prev c1;
      st2 ← set_next st1 p (next c1);
      c2 ← st2 !! link;
      n ← next c2;
      st3 ← set_prev st2 n (prev c2);
      Some (mkList head1 tail1 st3)
  end.

(** The links of the list from its head on, as [list_print] walks them;
    [None] when the walk does not end. *)
Fixpoint walk (st : list Link) (fuel : nat) (cur : option nat) : option (list nat) :=
  match fuel with
  | O => None
  | S fuel' =>
      match cur with
      | None => Some []
      | Some a => c ← st !! a; rest ← walk st fuel' (next c); Some (a :: rest)
      end
  end.

Definition links (l : List) : option (list nat) :=
  walk (store l) (S (length (store l))) (head l).

(** The value of the link at an address. *)
Definition value_at (l : List) (a : nat) : option V :=
  value <$> store l !! a.

(** The links [xs], in this order, are linked from [cur] on by their
    [next] fields, and the [next] of the last one is [stop]. *)
Fixpoint seg (st : list Link) (cur : option nat) (xs : list nat) (stop : option nat)
    : Prop :=
  match xs with
  | [] => cur = stop
  | a :: xs' => cur = Some a /\ exists c, st !! a = Some c /\ seg st (next c) xs' stop
  end.

(** The links [xs] are all the links from [cur] on. *)
Definition chain (st : list Link) (cur : option nat) (xs : list nat) : Prop :=
  seg st cur xs None.

(** The shape of a list that holds the links [xs]: they are linked from
    the head on; when there is one, the tail is the last of them; each
    but the first has its predecessor as [prev]; the pointers of the list
    and of its links are addresses of the store. *)
Definition Shape (l : List) (xs : list nat) : Prop :=
  chain (store l) (head l) xs /\
  NoDup xs /\
  (xs <> [] -> tail l = last xs) /\
  (forall t, tail l = Some t -> (t < length (store l))%nat) /\
  (forall i a b c, xs !! i = Some a -> xs !! S i = Some b ->
     store l !! b = Some c -> prev c = Some a) /\
  (forall a c p, a ∈ xs -> store l !! a = Some c -> prev c = Some p ->
     (p < length (store l))%nat).

(** No two links of [xs] have the same value. *)
Definition distinct_values (l : List) (xs : list nat) : Prop :=
  forall a b, a ∈ xs -> b ∈ xs -> value_at l a = value_at l b -> a = b.

(** The values of the links from [cur] on, as the command [list_print] of
    [ListRepl] prints them; [None] when the walk does not end. *)
Fixpoint values_from (st : list Link) (fuel : nat) (cur : option nat)
    : option (list V) :=
  match fuel with
  | O => None
  | S fuel' =>
      match cur with
      | None => Some []
      | Some a =>
          c ← st !! a; rest ← values_from st fuel' (next c); Some (value c :: rest)
      end
  end.

Definition contents (l : List) : option (list V) :=
  values_from (store l) (S (length (store l))) (head l).

(** The commands [list_push_head], [list_push_tail] and [list_remove] of
    [ListRepl], on their element; [list_remove] finds the first link of
    the value and pops it, and leaves the list alone when there is none. *)
Inductive command :=
| list_push_head (ele : V)
| list_push_tail (ele : V)
| list_remove (ele : V).

Definition run_command (l : List) (cmd : command) : option List :=
  match cmd with
  | list_push_head ele => fst <$> PushHead l ele
  | list_push_tail ele => fst <$> PushTail l ele
  | list_remove ele =>
      node ← Find l (fun node => bool_decide (value node = ele));
      match node with
      | Some node => PopSelf l node
      | None => Some l
      end
  end.

Fixpoint run_commands (l : List) (cmds : list command) : option List :=
  match cmds with
  | [] => Some l
  | cmd :: cmds' => l' ← run_command l cmd; run_commands l' cmds'
  end.

(** What the commands do to a sequence of values. *)
Definition step (vs : list V) (cmd : command) : list V :=
  match cmd with
  | list_push_head ele => ele :: vs
  | list_push_tail ele => vs ++ [ele]
  | list_remove ele => filter (fun v => v <> ele) vs
  end.

(** The commands that use the list as a queue of distinct values: a push
    at the tail of a value that the list does not hold, or a removal. *)
Definition queue_command (vs : list V) (cmd : command) : Prop :=
  match cmd with
  | list_push_head _ => False
  | list_push_tail ele => ele ∉ vs
  | list_remove _ => True
  end.

Fixpoint queue_commands (vs : list V) (cmds : list command) : Prop :=
  match cmds with
  | [] => True
  | cmd :: cmds' => queue_command vs cmd /\ queue_commands (step vs cmd) cmds'
  end.

(** The list holds the values [vs], all different, in this order. *)
Definition holds (l : List) (vs : list V) : Prop :=
  exists xs, Shape l xs /\
    Forall2 (fun a v => value_at l a = Some v) xs vs /\ NoDup vs.


(** ** Segments of links *)

Lemma seg_app st : forall l1 l2 cur stop,
  seg st cur (l1 ++ l2) stop <-> exists mid, seg st cur l1 mid /\ seg st mid l2 stop.
Proof.
  induction l1 as [|a l1 IH]; intros l2 cur stop; simpl.
  - split; [intros Hs; by exists cur|]. by intros (mid & -> & Hs).
  - split.
    + intros (-> & c & Hc & Hs). apply IH in Hs as (mid & H1 & H2).
      exists mid. split; [|done]. split; [done|]. by exists c.
    + intros (mid & (-> & c & Hc & H1) & H2). split; [done|].
      exists c. split; [done|]. apply IH. by exists mid.
Qed.

Lemma seg_lookup st : forall xs cur stop a,
  seg st cur xs stop -> a ∈ xs -> is_Some (st !! a).
Proof.
  induction xs as [|x xs IH]; intros cur stop a; simpl; [by intros _ ?%elem_of_nil|].
  intros (-> & c & Hc & Hs) [->|Hin]%elem_of_cons; [by exists c|].
  by apply (IH _ _ _ Hs).
Qed.

(** A segment only depends on the [next] fields of its links. *)
Lemma seg_frame st st' : forall xs cur stop,
  seg st cur xs stop ->
  (forall a c, a ∈ xs -> st !! a = Some c ->
     exists c', st' !! a = Some c' /\ next c' = next c) ->
  seg st' cur xs stop.
Proof.
  induction xs as [|x xs IH]; intros cur stop; simpl; [done|].
  intros (-> & c & Hc & Hs) Hsame. split; [done|].
  destruct (Hsame x c ltac:(apply list_elem_of_here) Hc) as (c' & Hc' & Hn).
  exists c'. split; [done|]. rewrite Hn. apply IH; [done|].
  intros a ca Ha. apply Hsame. by right.
Qed.

Lemma seg_last st : forall xs cur stop a c,
  seg st cur xs stop -> last xs = Some a -> st !! a = Some c -> next c = stop.
Proof.
  induction xs as [|x xs IH]; intros cur stop a c; simpl; [done|].
  intros (-> & cx & Hcx & Hs). destruct xs as [|y xs].
  - simpl in *. intros [= <-] Hc. rewrite Hcx in Hc. injection Hc as <-. done.
  - intros Hl. apply (IH _ _ _ _ Hs). done.
Qed.

Lemma NoDup_bounded_length (xs : list nat) n :
  NoDup xs -> (forall a, a ∈ xs -> (a < n)%nat) -> (length xs <= n)%nat.
Proof.
  intros Hnd Hlt.
  assert (Hle : (length xs <= length (seq 0 n))%nat); [|by rewrite length_seq in Hle].
  apply submseteq_length, NoDup_submseteq; [done|].
  intros a Ha. apply elem_of_seq. specialize (Hlt a Ha). lia.
Qed.

Lemma seg_length st xs cur stop :
  seg st cur xs stop -> NoDup xs -> (length xs <= length st)%nat.
Proof.
  intros Hs Hnd. apply NoDup_bounded_length; [done|].
  intros a Ha. apply lookup_lt_is_Some. by apply (seg_lookup _ _ _ _ _ Hs).
Qed.

(** ** The walks of [Find] and of [links] *)

Lemma walk_chain st : forall xs fuel cur,
  chain st cur xs -> (length xs < fuel)%nat -> walk st fuel cur = Some xs.
Proof.
  unfold chain. induction xs as [|a xs IH]; intros fuel cur; simpl.
  - intros -> Hf. destruct fuel; [lia|done].
  - intros (-> & c & Hc & Hs) Hf. destruct fuel as [|fuel]; [lia|]. simpl.
    rewrite Hc. simpl. rewrite (IH fuel) by (try done; lia). done.
Qed.

Lemma find_loop_none st f : forall xs fuel cur,
  chain st cur xs -> (length xs < fuel)%nat ->
  (forall a c, a ∈ xs -> st !! a = Some c -> f c = false) ->
  find_loop st f fuel cur = Some None.
Proof.
  unfold chain. induction xs as [|a xs IH]; intros fuel cur; simpl.
  - intros -> Hf _. destruct fuel; [lia|done].
  - intros (-> & c & Hc & Hs) Hf Hno. destruct fuel as [|fuel]; [lia|]. simpl.
    rewrite Hc. simpl. rewrite (Hno a c) by (try done; apply list_elem_of_here).
    apply IH; [done|lia|]. intros b cb Hb. apply Hno. by right.
Qed.

Lemma find_loop_first st f : forall l1 a c l2 fuel cur stop,
  seg st cur (l1 ++ a :: l2) stop -> (length l1 < fuel)%nat ->
  (forall b cb, b ∈ l1 -> st !! b = Some cb -> f cb = false) ->
  st !! a = Some c -> f c = true ->
  find_loop st f fuel cur = Some (Some a).
Proof.
  induction l1 as [|x l1 IH]; intros a c l2 fuel cur stop; simpl.
  - intros (-> & c' & Hc' & _) Hf _ Hc Hfc. destruct fuel; [lia|]. simpl.
    rewrite Hc. simpl. by rewrite Hfc.
  - intros (-> & cx & Hcx & Hs) Hf Hno Hc Hfc. destruct fuel as [|fuel]; [lia|]. simpl.
    rewrite Hcx. simpl. rewrite (Hno x cx) by (try done; apply list_elem_of_here).
    apply (IH a c l2 fuel _ stop); try done; [lia|].
    intros b cb Hb. apply Hno. by right.
Qed.


(** ** Writes through a pointer *)

Lemma set_next_spec st a x :
  (a < length st)%nat ->
  exists c st', st !! a = Some c /\ set_next st a x = Some st' /\
    st' = <[a := mkLink (prev c) x (value c)]> st.
Proof.
  intros Ha. destruct (lookup_lt_is_Some_2 st a Ha) as [c Hc].
  exists c, (<[a := mkLink (prev c) x (value c)]> st).
  unfold set_next. rewrite Hc. done.
Qed.

Lemma set_prev_spec st a x :
  (a < length st)%nat ->
  exists c st', st !! a = Some c /\ set_prev st a x = Some st' /\
    st' = <[a := mkLink x (next c) (value c)]> st.
Proof.
  intros Ha. destruct (lookup_lt_is_Some_2 st a Ha) as [c Hc].
  exists c, (<[a := mkLink x (next c) (value c)]> st).
  unfold set_prev. rewrite Hc. done.
Qed.

(** The link at [b] after a write to the link at [a]. *)
Lemma lookup_write (st : list Link) a c' b c :
  st !! a = Some c -> 
  <[a := c']> st !! b = if decide (b = a) then Some c' else st !! b.
Proof.
  intros Hc. destruct (decide (b = a)) as [->|Hne].
  - apply list_lookup_insert_eq. by apply lookup_lt_is_Some.
  - by apply list_lookup_insert_ne.
Qed.

(** Directing the [next] of the last link of a segment. *)
Lemma seg_retarget st t ct x : forall xs cur stop,
  seg st cur xs stop -> NoDup xs -> last xs = Some t -> st !! t = Some ct ->
  seg (<[t := mkLink (prev ct) x (value ct)]> st) cur xs x.
Proof.
  induction xs as [|a xs IH]; intros cur stop; simpl; [done|].
  intros (-> & c & Hc & Hs) Hnd Hl Ht. apply NoDup_cons in Hnd as [Ha Hnd].
  split; [done|]. destruct xs as [|y xs].
  - simpl in Hl. injection Hl as ->. rewrite Ht in Hc. injection Hc as <-.
    eexists. rewrite (lookup_write _ _ _ _ _ Ht), decide_True by done.
    split; [done|]. done.
  - assert (Hat : a <> t).
    { intros ->. apply Ha. apply last_Some_elem_of. done. }
    exists c. rewrite (lookup_write _ _ _ _ _ Ht), decide_False by done.
    split; [done|]. apply (IH _ stop); done.
Qed.


(** ** [PushTail] *)

Lemma Shape_bound l xs a : Shape l xs -> a ∈ xs -> (a < length (store l))%nat.
Proof.
  intros (Hch & _) Ha. apply lookup_lt_is_Some. by apply (seg_lookup _ _ _ _ _ Hch).
Qed.

Lemma Shape_empty_head l : Shape l [] -> head l = None.
Proof. by intros (Hch & _). Qed.

Lemma PushTail_Shape l xs v :
  Shape l xs ->
  let node := length (store l) in
  exists l', PushTail l v = Some (l', node) /\
    Shape l' (xs ++ [node]) /\
    length (store l') = S node /\
    store l' !! node = Some (mkLink (tail l) None v) /\
    (forall x c, x ∈ xs -> store l !! x = Some c ->
       exists c', store l' !! x = Some c' /\ value c' = value c /\ prev c' = prev c).
Proof.
  intros HS node. pose proof HS as (Hch & Hnd & Htl & Htv & Hprev & Hpv).
  set (cell := mkLink (tail l) None v).
  set (st := store l ++ [cell]).
  assert (Hnode : st !! node = Some cell) by apply list_lookup_middle, eq_refl.
  assert (Hold : forall x, (x < node)%nat -> st !! x = store l !! x).
  { intros x Hx. by apply lookup_app_l. }
  assert (Hlen : length st = S node).
  { unfold st. rewrite length_app. simpl. lia. }
  assert (Hfresh : node ∉ xs).
  { intros Hin. pose proof (Shape_bound _ _ _ HS Hin). lia. }
  assert (Hndx : NoDup (xs ++ [node])).
  { apply NoDup_app. split; [done|]. split; [|apply NoDup_singleton].
    intros x Hx ->%list_elem_of_singleton. done. }
  unfold PushTail. fold node cell st.
  destruct (tail l) as [t|] eqn:Et.
  - (* the list has a tail pointer, current or stale *)
    pose proof (Htv t eq_refl) as Htlt.
    destruct (set_next_spec st t (Some node) ltac:(lia)) as (ct & st1 & Hct & -> & Hst1).
    simpl.
    assert (Htn : t <> node) by lia.
    assert (Hl1 : forall b, st1 !! b = if decide (b = t)
                   then Some (mkLink (prev ct) (Some node) (value ct)) else st !! b).
    { intros b. rewrite Hst1. by apply (lookup_write _ _ _ _ ct). }
    assert (Hlen1 : length st1 = S node) by (by rewrite Hst1, length_insert).
    assert (Hnode1 : st1 !! node = Some cell).
    { rewrite Hl1, decide_False by lia. done. }
    assert (Hkeep : forall x c, (x < node)%nat -> store l !! x = Some c ->
              exists c', st1 !! x = Some c' /\ value c' = value c /\ prev c' = prev c /\
                         (x <> t -> next c' = next c)).
    { intros x c Hx Hc. rewrite Hl1. destruct (decide (x = t)) as [->|Hne].
      - rewrite Hold, Hc in Hct by done. injection Hct as <-. eexists. by split.
      - exists c. rewrite Hold by done. by split. }
    eexists. split; [reflexivity|]. cbn [store head tail].
    split; [|split; [done|split; [done|]]].
    2:{ intros x c Hx Hc. destruct (Hkeep x c (Shape_bound _ _ _ HS Hx) Hc)
          as (c' & ? & ? & ? & _). by exists c'. }
    split; [|split; [done|split; [|split; [|split]]]]; cbn [store head tail].
    + (* the chain *)
      destruct xs as [|h xs'].
      * rewrite (Shape_empty_head _ HS). simpl. split; [done|].
        exists cell. by split.
      * assert (Hh : head l = Some h) by (by destruct Hch).
        rewrite Hh. rewrite <- Hh.
        assert (Hlast : last (h :: xs') = Some t) by (symmetry; by apply Htl).
        apply seg_app. exists (Some node). split.
        -- rewrite Hst1.
           apply (seg_retarget st t ct (Some node) (h :: xs') (head l) None); try done.
           apply (seg_frame (store l)); [done|].
           intros a c Ha Hc. exists c. rewrite Hold; [by split|].
           by apply (Shape_bound _ _ _ HS).
        -- simpl. split; [done|]. exists cell. by split.
    + intros _. by rewrite last_snoc.
    + intros t' [= <-]. lia.
    + intros i a b c Hi HSi Hc.
      destruct (decide (S i < length xs)%nat) as [Hlt|Hge].
      * rewrite lookup_app_l in Hi by lia. rewrite lookup_app_l in HSi by lia.
        assert (Hb : b ∈ xs) by (by apply list_elem_of_lookup_2 in HSi).
        pose proof (Shape_bound _ _ _ HS Hb) as Hblt.
        destruct (lookup_lt_is_Some_2 (store l) b Hblt) as [cb Hcb].
        destruct (Hkeep b cb Hblt Hcb) as (c' & Hc' & _ & Hp & _).
        rewrite Hc in Hc'. injection Hc' as <-. rewrite Hp.
        by apply (Hprev i a b cb).
      * assert (HSi' : S i = length xs).
        { apply lookup_lt_Some in HSi. rewrite length_app in HSi. simpl in HSi. lia. }
        rewrite HSi', list_lookup_middle in HSi by done. injection HSi as <-.
        rewrite Hnode1 in Hc. injection Hc as <-. simpl.
        rewrite lookup_app_l in Hi by lia.
        assert (Hxs : xs <> []) by (intros ->; simpl in HSi'; lia).
        rewrite (Htl Hxs), last_lookup, <- Hi. f_equal. lia.
    + intros a c p Ha Hc Hp. rewrite Hlen1.
      apply elem_of_app in Ha as [Ha|Ha].
      * pose proof (Shape_bound _ _ _ HS Ha) as Halt.
        destruct (lookup_lt_is_Some_2 (store l) a Halt) as [ca Hca].
        destruct (Hkeep a ca Halt Hca) as (c' & Hc' & _ & Hp' & _).
        rewrite Hc in Hc'. injection Hc' as <-. rewrite Hp' in Hp.
        pose proof (Hpv a ca p Ha Hca Hp). lia.
      * apply list_elem_of_singleton in Ha as ->.
        rewrite Hnode1 in Hc. injection Hc as <-. simpl in Hp. injection Hp as <-. lia.
  - (* no tail pointer: the list is empty *)
    assert (Hxs : xs = []).
    { destruct xs as [|h xs']; [done|]. specialize (Htl ltac:(done)).
      destruct (last_is_Some (h :: xs')) as [_ [z Hz]]; [done|]. congruence. }
    subst xs. simpl. rewrite (Shape_empty_head _ HS).
    eexists. split; [reflexivity|]. cbn [store head tail].
    split; [|split; [done|split; [done|by intros x c ?%elem_of_nil]]].
    split; [|split; [done|split; [|split; [|split]]]]; cbn [store head tail].
    + simpl. split; [done|]. exists cell. by split.
    + done.
    + intros t' [= <-]. lia.
    + intros i a b c Hi HSi. by destruct i.
    + intros a c p ->%list_elem_of_singleton Hc Hp.
      rewrite Hnode in Hc. injection Hc as <-. done.
Qed.


(** ** [PopSelf] *)

Lemma value_write (st : list Link) p cp c' x :
  st !! p = Some cp -> value c' = value cp ->
  value <$> (<[p := c']> st) !! x = value <$> st !! x.
Proof.
  intros Hp Hv. rewrite (lookup_write _ _ _ _ _ Hp).
  destruct (decide (x = p)) as [->|_]; [|done]. rewrite Hp. simpl. by rewrite Hv.
Qed.

Lemma lookup_remove_middle {A} (l1 l2 : list A) a i x y :
  (l1 ++ l2) !! i = Some x -> (l1 ++ l2) !! S i = Some y ->
  ((S i < length l1)%nat /\ (l1 ++ a :: l2) !! i = Some x /\
     (l1 ++ a :: l2) !! S i = Some y) \/
  (S i = length l1 /\ last l1 = Some x /\ l2 !! 0%nat = Some y) \/
  ((length l1 <= i)%nat /\ (l1 ++ a :: l2) !! S i = Some x /\
     (l1 ++ a :: l2) !! S (S i) = Some y).
Proof.
  intros Hi HSi.
  destruct (decide (S i < length l1)%nat) as [Hlt|Hge].
  - left. split; [done|]. rewrite lookup_app_l in Hi by lia.
    rewrite lookup_app_l in HSi by lia. rewrite !lookup_app_l by lia. by split.
  - destruct (decide (S i = length l1)) as [Heq|Hne].
    + right. left. split; [done|].
      rewrite lookup_app_l in Hi by lia. rewrite lookup_app_r in HSi by lia.
      rewrite Heq, Nat.sub_diag in HSi. split; [|done].
      rewrite last_lookup, <- Hi. f_equal. lia.
    + right. right. split; [lia|].
      rewrite lookup_app_r in Hi by lia. rewrite lookup_app_r in HSi by lia.
      rewrite !lookup_app_r by lia.
      replace (S i - length l1)%nat with (S (i - length l1)) by lia.
      replace (S (S i) - length l1)%nat with (S (S (i - length l1))) by lia.
      replace (S i - length l1)%nat with (S (i - length l1)) in HSi by lia.
      done.
Qed.

Lemma Shape_split l l1 a l2 :
  Shape l (l1 ++ a :: l2) ->
  exists c, store l !! a = Some c /\
    seg (store l) (head l) l1 (Some a) /\ seg (store l) (next c) l2 None /\
    (a ∉ l1) /\ (a ∉ l2) /\ NoDup (l1 ++ l2) /\
    (head l = Some a <-> l1 = []) /\ (tail l = Some a <-> l2 = []) /\
    (forall p, last l1 = Some p -> prev c = Some p).
Proof.
  intros (Hch & Hnd & Htl & Htv & Hprev & Hpv).
  apply seg_app in Hch as (mid & H1 & H2). simpl in H2.
  destruct H2 as (-> & c & Hc & H2).
  apply NoDup_app in Hnd as (Hnd1 & Hdis & Hnd2).
  apply NoDup_cons in Hnd2 as [Ha2 Hnd2].
  assert (Ha1 : a ∉ l1).
  { intros Hin. apply (Hdis a Hin). apply list_elem_of_here. }
  exists c. split; [done|]. split; [done|]. split; [done|].
  split; [done|]. split; [done|]. split.
  { apply NoDup_app. split; [done|]. split; [|done].
    intros x Hx Hx2. apply (Hdis x Hx). by right. }
  split; [|split].
  - destruct l1 as [|x l1]; simpl in H1.
    + by rewrite H1.
    + destruct H1 as (-> & _). split; [|done]. intros [= ->].
      exfalso. apply Ha1. apply list_elem_of_here.
  - rewrite Htl by (by destruct l1). rewrite last_app.
    destruct l2 as [|y l2]; [simpl; done|]. split; [|done].
    change (last (a :: y :: l2)) with (last (y :: l2)).
    destruct (last (y :: l2)) as [z|] eqn:Ez.
    + intros [= ->]. exfalso. apply Ha2. by apply last_Some_elem_of.
    + exfalso. destruct (last_is_Some (y :: l2)) as [_ [z Hz]]; [done|]. congruence.
  - intros p Hp. destruct (length l1) as [|n] eqn:En.
    { destruct l1; [done|done]. }
    apply (Hprev n p a c); [| |done].
    + rewrite lookup_app_l by lia. rewrite last_lookup in Hp. rewrite <- Hp.
      f_equal. lia.
    + rewrite <- En. by apply list_lookup_middle.
Qed.


Lemma PopSelf_Shape l l1 a l2 :
  Shape l (l1 ++ a :: l2) -> distinct_values l (l1 ++ a :: l2) ->
  exists l', PopSelf l a = Some l' /\ Shape l' (l1 ++ l2) /\
    length (store l') = length (store l) /\
    (forall x, value_at l' x = value_at l x).
Proof.
  intros HS Hdv.
  destruct (Shape_split _ _ _ _ HS)
    as (c & Hc & Hs1 & Hs2 & Ha1 & Ha2 & Hnd' & Hhd & Htl' & Hpc).
  pose proof HS as (Hch & Hnd & Htl & Htv & Hprev & Hpv).
  assert (Hdiff : forall b cb, b ∈ l1 ++ l2 -> store l !! b = Some cb ->
            value cb <> value c).
  { intros b cb Hb Hcb Hv. assert (b = a) as ->.
    { apply Hdv.
      - rewrite elem_of_app, elem_of_cons. rewrite elem_of_app in Hb. tauto.
      - rewrite elem_of_app, elem_of_cons. auto.
      - unfold value_at. rewrite Hcb, Hc. simpl. by rewrite Hv. }
    apply elem_of_app in Hb as [?|?]; done. }
  assert (Hin : forall b, b ∈ l1 ++ l2 -> b ∈ l1 ++ a :: l2).
  { intros b. rewrite !elem_of_app, elem_of_cons. tauto. }
  assert (Hlt : forall b, b ∈ l1 ++ l2 -> (b < length (store l))%nat).
  { intros b Hb. apply (Shape_bound _ _ _ HS), Hin, Hb. }
  unfold PopSelf. rewrite Hc. simpl.
  destruct (last l1) as [p|] eqn:El1.
  - (* the link has a predecessor *)
    assert (Hl1 : l1 <> []) by (intros ->; done).
    assert (Hhead : head l <> Some a) by (intros Hh; by apply Hhd in Hh).
    rewrite !(decide_False (P := head l = Some a)) by done.
    pose proof (Hpc p eq_refl) as Hprevc.
    assert (Hp1 : p ∈ l1) by (by apply last_Some_elem_of).
    assert (Hpa : p <> a) by (intros ->; done).
    assert (Hplt : (p < length (store l))%nat).
    { apply Hlt. apply elem_of_app. by left. }
    assert (Hnd1 : NoDup l1) by (by apply NoDup_app in Hnd' as (? & _)).
    destruct l2 as [|n l2].
    + (* it is the tail *)
      rewrite (decide_True (P := tail l = Some a)) by (by apply Htl').
      rewrite Hprevc.
      destruct (set_next_spec (store l) p None Hplt) as (cp & st1 & Hcp & Hset & Hst1).
      rewrite Hset. simpl.
      assert (Hl : forall b, st1 !! b = if decide (b = p)
                  then Some (mkLink (prev cp) None (value cp)) else store l !! b).
      { intros b. rewrite Hst1. by apply (lookup_write _ _ _ _ cp). }
      assert (Hlen1 : length st1 = length (store l)) by (by rewrite Hst1, length_insert).
      rewrite (Hl a), decide_False, Hc by done. simpl.
      rewrite app_nil_r in *.
      assert (Hch1 : chain st1 (head l) l1).
      { rewrite Hst1. by apply (seg_retarget _ _ _ _ _ _ (Some a)). }
      unfold Find. cbn [store head].
      rewrite (find_loop_none st1 _ l1 _ _ Hch1).
      2:{ pose proof (seg_length _ _ _ _ Hch1 Hnd1). lia. }
      2:{ intros b cb Hb Hcb. apply bool_decide_eq_false.
          rewrite Hl in Hcb. destruct (decide (b = p)) as [->|_].
          - injection Hcb as <-. simpl. by apply (Hdiff p cp).
          - by apply (Hdiff b cb). }
      simpl. eexists. split; [reflexivity|]. split; [|split; [done|]].
      * split; [done|]. split; [done|]. cbn [store head tail].
        split; [by intros _|]. split; [intros t [= <-]; lia|]. split.
        -- intros i x y cy Hi HSi Hcy.
           assert (Hy : y ∈ l1) by (by apply list_elem_of_lookup_2 in HSi).
           assert (Hcy' : exists cy0, store l !! y = Some cy0 /\ prev cy0 = prev cy).
           { rewrite Hl in Hcy. destruct (decide (y = p)) as [->|_].
             - injection Hcy as <-. by exists cp.
             - by exists cy. }
           destruct Hcy' as (cy0 & Hcy0 & <-).
           apply (Hprev i x y cy0); [| |done]; by rewrite lookup_app_l
             by (by eapply lookup_lt_Some).
        -- intros x cx q Hx Hcx Hq. rewrite Hlen1.
           assert (Hcx' : exists cx0, store l !! x = Some cx0 /\ prev cx0 = prev cx).
           { rewrite Hl in Hcx. destruct (decide (x = p)) as [->|_].
             - injection Hcx as <-. by exists cp.
             - by exists cx. }
           destruct Hcx' as (cx0 & Hcx0 & Hpx). rewrite <- Hpx in Hq.
           apply (Hpv x cx0 q); [|done|done]. apply elem_of_app. by left.
      * intros x. unfold value_at. cbn [store]. rewrite Hst1.
        by apply (value_write _ _ cp).
    + (* it is in the middle *)
      assert (Htail : tail l <> Some a) by (intros Ht; by apply Htl' in Ht).
      rewrite (decide_False (P := tail l = Some a)) by done.
      simpl. rewrite Hc. simpl.
      unfold Find. cbn [store head].
      rewrite (find_loop_first (store l) _ l1 a c (n :: l2) _ (head l) None); try done.
      2:{ pose proof (seg_length _ _ _ _ Hs1 Hnd1). lia. }
      2:{ intros b cb Hb Hcb. apply bool_decide_eq_false.
          apply (Hdiff b cb); [|done]. apply elem_of_app. by left. }
      2:{ by apply bool_decide_eq_true. }
      simpl. rewrite Hprevc. simpl.
      destruct Hs2 as (Hnc & cn & Hcn & Hs2).
      destruct (set_next_spec (store l) p (next c) Hplt) as (cp & st2 & Hcp & Hset & Hst2).
      rewrite Hset. simpl.
      assert (Hl2 : forall b, st2 !! b = if decide (b = p)
                  then Some (mkLink (prev cp) (next c) (value cp)) else store l !! b).
      { intros b. rewrite Hst2. by apply (lookup_write _ _ _ _ cp). }
      assert (Hlen2 : length st2 = length (store l)) by (by rewrite Hst2, length_insert).
      rewrite (Hl2 a), decide_False, Hc by done. simpl. rewrite Hnc. simpl.
      assert (Hnp : n <> p).
      { intros ->. apply NoDup_app in Hnd' as (_ & Hdis & _).
        apply (Hdis p Hp1). apply list_elem_of_here. }
      assert (Hnlt : (n < length st2)%nat).
      { rewrite Hlen2. apply Hlt. rewrite elem_of_app, elem_of_cons. auto. }
      destruct (set_prev_spec st2 n (prev c) Hnlt) as (cn2 & st3 & Hcn2 & Hset3 & Hst3).
      rewrite Hset3. simpl.
      rewrite Hl2, decide_False in Hcn2 by done. rewrite Hcn in Hcn2. injection Hcn2 as <-.
      assert (Hl3 : forall b, st3 !! b =
                if decide (b = n) then Some (mkLink (prev c) (next cn) (value cn))
                else if decide (b = p) then Some (mkLink (prev cp) (next c) (value cp))
                else store l !! b).
      { intros b. rewrite Hst3.
        rewrite (lookup_write st2 n _ b cn) by (by rewrite Hl2, decide_False).
        destruct (decide (b = n)); [done|]. apply Hl2. }
      assert (Hlen3 : length st3 = length (store l)) by (by rewrite Hst3, length_insert).
      assert (Hold : forall b cb', st3 !! b = Some cb' ->
                exists cb, store l !! b = Some cb /\ value cb' = value cb /\
                  (b <> n -> prev cb' = prev cb) /\ (b <> p -> next cb' = next cb)).
      { intros b cb'. rewrite Hl3. destruct (decide (b = n)) as [->|Hbn].
        - intros [= <-]. exists cn. by split.
        - destruct (decide (b = p)) as [->|Hbp].
          + intros [= <-]. exists cp. by split.
          + intros Hb. exists cb'. by split. }
      eexists. split; [reflexivity|]. split; [|split; [done|]].
      * split; [|split; [done|]]; cbn [store head tail].
        -- apply seg_app. exists (Some n). split.
           ++ apply (seg_frame st2).
              ** rewrite Hst2, Hnc.
                 by apply (seg_retarget _ _ _ _ _ _ (Some a)).
              ** intros x cx Hx Hcx. rewrite Hl3.
                 destruct (decide (x = n)) as [->|_].
                 { exfalso. apply NoDup_app in Hnd' as (_ & Hdis & _).
                   apply (Hdis n Hx). apply list_elem_of_here. }
                 rewrite Hl2 in Hcx. destruct (decide (x = p)); by exists cx.
           ++ apply (seg_frame (store l)).
              ** simpl. split; [done|]. by exists cn.
              ** intros x cx Hx Hcx. rewrite Hl3.
                 destruct (decide (x = n)) as [->|_].
                 { rewrite Hcn in Hcx. injection Hcx as <-. by eexists. }
                 destruct (decide (x = p)) as [->|_]; [|by exists cx].
                 exfalso. apply NoDup_app in Hnd' as (_ & Hdis & _).
                 by apply (Hdis p Hp1).
        -- split.
           { intros _. rewrite Htl by (by destruct l1).
             rewrite !last_app. done. }
           split; [intros t Ht; rewrite Hlen3; by apply Htv|]. split.
           ++ intros i x y cy Hi HSi Hcy.
              destruct (Hold y cy Hcy) as (cy0 & Hcy0 & _ & Hpy & _).
              destruct (lookup_remove_middle l1 (n :: l2) a i x y Hi HSi)
                as [(Hlt1 & Hi' & HSi')|[(Heq & Hlast & Hy)|(Hge & Hi' & HSi')]].
              ** rewrite Hpy; [by apply (Hprev i x y cy0)|].
                 intros ->. apply NoDup_app in Hnd' as (_ & Hdis & _).
                 apply (Hdis n); [|apply list_elem_of_here].
                 rewrite lookup_app_l in HSi' by lia.
                 by apply list_elem_of_lookup_2 in HSi'.
              ** simpl in Hy. injection Hy as <-.
                 rewrite El1 in Hlast. injection Hlast as <-.
                 rewrite Hl3, decide_True in Hcy by done. injection Hcy as <-.
                 simpl. done.
              ** rewrite Hpy; [by apply (Hprev (S i) x y cy0)|].
                 intros ->. apply NoDup_app in Hnd as (_ & _ & Hnd2).
                 apply NoDup_cons in Hnd2 as [_ Hnd2].
                 rewrite lookup_app_r in HSi' by lia.
                 replace (S (S i) - length l1)%nat with (S (S (i - length l1))) in HSi'
                   by lia.
                 simpl in HSi'. apply NoDup_cons in Hnd2 as [Hn2 _].
                 apply Hn2. by apply list_elem_of_lookup_2 in HSi'.
           ++ intros x cx q Hx Hcx Hq. rewrite Hlen3.
              rewrite Hl3 in Hcx. destruct (decide (x = n)) as [->|Hxn].
              ** injection Hcx as <-. simpl in Hq.
                 apply (Hpv a c q); [|done|done].
                 rewrite elem_of_app, elem_of_cons. auto.
              ** destruct (decide (x = p)) as [->|Hxp].
                 { injection Hcx as <-. simpl in Hq.
                   apply (Hpv p cp q); [by apply Hin|done|done]. }
                 apply (Hpv x cx q); [by apply Hin|done|done].
      * intros x. unfold value_at. cbn [store]. rewrite Hst3, Hst2.
        rewrite (value_write _ n cn); [by apply (value_write _ _ cp)| |done].
        rewrite <- Hst2. by rewrite Hl2, decide_False.
  - (* the link is the head *)
    apply last_None in El1. subst l1. simpl in *.
    rewrite !(decide_True (P := head l = Some a)) by (by apply Hhd).
    destruct l2 as [|n l2].
    + (* and the tail: it is the only link *)
      rewrite (decide_True (P := tail l = Some a)) by (by apply Htl').
      simpl in Hs2.
      destruct (prev c) as [p|] eqn:Ep.
      * assert (Hplt : (p < length (store l))%nat).
        { apply (Hpv a c p); [apply list_elem_of_here|done|done]. }
        destruct (set_next_spec (store l) p None Hplt) as (cp & st1 & Hcp & Hset & Hst1).
        rewrite Hset. simpl.
        assert (Hca : exists c1, st1 !! a = Some c1).
        { apply lookup_lt_is_Some. rewrite Hst1, length_insert.
          by apply lookup_lt_is_Some. }
        destruct Hca as [c1 Hc1]. rewrite Hc1. simpl.
        unfold Find. cbn [store head]. rewrite Hs2. simpl.
        eexists. split; [reflexivity|]. split; [|split].
        -- split; [done|]. split; [done|]. cbn [store head tail].
           split; [done|]. split.
           { intros t [= <-]. by rewrite Hst1, length_insert. }
           split; [by intros [] ? ? ? ?|by intros x cx q ?%elem_of_nil].
        -- simpl. by rewrite Hst1, length_insert.
        -- intros x. unfold value_at. cbn [store]. rewrite Hst1.
           by apply (value_write _ _ cp).
      * simpl. rewrite Hc. simpl.
        unfold Find. cbn [store head]. rewrite Hs2. simpl.
        eexists. split; [reflexivity|]. split; [|split; [done|done]].
        split; [done|]. split; [done|]. cbn [store head tail].
        split; [done|]. split; [done|].
        split; [by intros [] ? ? ? ?|by intros x cx q ?%elem_of_nil].
    + (* and not the tail *)
      assert (Htail : tail l <> Some a) by (intros Ht; by apply Htl' in Ht).
      rewrite (decide_False (P := tail l = Some a)) by done.
      simpl. rewrite Hc. simpl.
      unfold Find. cbn [store head].
      assert (Hnd2 : NoDup (n :: l2)) by done.
      rewrite (find_loop_none (store l) _ (n :: l2) _ _ Hs2).
      2:{ pose proof (seg_length _ _ _ _ Hs2 Hnd2). lia. }
      2:{ intros b cb Hb Hcb. apply bool_decide_eq_false. by apply (Hdiff b cb). }
      simpl. eexists. split; [reflexivity|]. split; [|split; [done|done]].
      split; [done|]. split; [done|]. cbn [store head tail].
      split; [intros _; by rewrite Htl|]. split; [done|]. split.
      * intros i x y cy Hi HSi Hcy. by apply (Hprev (S i) x y cy).
      * intros x cx q Hx Hcx Hq. apply (Hpv x cx q); [by right|done|done].
Qed.


(** ** The list as a queue *)

Lemma values_chain st : forall xs vs fuel cur,
  chain st cur xs -> Forall2 (fun a v => value <$> st !! a = Some v) xs vs ->
  (length xs < fuel)%nat -> values_from st fuel cur = Some vs.
Proof.
  unfold chain. induction xs as [|a xs IH]; intros vs fuel cur; simpl.
  - intros -> ->%Forall2_nil_inv_l Hf. destruct fuel; [lia|done].
  - intros (-> & c & Hc & Hs) (v & vs' & Hv & Hvs & ->)%Forall2_cons_inv_l Hf.
    destruct fuel as [|fuel]; [lia|]. simpl. rewrite Hc in Hv |- *. simpl in *.
    injection Hv as <-. rewrite (IH vs' fuel) by (try done; lia). done.
Qed.

Lemma Shape_NewList : Shape NewList [].
Proof.
  split; [done|]. split; [constructor|]. split; [done|]. split; [done|].
  split; [by intros [] ? ? ? ?|by intros a c p ?%elem_of_nil].
Qed.

Lemma holds_distinct l xs vs :
  Forall2 (fun a v => value_at l a = Some v) xs vs -> NoDup vs ->
  distinct_values l xs.
Proof.
  intros HF Hnd a b Ha Hb Hv.
  apply list_elem_of_lookup in Ha as [i Hi]. apply list_elem_of_lookup in Hb as [j Hj].
  destruct (Forall2_lookup_l _ _ _ _ _ HF Hi) as (v & Hvi & Hva).
  destruct (Forall2_lookup_l _ _ _ _ _ HF Hj) as (w & Hwj & Hwb).
  rewrite Hva, Hwb in Hv. injection Hv as ->.
  pose proof (NoDup_lookup _ _ _ _ Hnd Hvi Hwj) as ->. congruence.
Qed.

Lemma holds_contents l vs : holds l vs -> contents l = Some vs.
Proof.
  intros (xs & HS & HF & _). pose proof HS as (Hch & Hnd & _).
  unfold contents. apply (values_chain _ xs); [done|done|].
  pose proof (seg_length _ _ _ _ Hch Hnd). lia.
Qed.

Lemma holds_Find_absent l vs ele :
  holds l vs -> ele ∉ vs ->
  Find l (fun node => bool_decide (value node = ele)) = Some None.
Proof.
  intros (xs & HS & HF & _) Hno. pose proof HS as (Hch & Hnd & _).
  unfold Find. apply (find_loop_none _ _ xs); [done| |].
  - pose proof (seg_length _ _ _ _ Hch Hnd). lia.
  - intros a c Ha Hc. apply bool_decide_eq_false. intros <-.
    apply list_elem_of_lookup in Ha as [i Hi].
    destruct (Forall2_lookup_l _ _ _ _ _ HF Hi) as (v & Hvi & Hva).
    unfold value_at in Hva. rewrite Hc in Hva. injection Hva as <-.
    apply Hno. by apply list_elem_of_lookup_2 in Hvi.
Qed.

Lemma holds_transfer l l' xs vs :
  Forall2 (fun a v => value_at l a = Some v) xs vs ->
  (forall a, a ∈ xs -> value_at l' a = value_at l a) ->
  Forall2 (fun a v => value_at l' a = Some v) xs vs.
Proof.
  induction 1 as [|a v xs vs Hv HF IH]; intros Hsame; constructor.
  - rewrite Hsame; [done|apply list_elem_of_here].
  - apply IH. intros b Hb. apply Hsame. by right.
Qed.

Lemma filter_ne_absent (vs : list V) ele :
  ele ∉ vs -> filter (fun v => v <> ele) vs = vs.
Proof.
  induction vs as [|v vs IH]; intros Hno; [done|].
  rewrite filter_cons_True by (intros ->; apply Hno, list_elem_of_here).
  f_equal. apply IH. intros Hin. apply Hno. by right.
Qed.

Lemma run_command_holds l vs cmd :
  holds l vs -> queue_command vs cmd ->
  exists l', run_command l cmd = Some l' /\ holds l' (step vs cmd).
Proof.
  intros Hh Hq. pose proof Hh as (xs & HS & HF & Hndv).
  destruct cmd as [ele|ele|ele]; simpl in *; [done| |].
  - (* list_push_tail *)
    destruct (PushTail_Shape l xs ele HS) as (l' & HP & HS' & Hlen & Hnode & Hkeep).
    exists l'. rewrite HP. split; [done|].
    exists (xs ++ [length (store l)]). split; [done|]. split.
    + apply Forall2_app.
      * apply (holds_transfer l); [done|]. intros a Ha. unfold value_at.
        destruct (lookup_lt_is_Some_2 (store l) a (Shape_bound _ _ _ HS Ha)) as [c Hc].
        destruct (Hkeep a c Ha Hc) as (c' & Hc' & Hv & _).
        rewrite Hc, Hc'. simpl. by rewrite Hv.
      * constructor; [|constructor]. unfold value_at. by rewrite Hnode.
    + apply NoDup_app. split; [done|]. split; [|apply NoDup_singleton].
      intros v Hv ->%list_elem_of_singleton. done.
  - (* list_remove *)
    destruct (decide (ele ∈ vs)) as [Hin|Hno].
    + apply list_elem_of_split in Hin as (vs1 & vs2 & ->).
      apply Forall2_app_inv_r in HF as (l1 & r & HF1 & HFr & ->).
      apply Forall2_cons_inv_r in HFr as (a & l2 & Ha & HF2 & ->).
      pose proof HS as (Hch & Hnd & _).
      apply NoDup_app in Hndv as (Hnd1 & Hdis & Hnd2).
      apply NoDup_cons in Hnd2 as [He2 Hnd2].
      assert (He1 : ele ∉ vs1).
      { intros Hin. apply (Hdis ele Hin). apply list_elem_of_here. }
      unfold value_at in Ha.
      destruct (store l !! a) as [c|] eqn:Ec; [|done]. simpl in Ha. injection Ha as Ha.
      assert (HFind : Find l (fun node => bool_decide (value node = ele)) = Some (Some a)).
      { unfold Find. apply (find_loop_first _ _ l1 a c l2 _ _ None); try done.
        - pose proof (seg_length _ _ _ _ Hch Hnd) as Hle.
          rewrite length_app in Hle. lia.
        - intros b cb Hb Hcb. apply bool_decide_eq_false. intros <-.
          apply list_elem_of_lookup in Hb as [i Hi].
          destruct (Forall2_lookup_l _ _ _ _ _ HF1 Hi) as (v & Hvi & Hvb).
          unfold value_at in Hvb. rewrite Hcb in Hvb. injection Hvb as <-.
          apply He1. by apply list_elem_of_lookup_2 in Hvi.
        - by apply bool_decide_eq_true. }
      rewrite HFind. simpl.
      assert (HFall : Forall2 (fun a v => value_at l a = Some v)
                        (l1 ++ a :: l2) (vs1 ++ ele :: vs2)).
      { apply Forall2_app; [done|]. constructor; [|done].
        unfold value_at. rewrite Ec. simpl. by rewrite Ha. }
      assert (Hndall : NoDup (vs1 ++ ele :: vs2)).
      { apply NoDup_app. split; [done|]. split; [done|]. by apply NoDup_cons. }
      destruct (PopSelf_Shape l l1 a l2 HS (holds_distinct _ _ _ HFall Hndall))
        as (l' & HP & HS' & _ & Hval).
      exists l'. split; [done|]. exists (l1 ++ l2).
      rewrite filter_app, filter_cons_False by (intros Hne; by apply Hne).
      rewrite !filter_ne_absent by done.
      split; [done|]. split.
      * apply Forall2_app; (eapply holds_transfer; [done|]); intros; apply Hval.
      * apply NoDup_app. split; [done|]. split; [|done].
        intros v Hv Hv2. apply (Hdis v Hv). by right.
    + rewrite (holds_Find_absent l vs ele Hh Hno). simpl.
      exists l. split; [done|]. by rewrite filter_ne_absent.
Qed.

Lemma run_commands_holds cmds : forall l vs,
  holds l vs -> queue_commands vs cmds ->
  exists l', run_commands l cmds = Some l' /\ holds l' (fold_left step cmds vs).
Proof.
  induction cmds as [|cmd cmds IH]; intros l vs Hh Hq; simpl in *; [by exists l|].
  destruct Hq as [Hq Hqs].
  destruct (run_command_holds l vs cmd Hh Hq) as (l1 & -> & Hh1). simpl.
  by apply IH.
Qed.

(** X23. The list as a queue.  For every sequence of commands
    [list_push_tail] and [list_remove] on a new list in which each push is
    of a value that the list does not hold, no command panics or loops,
    and the walk from the head finds afterwards the values pushed and not
    removed, in the order of their pushes. *)
Theorem list_as_queue cmds :
  queue_commands [] cmds ->
  exists l, run_commands NewList cmds = Some l /\
            contents l = Some (fold_left step cmds []).
Proof.
  intros Hq.
  assert (Hnew : holds NewList []).
  { exists []. split; [apply Shape_NewList|]. split; constructor. }
  destruct (run_commands_holds cmds NewList [] Hnew Hq) as (l & Hrun & Hh).
  exists l. split; [done|]. by apply holds_contents.
Qed.


(** ** Where the list is not a queue *)

(** X24. A push at the head of an emptied list whose tail is stale.  When
    the head of the list is nil and its tail is not, the state in which
    [PopSelf] leaves a list emptied from its head, [list_push_head]
    followed by [list_push_tail] loses the second element: the walk from
    the head finds the first one only. *)
Theorem push_head_on_stale_tail l t v w :
  head l = None -> tail l = Some t -> (t < length (store l))%nat ->
  exists l', run_commands l [list_push_head v; list_push_tail w] = Some l' /\
             contents l' = Some [v] /\ PeekTail l' <> PeekHead l'.
Proof.
  intros Hh Ht Hlt. simpl. unfold PushHead. rewrite Hh, Ht. simpl.
  unfold PushTail. cbn [store head tail].
  set (node := length (store l)).
  set (st := (store l ++ [mkLink None None v]) ++ [mkLink (Some t) None w]).
  assert (Hlen : length st = S (S node)).
  { unfold st. rewrite !length_app. simpl. lia. }
  assert (Hlen0 : length (store l ++ [mkLink None None v]) = S node).
  { rewrite length_app. simpl. lia. }
  rewrite Hlen0.
  destruct (set_next_spec st t (Some (S node)) ltac:(lia)) as (ct & st1 & Hct & Hset & Hst1).
  rewrite Hset. simpl.
  eexists. split; [reflexivity|]. split.
  - unfold contents. cbn [store head]. simpl.
    assert (Hnode : st1 !! node = Some (mkLink None None v)).
    { rewrite Hst1, list_lookup_insert_ne by lia.
      unfold st. rewrite lookup_app_l by lia. by apply list_lookup_middle. }
    rewrite Hnode. simpl.
    replace (length st1) with (S (S node)) by (by rewrite Hst1, length_insert).
    done.
  - unfold PeekTail, PeekHead. simpl. intros [= Heq]. lia.
Qed.

Lemma find_loop_some st f : forall xs fuel cur,
  chain st cur xs -> (length xs < fuel)%nat ->
  (exists b cb, b ∈ xs /\ st !! b = Some cb /\ f cb = true) ->
  exists b, find_loop st f fuel cur = Some (Some b).
Proof.
  unfold chain. induction xs as [|a xs IH]; intros fuel cur; simpl.
  - intros _ _ (b & cb & []%elem_of_nil & _).
  - intros (-> & c & Hc & Hs) Hf (b & cb & Hb & Hcb & Hfb).
    destruct fuel as [|fuel]; [lia|]. simpl. rewrite Hc. simpl.
    destruct (f c) eqn:Efc; [by exists a|].
    apply IH; [done|lia|].
    apply elem_of_cons in Hb as [->|Hb]; [congruence|]. by exists b, cb.
Qed.

(** [PopSelf] of a head link that has no [prev], when a later link has
    its value: the walk of [Find] meets that link, and the unlinking goes
    through the nil [prev]. *)
Lemma PopSelf_duplicate l a l2 c :
  Shape l (a :: l2) -> store l !! a = Some c -> prev c = None ->
  (exists b cb, b ∈ l2 /\ store l !! b = Some cb /\ value cb = value c) ->
  PopSelf l a = None.
Proof.
  intros HS Hc Hp (b & cb & Hb & Hcb & Hv).
  destruct (Shape_split l [] a l2 HS)
    as (c0 & Hc0 & Hs1 & Hs2 & Ha1 & Ha2 & Hnd' & Hhd & Htl' & Hpc).
  rewrite Hc in Hc0. injection Hc0 as <-.
  unfold PopSelf. rewrite Hc. simpl.
  rewrite !(decide_True (P := head l = Some a)) by (by apply Hhd).
  assert (Htail : tail l <> Some a).
  { intros Ht. apply Htl' in Ht. subst l2. by apply elem_of_nil in Hb. }
  rewrite (decide_False (P := tail l = Some a)) by done.
  simpl. rewrite Hc. simpl.
  unfold Find. cbn [store head].
  destruct (find_loop_some (store l) (fun node => bool_decide (value node = value c))
              l2 (S (length (store l))) (next c) Hs2) as [b' ->].
  - pose proof (seg_length _ _ _ _ Hs2 Hnd'). simpl in *. lia.
  - exists b, cb. split; [done|]. split; [done|]. by apply bool_decide_eq_true.
  - simpl. by rewrite Hp.
Qed.

(** The list after pushes at its tail only. *)
Lemma pushes_Shape vs : forall l xs ws,
  Shape l xs -> Forall2 (fun a v => value_at l a = Some v) xs ws ->
  exists l' xs', run_commands l (list_push_tail <$> vs) = Some l' /\
    Shape l' (xs ++ xs') /\
    Forall2 (fun a v => value_at l' a = Some v) (xs ++ xs') (ws ++ vs) /\
    (forall a c, a ∈ xs -> store l !! a = Some c ->
       exists c', store l' !! a = Some c' /\ value c' = value c /\ prev c' = prev c).
Proof.
  induction vs as [|v vs IH]; intros l xs ws HS HF.
  { exists l, []. rewrite !app_nil_r. split; [done|]. split; [done|].
    split; [done|]. intros a c _ Hc. by exists c. }
  destruct (PushTail_Shape l xs v HS) as (l1 & HP & HS1 & Hlen & Hnode & Hkeep).
  assert (HF1 : Forall2 (fun a v => value_at l1 a = Some v)
                  (xs ++ [length (store l)]) (ws ++ [v])).
  { apply Forall2_app.
    - apply (holds_transfer l); [done|]. intros a Ha. unfold value_at.
      destruct (lookup_lt_is_Some_2 (store l) a (Shape_bound _ _ _ HS Ha)) as [c Hc].
      destruct (Hkeep a c Ha Hc) as (c' & Hc' & Hv & _).
      rewrite Hc, Hc'. simpl. by rewrite Hv.
    - constructor; [|constructor]. unfold value_at. by rewrite Hnode. }
  destruct (IH l1 _ _ HS1 HF1) as (l' & xs' & Hrun & HS' & HF' & Hkeep').
  exists l', (length (store l) :: xs').
  repeat rewrite <- app_assoc in HS'. repeat rewrite <- app_assoc in HF'.
  simpl in HS', HF'.
  split.
  { rewrite fmap_cons.
    change (run_commands l (list_push_tail v :: (list_push_tail <$> vs)))
      with ((fst <$> PushTail l v) ≫=
              (fun l0 : List => run_commands l0 (list_push_tail <$> vs))).
    rewrite HP. exact Hrun. }
  split; [done|]. split; [done|].
  intros a c Ha Hc. destruct (Hkeep a c Ha Hc) as (c1 & Hc1 & Hv1 & Hp1).
  destruct (Hkeep' a c1) as (c' & Hc' & Hv' & Hp'); [|done|].
  - apply elem_of_app. by left.
  - exists c'. split; [done|]. split; congruence.
Qed.

(** X25. Removing a value that the list holds twice.  After pushes at the
    tail of a new list of a value and then of further values among which
    the first value occurs again, [list_remove] of that value does not
    return: it pops the head link, the walk of [Find] in [PopSelf] meets
    the later link of the same value, and the unlinking dereferences the
    nil [prev] of the head. *)
Theorem list_remove_duplicate_panics ele vs :
  ele ∈ vs ->
  run_commands NewList
    (list_push_tail ele :: (list_push_tail <$> vs) ++ [list_remove ele]) = None.
Proof.
  intros Hin.
  change (list_push_tail ele :: (list_push_tail <$> vs) ++ [list_remove ele])
    with ((list_push_tail <$> (ele :: vs)) ++ [list_remove ele]).
  destruct (pushes_Shape (ele :: vs) NewList [] [] Shape_NewList ltac:(constructor))
    as (l & xs & Hrun & HS & HF & _).
  simpl app in HS, HF.
  assert (Hruns : forall cs1 cs2 l0 l1, run_commands l0 cs1 = Some l1 ->
            run_commands l0 (cs1 ++ cs2) = run_commands l1 cs2).
  { induction cs1 as [|c1 cs1 IH]; intros cs2 l0 l1; simpl; [by intros [= ->]|].
    destruct (run_command l0 c1) as [l0'|]; simpl; [apply IH|done]. }
  rewrite (Hruns _ _ _ _ Hrun). simpl.
  apply Forall2_cons_inv_r in HF as (a & xs' & Ha & HF' & ->).
  pose proof HS as (Hch & Hnd & _).
  unfold value_at in Ha. destruct (store l !! a) as [c|] eqn:Ec; [|done].
  simpl in Ha. injection Ha as Ha.
  assert (HFind : Find l (fun node => bool_decide (value node = ele)) = Some (Some a)).
  { unfold Find. apply (find_loop_first _ _ [] a c xs' _ _ None); try done.
    - simpl. lia.
    - by intros b cb ?%elem_of_nil.
    - by apply bool_decide_eq_true. }
  rewrite HFind. simpl.
  (* the head link is the first link pushed, and its [prev] is nil *)
  assert (Hprev : prev c = None).
  { destruct (PushTail_Shape NewList [] ele Shape_NewList)
      as (l0 & HP & HS0 & _ & Hnode0 & _).
    simpl in HS0, Hnode0.
    rewrite fmap_cons in Hrun.
    change (run_commands NewList (list_push_tail ele :: (list_push_tail <$> vs)))
      with ((fst <$> PushTail NewList ele) ≫=
              (fun l0 : List => run_commands l0 (list_push_tail <$> vs))) in Hrun.
    rewrite HP in Hrun. simpl in Hrun.
    destruct (pushes_Shape vs l0 [0%nat] [ele] HS0) as (l' & xs'' & Hrun' & HS'' & _ & Hk).
    { constructor; [|constructor]. unfold value_at. by rewrite Hnode0. }
    rewrite Hrun in Hrun'. injection Hrun' as <-.
    destruct (Hk 0%nat _ ltac:(apply list_elem_of_here) Hnode0) as (c' & Hc' & _ & Hp').
    assert (a = 0%nat) as ->.
    { destruct HS'' as (Hch'' & _). destruct Hch as (Hh & _).
      destruct Hch'' as (Hh'' & _). congruence. }
    rewrite Ec in Hc'. injection Hc' as <-. done. }
  rewrite (PopSelf_duplicate l a xs' c HS Ec Hprev); [done|].
  apply list_elem_of_lookup in Hin as [i Hi].
  destruct (Forall2_lookup_r _ _ _ _ _ HF' Hi) as (b & Hb & Hvb).
  unfold value_at in Hvb. destruct (store l !! b) as [cb|] eqn:Ecb; [|done].
  simpl in Hvb. injection Hvb as Hvb.
  exists b, cb. split; [by apply list_elem_of_lookup_2 in Hb|]. split; [done|congruence].
Qed.


End Links.

(** ** The properties of the list, on lists of numbers *)

Lemma list_as_queue_witness :
  let cmds := [list_push_tail nat 1; list_push_tail nat 2; list_remove nat 1;
               list_push_tail nat 3]%nat in
  queue_commands nat [] cmds /\
  exists l, run_commands nat (NewList nat) cmds = Some l /\
            contents nat l = Some [2; 3]%nat.
Proof.
  intros cmds.
  assert (Hq : queue_commands nat [] cmds).
  { simpl. split; [by intros ?%elem_of_nil|].
    split; [intros [?|?%elem_of_nil]%elem_of_cons; done|].
    split; [done|]. split; [|done].
    vm_compute. intros [?|?%elem_of_nil]%elem_of_cons; done. }
  split; [exact Hq|].
  exact (list_as_queue nat cmds Hq).
Defined.

Lemma push_head_on_stale_tail_witness :
  exists l,
    run_commands nat (NewList nat)
      [list_push_tail nat 1; list_push_tail nat 2; list_remove nat 1;
       list_remove nat 2]%nat = Some l /\
    head nat l = None /\ tail nat l = Some 0%nat /\
    exists l', run_commands nat l [list_push_head nat 3; list_push_tail nat 4]%nat = Some l' /\
               contents nat l' = Some [3%nat] /\ PeekTail nat l' <> PeekHead nat l'.
Proof.
  eexists. split; [vm_compute; reflexivity|].
  split; [reflexivity|]. split; [reflexivity|].
  apply (push_head_on_stale_tail nat _ 0%nat 3%nat 4%nat); [reflexivity|reflexivity|].
  simpl. lia.
Defined.

Lemma list_remove_duplicate_panics_witness :
  7%nat ∈ [7%nat] /\
  run_commands nat (NewList nat)
    [list_push_tail nat 7; list_push_tail nat 7; list_remove nat 7]%nat = None.
Proof.
  assert (Hin : 7%nat ∈ [7%nat]) by apply list_elem_of_here.
  split; [exact Hin|].
  exact (list_remove_duplicate_panics nat 7%nat [7%nat] Hin).
Defined.


End LinkedList.
